(** * Calculadora de conjuntos: relation/order engine and modular arithmetic

    A shallow embedding of the algorithmic core of the application:
    - [Modular]: [modNorm], [egcd], [modInv], [powMod],
      [solveLinearCongruence] and [buildModTable]
      (src/app/modular.tsx);
    - [Relations]: [pairKey], [transitiveClosureFromCovers],
      [coversFromRelation], [relationProps] with its classification,
      and the level assignment of [layoutHasse] (the page component).
      The coordinates that [layoutHasse] derives from the levels are
      floating-point values and are left out;
    - [Matrix]: [buildRelationMatrix] and [buildAdjacencyMatrix]
      (matrix.tsx);
    - [Extrema]: [computeExtremaByR], [computeExtremaByClosure],
      [computeMinMaxByHasse] and [closureFromRelation]
      (src/app/maximominimo.tsx);
    - [SetOps]: [toSet], [uniq], [union], [intersection], [difference],
      [equals], the De Morgan checks and [bucketize] (the page
      component).

    JavaScript numbers that hold integers are modelled by [Z]. A number
    holds an integer exactly up to the magnitude 2^53; where arguments
    in that range can give a larger result (the products of [powMod]
    and [solveLinearCongruence], the level count of [layoutHasse]) the
    result is rounded as binary64 arithmetic rounds it ([Number.rnd]).
    Where the results stay within the arguments ([modNorm], [egcd],
    [modInv], the tables) the operations are written exactly, and the
    theorems bound the arguments by 2^53. The bit operations of
    [powMod] go through the 32-bit conversion. An array holds fewer
    than 2^32 entries: the queue of [layoutHasse] is checked against
    that length. A [Set] is modelled by the list of its elements in
    insertion order where it is iterated, and by a [gset] where it is
    only queried. *)

From Stdlib Require Import ZArith Znumtheory Zpow_facts List String Ascii Lia Bool.
From stdpp Require Import base gmap sets list strings.
From Equations Require Import Equations.
Import ListNotations.

(* ===================================================================== *)
(** ** JavaScript numbers that hold integers                              *)
(* ===================================================================== *)

Module Number.
Local Open Scope Z_scope.

(** An integer as a binary64 number: integers of magnitude up to 2^53
    are represented exactly; a larger one keeps its 53 leading bits,
    rounded to nearest with ties to the even significand. (Results
    beyond the binary64 range, 2^1024, are not modelled.) *)
Definition rnd (z : Z) : Z :=
  if Z.abs z <=? 2 ^ 53 then z
  else
    let e := Z.log2 (Z.abs z) - 52 in
    let q := Z.abs z / 2 ^ e in
    let r := Z.abs z mod 2 ^ e in
    let up := (2 ^ (e - 1) <? r) || ((r =? 2 ^ (e - 1)) && Z.odd q) in
    Z.sgn z * ((if up then q + 1 else q) * 2 ^ e).

(** [x + y] and [x * y] on numbers that hold integers: the exact
    result, rounded. *)
Definition fadd (x y : Z) : Z := rnd (x + y).
Definition fmul (x y : Z) : Z := rnd (x * y).

(** The length of an array is below 2^32: [push] on an array of
    [maxArrayLength] entries raises a RangeError. *)
Definition maxArrayLength : Z := 2 ^ 32 - 1.

End Number.

(* ===================================================================== *)
(** ** Modular arithmetic (src/app/modular.tsx)                          *)
(* ===================================================================== *)

Module Modular.
Import Number.
Local Open Scope Z_scope.

(** [a % m] of JavaScript truncates towards zero: it is [Z.rem], exact
    on all numbers. The sum [r + |m|] has a negative [r] of smaller
    magnitude than [m], so it lies in (0, |m|): it is exact whenever
    |m| is at most 2^53, the range in which the theorems use it. *)
Definition modNorm (a m : Z) : Z :=
  if m =? 0 then a
  else
    let r := Z.rem a m in
    if r <? 0 then r + Z.abs m else r.

Record EgcdResult : Set := { g : Z; x : Z; y : Z }.

(** The [while (b !== 0)] loop of [egcd]; [Math.trunc (a / b)] is the
    quotient truncated towards zero, [Z.quot]. The loop ends because
    the magnitude of [b] decreases. On arguments of magnitude up to
    2^53 no quotient, product or difference of the loop exceeds the
    larger argument in magnitude (the coefficients are bounded by the
    arguments), so every operation is exact there: this is the range in
    which the theorems use the loop. *)
Equations? egcd_loop (a b x0 y0 x1 y1 : Z) : EgcdResult
  by wf (Z.abs_nat b) lt :=
  egcd_loop a b x0 y0 x1 y1 with Z.eq_dec b 0 := {
    | left _ => {| g := Z.abs a; x := x0; y := y0 |}
    | right _ =>
        let q := Z.quot a b in
        egcd_loop b (a - q * b) x1 y1 (x0 - q * x1) (y0 - q * y1) }.
Proof.
  subst q.
  replace (a - Z.quot a b * b) with (Z.rem a b)
    by (pose proof (Z.quot_rem' a b); lia).
  match goal with
  | Hb : b <> 0 |- _ => pose proof (Z.rem_bound_abs a b Hb)
  end.
  lia.
Qed.

Definition egcd (a b : Z) : EgcdResult := egcd_loop a b 1 0 0 1.

Definition modInv (a m : Z) : option Z :=
  let r := egcd a m in
  if negb (g r =? 1) then None else Some (modNorm (x r) m).

Record LinearCongruence : Set :=
  { hasSolution : bool; x0 : option Z; mod_ : option Z }.

(** [b % g] is [NaN] when [g] is zero, and [NaN !== 0] holds. Past that
    test [g] divides [a], [b] and [m], so the three divisions are exact
    and are written with [Z.quot]. The product [inv * b1] can exceed
    2^53 and is rounded. *)
Definition solveLinearCongruence (a b m : Z) : LinearCongruence :=
  let g0 := g (egcd (Z.abs a) (Z.abs m)) in
  if (g0 =? 0) || negb (Z.rem b g0 =? 0)
  then {| hasSolution := false; x0 := None; mod_ := None |}
  else
    let a1 := Z.quot a g0 in
    let b1 := Z.quot b g0 in
    let m1 := Z.quot m g0 in
    match modInv (modNorm a1 m1) (Z.abs m1) with
    | None => {| hasSolution := false; x0 := None; mod_ := None |}
    | Some inv =>
        {| hasSolution := true;
           x0 := Some (modNorm (fmul inv b1) (Z.abs m1));
           mod_ := Some (Z.abs m1) |}
    end.

(** [ToInt32] of ECMAScript, applied by the bit operators [&] and [>>]
    to their operands. *)
Definition toInt32 (z : Z) : Z := (z + 2 ^ 31) mod 2 ^ 32 - 2 ^ 31.

(** The [while (e > 0)] loop of [powMod]: [e & 1] and [e >>= 1] work on
    the 32-bit conversion of [e]; the products [res * b] and [b * b]
    can exceed 2^53 and are rounded. (With the modulus 0 nothing is
    reduced and the products leave the binary64 range; no theorem
    below is about that case.) *)
Equations? powMod_loop (res b e m : Z) : Z
  by wf (Z.to_nat (Z.log2 e) + (if (0 <? e)%Z then 1 else 0))%nat lt :=
  powMod_loop res b e m with Z_lt_dec 0 e := {
    | left _ =>
        powMod_loop
          (if negb (Z.land (toInt32 e) 1 =? 0) then modNorm (fmul res b) m
           else res)
          (modNorm (fmul b b) m)
          (Z.shiftr (toInt32 e) 1)
          m
    | right _ => res }.
Proof.
  assert (Ht : toInt32 e <= e).
  { unfold toInt32. destruct (Z_lt_dec e (2 ^ 31)) as [Hlt|Hge].
    - rewrite Z.mod_small by lia. lia.
    - pose proof (Z.mod_pos_bound (e + 2 ^ 31) (2 ^ 32) ltac:(lia)). lia. }
  destruct (Z.ltb_spec 0 e) as [_|?]; [|lia].
  destruct (Z.ltb_spec 0 (Z.shiftr (toInt32 e) 1)) as [Hpos|Hneg].
  - assert (0 < toInt32 e).
    { destruct (Z_lt_dec 0 (toInt32 e)) as [?|Hn]; [assumption|].
      rewrite Z.shiftr_div_pow2 in Hpos by lia.
      assert (toInt32 e / 2 ^ 1 <= 0); [|lia].
      apply Z.div_le_upper_bound; lia. }
    rewrite Z.log2_shiftr by assumption.
    pose proof (Z.log2_le_mono (toInt32 e) e Ht).
    pose proof (Z.log2_nonneg (toInt32 e)).
    assert (2 <= toInt32 e).
    { rewrite Z.shiftr_div_pow2 in Hpos by lia.
      destruct (Z_lt_dec (toInt32 e) 2) as [Hsmall|?]; [|lia].
      rewrite Z.div_small in Hpos by lia. lia. }
    pose proof (Z.log2_le_mono 2 (toInt32 e) ltac:(lia)) as Hl.
    change (Z.log2 2) with 1 in Hl. lia.
  - rewrite Z.log2_nonpos by assumption. lia.
Qed.

(** [1 % (m || 1)]: the modulus 0 is replaced by 1. *)
Definition powMod (base exp m : Z) : Z :=
  let base := modNorm base m in
  let res := Z.rem 1 (if m =? 0 then 1 else m) in
  powMod_loop res base exp m.


(** [A[i][j] = v] on a rectangular array of rows. *)
Definition setEntry (i j : nat) (v : Z) (A : list (list Z)) : list (list Z) :=
  alter (fun row => <[j := v]> row) i A.


(** The entry in row [i] and column [j], when there is one. *)
Definition entry (A : list (list Z)) (i j : nat) : option Z :=
  A !! i ≫= (.!! j).

(** An n x n array of rows. *)
Definition Rect (n : nat) (A : list (list Z)) : Prop :=
  length A = n /\ Forall (fun row => length row = n) A.


End Modular.


(* ===================================================================== *)
(** ** Relations, closure, reduction and Hasse levels (page component)   *)
(* ===================================================================== *)

Module Relations.

(** [type Elem = string] and [type Pair = [Elem, Elem]]. A
    [Set<Elem>] is iterated in insertion order and is modelled by the
    list of its elements in that order; a [Set<string>] that is only
    queried with [has] is a [gset string]. *)
Abbreviation Elem := string (only parsing).
Abbreviation Pair := (string * string)%type (only parsing).

(** [pairKey = (a, b) => `${a}|||${b}`]. *)
Definition pairKey (a b : Elem) : string := a +:+ "|||" +:+ b.

(** Strings without the character [|], on which [pairKey] is
    unambiguous. *)
Fixpoint barFree (s : string) : bool :=
  match s with
  | EmptyString => true
  | String c s' => negb (Ascii.eqb c "|") && barFree s'
  end.

(** The membership set built from a pair list
    ([relationPairs.forEach(([a, b]) => s.add(pairKey(a, b)))]). *)
Definition relationSet (pairs : list Pair) : gset string :=
  fold_left (fun s p => {[pairKey p.1 p.2]} ∪ s) pairs ∅.

(** *** transitiveClosureFromCovers *)

(** [if (!adj.has(a)) adj.set(a, []); adj.get(a)!.push(b)]. *)
Definition adjPush (adj : gmap string (list string)) (p : Pair)
  : gmap string (list string) :=
  let adj1 := match adj !! p.1 with
              | None => <[p.1 := []]> adj
              | Some _ => adj
              end in
  alter (fun l => l ++ [p.2]) p.1 adj1.

Definition buildAdj (covers : list Pair) : gmap string (list string) :=
  fold_left adjPush covers ∅.

(** The two accumulators [result] and [seen] of the closure. *)
Record ClosureState : Type := { result : list Pair; seen : gset string }.

Definition addPair (a b : Elem) (st : ClosureState) : ClosureState :=
  let k := pairKey a b in
  if decide (k ∈ seen st) then st
  else {| result := result st ++ [(a, b)]; seen := {[k]} ∪ seen st |}.

(** [for (const nxt of adj.get(v) ?? []) if (!visited.has(nxt)) stack.push(nxt)].
    The stack is kept with its top (the end of the JavaScript array) at
    the head of the list. *)
Definition pushUnvisited (visited : gset string) (stack : list Elem)
    (nexts : list Elem) : list Elem :=
  fold_left (fun s nxt => if decide (nxt ∈ visited) then s else nxt :: s)
            nexts stack.

(** The [while (stack.length)] search from the source [a]; [None] when
    the iteration budget runs out before the stack empties. *)
Fixpoint search (fuel : nat) (adj : gmap string (list string)) (a : Elem)
    (visited : gset string) (stack : list Elem) (st : ClosureState)
    {struct fuel} : option ClosureState :=
  match stack with
  | [] => Some st
  | v :: stack' =>
      match fuel with
      | O => None
      | S fuel' =>
          if decide (v ∈ visited) then search fuel' adj a visited stack' st
          else
            let visited' := {[v]} ∪ visited in
            search fuel' adj a visited'
                   (pushUnvisited visited' stack' (default [] (adj !! v)))
                   (addPair a v st)
      end
  end.

(** One round of [for (const a of U)]. *)
Definition closureFrom (fuel : nat) (adj : gmap string (list string))
    (acc : option ClosureState) (a : Elem) : option ClosureState :=
  match acc with
  | None => None
  | Some st =>
      search fuel adj a ∅ (rev (default [] (adj !! a))) (addPair a a st)
  end.

Definition closureWithFuel (fuel : nat) (U : list Elem) (covers : list Pair)
  : option (list Pair) :=
  result <$> fold_left (closureFrom fuel (buildAdj covers)) U
                       (Some {| result := []; seen := ∅ |}).

(** Every search pops at most [2 * |covers|] entries (see
    [transitiveClosureFromCovers_total]), so this budget is never
    exhausted. *)
Definition transitiveClosureFromCovers (U : list Elem) (covers : list Pair)
  : option (list Pair) :=
  closureWithFuel (S (2 * length covers)) U covers.

(** *** coversFromRelation *)

(** The inner [for (const c of U)] with its [continue] and [break]. *)
Fixpoint isCover (relSet : gset string) (a b : Elem) (cs : list Elem) : bool :=
  match cs with
  | [] => true
  | c :: cs' =>
      if decide (c = a ∨ c = b) then isCover relSet a b cs'
      else if bool_decide (pairKey a c ∈ relSet)
              && bool_decide (pairKey c b ∈ relSet)
           then false
           else isCover relSet a b cs'
  end.

Definition coversFromRelation (U : list Elem) (relPairs : list Pair)
    (relSet : gset string) : list Pair :=
  fold_left
    (fun covers p =>
       if decide (p.1 = p.2) then covers
       else if negb (bool_decide (p.1 ∈ U)) || negb (bool_decide (p.2 ∈ U))
            then covers
            else if isCover relSet p.1 p.2 U then covers ++ [p] else covers)
    relPairs [].

(** *** relationProps *)

Record RelationProps : Type :=
  { reflexive : bool;
    reflexiveMissing : option Elem;
    symmetric : bool;
    symmetricWitness : option Pair;
    antisymmetric : bool;
    antisymmetricWitness : option Pair;
    transitive : bool;
    transitiveWitness : option (Pair * Pair * Pair) }.

(** Each scan returns its flag together with the witness it stops at. *)
Fixpoint reflexiveCheck (relSet : gset string) (U : list Elem)
  : bool * option Elem :=
  match U with
  | [] => (true, None)
  | x :: U' =>
      if bool_decide (pairKey x x ∈ relSet) then reflexiveCheck relSet U'
      else (false, Some x)
  end.

Fixpoint symmetricCheck (relSet : gset string) (pairs : list Pair)
  : bool * option Pair :=
  match pairs with
  | [] => (true, None)
  | p :: pairs' =>
      if bool_decide (pairKey p.2 p.1 ∈ relSet)
      then symmetricCheck relSet pairs'
      else (false, Some p)
  end.

Fixpoint antisymmetricCheck (relSet : gset string) (pairs : list Pair)
  : bool * option Pair :=
  match pairs with
  | [] => (true, None)
  | p :: pairs' =>
      if negb (bool_decide (p.1 = p.2))
         && bool_decide (pairKey p.2 p.1 ∈ relSet)
      then (false, Some p)
      else antisymmetricCheck relSet pairs'
  end.

(** The inner loop of the transitivity scan, for one pair (a, b): the
    first pair (c, d) with [b = c] whose composite (a, d) is absent. *)
Fixpoint transitiveInner (relSet : gset string) (ab : Pair)
    (pairs : list Pair) : option (Pair * Pair * Pair) :=
  match pairs with
  | [] => None
  | cd :: pairs' =>
      if bool_decide (ab.2 = cd.1)
         && negb (bool_decide (pairKey ab.1 cd.2 ∈ relSet))
      then Some (ab, cd, (ab.1, cd.2))
      else transitiveInner relSet ab pairs'
  end.

Fixpoint transitiveCheck (relSet : gset string) (all pairs : list Pair)
  : bool * option (Pair * Pair * Pair) :=
  match pairs with
  | [] => (true, None)
  | ab :: pairs' =>
      match transitiveInner relSet ab all with
      | Some w => (false, Some w)
      | None => transitiveCheck relSet all pairs'
      end
  end.

Definition relationProps (U : list Elem) (relationPairs : list Pair)
    (relSet : gset string) : RelationProps :=
  let r := reflexiveCheck relSet U in
  let s := symmetricCheck relSet relationPairs in
  let a := antisymmetricCheck relSet relationPairs in
  let t := transitiveCheck relSet relationPairs relationPairs in
  {| reflexive := r.1; reflexiveMissing := r.2;
     symmetric := s.1; symmetricWitness := s.2;
     antisymmetric := a.1; antisymmetricWitness := a.2;
     transitive := t.1; transitiveWitness := t.2 |}.

(** *** layoutHasse: the level assignment *)

(** [Set.prototype.add] on an insertion-ordered set. *)
Definition setAdd (x : Elem) (s : list Elem) : list Elem :=
  if decide (x ∈ s) then s else s ++ [x].

Definition emptySets (universe : list Elem) : gmap string (list string) :=
  fold_left (fun m u => <[u := []]> m) universe ∅.

(** [preds] and [succs] after the loop over [covers]. *)
Definition linkCover (universe : list Elem)
    (ps : gmap string (list string) * gmap string (list string)) (p : Pair)
  : gmap string (list string) * gmap string (list string) :=
  if negb (bool_decide (p.1 ∈ universe)) || negb (bool_decide (p.2 ∈ universe))
  then ps
  else (alter (setAdd p.1) p.2 ps.1, alter (setAdd p.2) p.1 ps.2).

Definition buildPredsSuccs (universe : list Elem) (covers : list Pair)
  : gmap string (list string) * gmap string (list string) :=
  fold_left (linkCover universe) covers
            (emptySets universe, emptySets universe).

(** The level map and the work queue (front at the head). *)
Definition LevelState : Type := (gmap string Z * list Elem)%type.

Definition seedMinimal (preds : gmap string (list string))
    (st : LevelState) (u : Elem) : LevelState :=
  if (length (default [] (preds !! u)) =? 0)%nat
  then (<[u := 0%Z]> st.1, st.2 ++ [u])
  else st.

Definition initialLevels (universe : list Elem)
    (preds : gmap string (list string)) : LevelState :=
  let st := fold_left (seedMinimal preds) universe (∅, []) in
  match st.2, universe with
  | [], u0 :: _ => (<[u0 := 0%Z]> st.1, st.2 ++ [u0])
  | _, _ => st
  end.

(** The body of [for (const w of succs.get(v) ?? [])]. The levels are
    numbers: [lv + 1] is rounded, so a level that has reached 2^53 stays
    there. *)
Definition relaxEdge (lv : Z) (st : LevelState) (w : Elem) : LevelState :=
  let candidate := Number.fadd lv 1 in
  match st.1 !! w with
  | None => (<[w := candidate]> st.1, st.2 ++ [w])
  | Some cur =>
      if (candidate >? cur)%Z then (<[w := candidate]> st.1, st.2 ++ [w])
      else st
  end.

(** The [while (queue.length)] relaxation. The result is [None] when
    the call gives no level map: the iteration budget runs out before
    the queue empties, or [queue.push] raises a RangeError because the
    queue would get longer than an array can be. Every push adds one
    entry, so a push of the round raised exactly when the queue that the
    round would leave is longer than [maxArrayLength]. *)
Fixpoint relax (fuel : nat) (succs : gmap string (list string))
    (st : LevelState) {struct fuel} : option (gmap string Z) :=
  match st.2 with
  | [] => Some st.1
  | v :: queue' =>
      match fuel with
      | O => None
      | S fuel' =>
          let lv := default 0%Z (st.1 !! v) in
          let st' := fold_left (relaxEdge lv) (default [] (succs !! v))
                               (st.1, queue') in
          if (Number.maxArrayLength <? Z.of_nat (length st'.2))%Z then None
          else relax fuel' succs st'
      end
  end.

(** [levelMap] when the worklist loop ends. *)
Definition relaxedLevels (fuel : nat) (universe : list Elem)
    (covers : list Pair) : option (gmap string Z) :=
  let ps := buildPredsSuccs universe covers in
  relax fuel ps.2 (initialLevels universe ps.1).

(** [for (const u of universe) if (!levelMap.has(u)) levelMap.set(u, 0)]. *)
Definition fillMissing (universe : list Elem) (levelMap : gmap string Z)
  : gmap string Z :=
  fold_left (fun m u => match m !! u with
                        | None => <[u := 0%Z]> m
                        | Some _ => m
                        end) universe levelMap.

(** The final level of every element, from which [layoutHasse] derives
    the coordinates: the vertical position is
    [(maxLevel - lvl + 1) * vStep], decreasing in the level. *)
Definition layoutHasseLevels (fuel : nat) (universe : list Elem)
    (covers : list Pair) : option (gmap string Z) :=
  fillMissing universe <$> relaxedLevels fuel universe covers.

(** An element is reached when the worklist loop ends with a level for
    it, before the missing levels are filled with 0. *)
Definition reached (fuel : nat) (universe : list Elem) (covers : list Pair)
    (a : Elem) : Prop :=
  ∃ levelMap, relaxedLevels fuel universe covers = Some levelMap ∧
              is_Some (levelMap !! a).

(** *** Order-theoretic vocabulary for the covering relation *)

(** [edge H a b]: the pair (a, b) is listed in [H]. *)
Definition edge (H : list Pair) (a b : Elem) : Prop := (a, b) ∈ H.

(** The edges of [H] other than the pair (a, b). *)
Definition edgeBut (H : list Pair) (a b : Elem) (c d : Elem) : Prop :=
  (c, d) ∈ H ∧ (c, d) ≠ (a, b).

(** No directed cycle. *)
Definition Acyclic (H : list Pair) : Prop := ∀ v, ¬ tc (edge H) v v.

(** The cover pairs that [layoutHasse] links: those with both endpoints
    in the universe. *)
Definition insideCover (universe : list Elem) (covers : list Pair)
    (a b : Elem) : Prop :=
  (a, b) ∈ covers ∧ a ∈ universe ∧ b ∈ universe.

(** Every level given so far is the length of some walk along linked
    cover pairs that ends at the element. *)
Definition WalkLevels (universe : list Elem) (covers : list Pair)
    (levelMap : gmap string Z) : Prop :=
  ∀ u l, levelMap !! u = Some l →
         u ∈ universe ∧
         ∃ n v0, l = Z.of_nat n ∧ nsteps (insideCover universe covers) n v0 u.

(** No entry of the queue is followed by itself. *)
Fixpoint chained (queue : list Elem) : Prop :=
  match queue with
  | y :: rest => match rest with z :: _ => y ≠ z | [] => True end
                 ∧ chained rest
  | [] => True
  end.

(** No pair of [H] is implied by a path of length at least two through
    the other pairs of [H]. *)
Definition Irredundant (H : list Pair) : Prop :=
  ∀ a b, (a, b) ∈ H →
         ¬ ∃ c, tc (edgeBut H a b) a c ∧ tc (edgeBut H a b) c b.

(** *** Measures and invariants used in the proofs *)

(** Number of [|] characters. *)
Fixpoint bars (s : string) : nat :=
  match s with
  | EmptyString => 0
  | String c s' => (if Ascii.eqb c "|" then 1 else 0) + bars s'
  end.

(** The tests a pair passes to be pushed by [coversFromRelation]. *)
Definition keepCover (U : list Elem) (relSet : gset string) (p : Pair) : Prop :=
  p.1 ≠ p.2 ∧ p.1 ∈ U ∧ p.2 ∈ U ∧ isCover relSet p.1 p.2 U = true.

(** Pairs of [covers] whose source is not yet visited. *)
Definition pending (covers : list Pair) (visited : gset string) : nat :=
  length (filter (λ p, p.1 ∉ visited) covers).

(** The accumulators of the closure agree ([seen] holds the keys of
    [result]) and every recorded pair is a diagonal pair or a path of
    cover pairs, from a source in [U]. *)
Definition StateOk (U : list Elem) (covers : list Pair) (st : ClosureState)
  : Prop :=
  (∀ k, k ∈ seen st ↔ ∃ p, p ∈ result st ∧ pairKey p.1 p.2 = k) ∧
  (∀ p, p ∈ result st →
        p.1 ∈ U ∧ (p.1 = p.2 ∨ tc (edge covers) p.1 p.2)).

(** Invariant of the search from [a]. *)
Definition SearchInv (covers : list Pair) (a : Elem) (visited : gset string)
    (stack : list Elem) (st : ClosureState) : Prop :=
  (∀ v, v ∈ visited → tc (edge covers) a v) ∧
  (∀ v, v ∈ stack → tc (edge covers) a v) ∧
  (∀ u w, u ∈ visited → edge covers u w → w ∈ visited ∨ w ∈ stack) ∧
  (∀ w, edge covers a w → w ∈ visited ∨ w ∈ stack) ∧
  (∀ v, v ∈ visited → pairKey a v ∈ seen st).

(** Invariant of the worklist loop: every successor of an element that
    has a level and is not queued has at least the candidate level
    computed from it. *)
Definition Settled (succs : gmap string (list string)) (st : LevelState)
  : Prop :=
  ∀ v lv, st.1 !! v = Some lv → v ∉ st.2 →
          ∀ w, w ∈ default [] (succs !! v) →
               ∃ lw, st.1 !! w = Some lw ∧ (Number.fadd lv 1 ≤ lw)%Z.

(** *** The classification of the relation *)

(** [isPartialOrder] and [isEquivalence] of the page component. *)
Definition isPartialOrder (rp : RelationProps) : bool :=
  reflexive rp && transitive rp && antisymmetric rp.

Definition isEquivalence (rp : RelationProps) : bool :=
  reflexive rp && transitive rp && symmetric rp.

(** The properties of a relation given as a list of pairs. *)
Definition ReflexiveOn (U : list Elem) (R : list Pair) : Prop :=
  ∀ x, x ∈ U → (x, x) ∈ R.

Definition SymmetricRel (R : list Pair) : Prop :=
  ∀ a b, (a, b) ∈ R → (b, a) ∈ R.

Definition AntisymmetricRel (R : list Pair) : Prop :=
  ∀ a b, (a, b) ∈ R → (b, a) ∈ R → a = b.

Definition TransitiveRel (R : list Pair) : Prop :=
  ∀ a b c, (a, b) ∈ R → (b, c) ∈ R → (a, c) ∈ R.

(** Both components of every pair contain no [|] character. *)
Definition pairsBarFree (R : list Pair) : bool :=
  forallb (λ p : Pair, barFree p.1 && barFree p.2) R.

(** The keys of the recorded pairs are the seen keys and are pairwise
    distinct. *)
Definition KeysDistinct (st : ClosureState) : Prop :=
  (∀ k, k ∈ seen st ↔ k ∈ (λ p : Pair, pairKey p.1 p.2) <$> result st) ∧
  NoDup ((λ p : Pair, pairKey p.1 p.2) <$> result st).

(** The level of an element, -1 while it has none, and the room left
    below the bound [N] summed over the universe: the quantity that the
    worklist loop of [layoutHasse] uses up on ranked input. *)
Definition levelOr (levelMap : gmap string Z) (u : Elem) : Z :=
  default (-1)%Z (levelMap !! u).

Definition room (N : Z) (universe : list Elem) (levelMap : gmap string Z) : Z :=
  fold_right (λ u acc, (N + 1 - levelOr levelMap u + acc)%Z) 0%Z universe.

(** An iteration budget that suffices when every rank is at most [N]. *)
Definition rankedBudget (N : Z) (universe : list Elem) : nat :=
  Z.to_nat (2 * (Z.of_nat (length universe) * (N + 2))
            + Z.of_nat (length universe) + 2).

(** On ranked input the levels stay between 0 and the rank, and queued
    elements have a level. *)
Definition RankedInv (universe : list Elem) (rank : Elem → Z)
    (st : LevelState) : Prop :=
  (∀ u l, st.1 !! u = Some l → u ∈ universe ∧ (0 ≤ l ≤ rank u)%Z) ∧
  (∀ v, v ∈ st.2 → is_Some (st.1 !! v)).

Definition budgetOf (N : Z) (universe : list Elem) (st : LevelState) : Z :=
  (2 * room N universe st.1 + Z.of_nat (length st.2))%Z.


(** An element is minimal when no element of the universe is below it
    in the cover list. *)
Definition MinimalIn (universe : list Elem) (covers : list Pair)
    (u : Elem) : Prop :=
  ∀ x, x ∈ universe → (x, u) ∉ covers.

(** What every level map built by [layoutHasse] satisfies: levels are
    given to elements of the universe only, are never negative, and are 0
    on minimal elements. *)
Definition LevelsOk (universe : list Elem) (covers : list Pair)
    (levelMap : gmap string Z) : Prop :=
  ∀ u l, levelMap !! u = Some l →
         u ∈ universe ∧ (0 ≤ l)%Z ∧ (MinimalIn universe covers u → l = 0%Z).

End Relations.

(** * The relation and adjacency matrices (matrix.tsx) *)

Module Matrix.
Import Relations.

(** [new Map(Uarr.map((e, i) => [e, i]))]: the entries are set in order,
    so a later entry with the same key replaces an earlier one. *)
Definition indexMap (Uarr : list Elem) : gmap string nat :=
  fold_left (λ m (p : Elem * nat), <[p.1 := p.2]> m)
            (imap (λ i e, (e, i)) Uarr) ∅.

(** The body of [for (const [a, b] of pairs)]. *)
Definition markPair (idx : gmap string nat) (M : list (list Z)) (p : Pair)
  : list (list Z) :=
  match idx !! p.1, idx !! p.2 with
  | Some i, Some j => Modular.setEntry i j 1%Z M
  | _, _ => M
  end.

Definition buildRelationMatrix (Uarr : list Elem) (pairs : list Pair)
  : list (list Z) :=
  let n := length Uarr in
  let idx := indexMap Uarr in
  fold_left (markPair idx) pairs (replicate n (replicate n 0%Z)).

Definition buildAdjacencyMatrix (Uarr : list Elem) (covers : list Pair)
  : list (list Z) :=
  let n := length Uarr in
  let idx := indexMap Uarr in
  fold_left (markPair idx) covers (replicate n (replicate n 0%Z)).

(** Some pair of the list is sent to cell (i, j) by the index map. *)
Definition Hit (idx : gmap string nat) (pairs : list Pair) (i j : nat)
  : Prop :=
  ∃ a b, (a, b) ∈ pairs ∧ idx !! a = Some i ∧ idx !! b = Some j.

(** The cells of an n x n array hold 1 exactly where [P] holds and 0
    elsewhere. *)
Definition Marks (n : nat) (P : nat → nat → Prop) (M : list (list Z))
  : Prop :=
  Modular.Rect n M ∧
  ∀ i j, i < n → j < n →
         (Modular.entry M i j = Some 1%Z ∧ P i j) ∨
         (Modular.entry M i j = Some 0%Z ∧ ¬ P i j).

End Matrix.

(** * Minimal, maximal, least and greatest elements (maximominimo.tsx) *)

Module Extrema.
Import Relations.

(** [const leq = (a, b) => relSet.has(pairKey(a, b))]. *)
Definition leq (relSet : gset string) (a b : Elem) : bool :=
  bool_decide (pairKey a b ∈ relSet).

(** [arr.some((y) => y !== x && leq(y, x))] and its dual. *)
Definition hasSmaller (relSet : gset string) (arr : list Elem) (x : Elem)
  : bool :=
  existsb (λ y, negb (String.eqb y x) && leq relSet y x) arr.

Definition hasGreater (relSet : gset string) (arr : list Elem) (x : Elem)
  : bool :=
  existsb (λ y, negb (String.eqb y x) && leq relSet x y) arr.

Record ExtremaResult : Type := {
  minimals : list Elem;
  maximals : list Elem;
  minimum : option Elem;
  maximum : option Elem
}.

(** The body of [for (const x of arr)]. *)
Definition classify (relSet : gset string) (arr : list Elem)
    (st : list Elem * list Elem) (x : Elem) : list Elem * list Elem :=
  (if negb (hasSmaller relSet arr x) then st.1 ++ [x] else st.1,
   if negb (hasGreater relSet arr x) then st.2 ++ [x] else st.2).

(** The set [U] is given by its elements in insertion order. *)
Definition computeExtremaByR (U : list Elem) (relSet : gset string)
  : ExtremaResult :=
  let arr := U in
  let mm := fold_left (classify relSet arr) arr ([], []) in
  {| minimals := mm.1;
     maximals := mm.2;
     minimum := find (λ m, forallb (λ y, leq relSet m y) arr) mm.1;
     maximum := find (λ M, forallb (λ y, leq relSet y M) arr) mm.2 |}.

Definition computeExtremaByClosure (U : list Elem) (closure : gset string)
  : ExtremaResult :=
  let arr := U in
  let mm := fold_left (classify closure arr) arr ([], []) in
  {| minimals := mm.1;
     maximals := mm.2;
     minimum := find (λ m, forallb (λ y, leq closure m y) arr) mm.1;
     maximum := find (λ M, forallb (λ y, leq closure y M) arr) mm.2 |}.

(** [if (!preds.has(b) || !succs.has(a)) continue; ...] of
    [computeMinMaxByHasse]: the guard asks the maps for their keys. *)
Definition linkCoverKeys
    (ps : gmap string (list string) * gmap string (list string)) (p : Pair)
  : gmap string (list string) * gmap string (list string) :=
  if negb (bool_decide (is_Some (ps.1 !! p.2)))
     || negb (bool_decide (is_Some (ps.2 !! p.1)))
  then ps
  else (alter (setAdd p.1) p.2 ps.1, alter (setAdd p.2) p.1 ps.2).

(** The body of the last loop: [(preds.get(u)?.size ?? 0) === 0]. *)
Definition classifyByDegree
    (ps : gmap string (list string) * gmap string (list string))
    (st : list Elem * list Elem) (u : Elem) : list Elem * list Elem :=
  (if (length (default [] (ps.1 !! u)) =? 0)%nat then st.1 ++ [u] else st.1,
   if (length (default [] (ps.2 !! u)) =? 0)%nat then st.2 ++ [u] else st.2).

Definition computeMinMaxByHasse (universe : list Elem) (covers : list Pair)
  : list Elem * list Elem :=
  let ps := fold_left linkCoverKeys covers
                      (emptySets universe, emptySets universe) in
  fold_left (classifyByDegree ps) universe ([], []).

(** *** closureFromRelation *)

(** [for (const u of U) adj.set(u, new Set([u]))]. *)
Definition selfLoops (U : list Elem) : gmap string (list string) :=
  fold_left (λ m u, <[u := [u]]> m) U ∅.

(** The body of [for (const [a, b] of relPairs)], with its guard
    [U.has(a) && U.has(b)]. *)
Definition adjAdd (U : list Elem) (adj : gmap string (list string))
    (p : Pair) : gmap string (list string) :=
  if bool_decide (p.1 ∈ U) && bool_decide (p.2 ∈ U) then
    let adj1 := match adj !! p.1 with
                | None => <[p.1 := []]> adj
                | Some _ => adj
                end in
    alter (setAdd p.2) p.1 adj1
  else adj.

Definition reflexiveAdj (U : list Elem) (relPairs : list Pair)
  : gmap string (list string) :=
  fold_left (adjAdd U) relPairs (selfLoops U).

(** The [while (stack.length)] loop for the source [a]; the top of the
    stack is the head of the list, and [None] means that the iteration
    budget ran out. *)
Fixpoint reachFrom (fuel : nat) (adj : gmap string (list string)) (a : Elem)
    (seen : gset string) (stack : list Elem) (reach : gset string)
    {struct fuel} : option (gset string) :=
  match stack with
  | [] => Some reach
  | v :: stack' =>
      match fuel with
      | O => None
      | S fuel' =>
          if decide (v ∈ seen) then reachFrom fuel' adj a seen stack' reach
          else
            let seen' := {[v]} ∪ seen in
            reachFrom fuel' adj a seen'
                      (pushUnvisited seen' stack' (default [] (adj !! v)))
                      ({[pairKey a v]} ∪ reach)
      end
  end.

(** One round of [for (const a of U)]. *)
Definition reachRound (fuel : nat) (adj : gmap string (list string))
    (acc : option (gset string)) (a : Elem) : option (gset string) :=
  match acc with
  | None => None
  | Some reach =>
      reachFrom fuel adj a ∅ (rev (default [] (adj !! a))) reach
  end.

(** Every search pops at most twice as many entries as the adjacency
    sets hold (see [closureFromRelation_spec]), so this budget is never
    exhausted. *)
Definition closureFromRelation (U : list Elem) (relPairs : list Pair)
  : option (gset string) :=
  fold_left
    (reachRound (S (2 * (length U + length relPairs)))
                (reflexiveAdj U relPairs))
    U (Some ∅).

(** The adjacency sets of the elements of [U], as a list of pairs. *)
Definition adjEdges (U : list Elem) (adj : gmap string (list string))
  : list Pair :=
  flat_map (λ u, (λ w, (u, w)) <$> default [] (adj !! u)) U.

(** A pair of the relation with both endpoints in [U]. *)
Definition inside (U : list Elem) (relPairs : list Pair) (x y : Elem)
  : Prop :=
  (x, y) ∈ relPairs ∧ x ∈ U ∧ y ∈ U.

End Extrema.

(** * The set calculator of the page component *)

Module SetOps.
Import Relations.

(** A JavaScript [Set] is given by its elements in insertion order;
    [Set.prototype.has]. *)
Definition has (s : list Elem) (x : Elem) : bool := bool_decide (x ∈ s).

(** [new Set(arr)]: the elements are added one by one. *)
Definition toSet (arr : list Elem) : list Elem :=
  fold_left (λ s x, setAdd x s) arr [].

(** [Array.from(new Set(arr))]. *)
Definition uniq (arr : list Elem) : list Elem := toSet arr.

Definition intersection (a b : list Elem) : list Elem :=
  fold_left (λ out x, if has b x then setAdd x out else out) a [].

Definition union (a b : list Elem) : list Elem :=
  fold_left (λ out x, setAdd x out) b (toSet a).

Definition difference (a b : list Elem) : list Elem :=
  fold_left (λ out x, if negb (has b x) then setAdd x out else out) a [].

Definition equals (a b : list Elem) : bool :=
  if negb (length a =? length b)%nat then false else forallb (has b) a.

(** The two De Morgan checks of the page. *)
Definition demorgan1_ok (U A B : list Elem) : bool :=
  equals (difference U (union A B))
         (intersection (difference U A) (difference U B)).

Definition demorgan2_ok (U A B : list Elem) : bool :=
  equals (difference U (intersection A B))
         (union (difference U A) (difference U B)).

(** The regions of the Venn diagram. *)
Record Buckets : Type := {
  outside : list Elem;
  onlyA : list Elem;
  onlyB : list Elem;
  onlyC : list Elem;
  AandB : list Elem;
  AandC : list Elem;
  BandC : list Elem;
  AandBandC : list Elem
}.

(** The body of [U.forEach((x) => ...)]. *)
Definition place (A B C : list Elem) (b : Buckets) (x : Elem) : Buckets :=
  let a := has A x in
  let bb := has B x in
  let c := has C x in
  let sum := ((if a then 1 else 0) + (if bb then 1 else 0)
              + (if c then 1 else 0))%nat in
  if (sum =? 0)%nat then
    {| outside := outside b ++ [x]; onlyA := onlyA b; onlyB := onlyB b;
       onlyC := onlyC b; AandB := AandB b; AandC := AandC b;
       BandC := BandC b; AandBandC := AandBandC b |}
  else if (sum =? 3)%nat then
    {| outside := outside b; onlyA := onlyA b; onlyB := onlyB b;
       onlyC := onlyC b; AandB := AandB b; AandC := AandC b;
       BandC := BandC b; AandBandC := AandBandC b ++ [x] |}
  else if a && bb then
    {| outside := outside b; onlyA := onlyA b; onlyB := onlyB b;
       onlyC := onlyC b; AandB := AandB b ++ [x]; AandC := AandC b;
       BandC := BandC b; AandBandC := AandBandC b |}
  else if a && c then
    {| outside := outside b; onlyA := onlyA b; onlyB := onlyB b;
       onlyC := onlyC b; AandB := AandB b; AandC := AandC b ++ [x];
       BandC := BandC b; AandBandC := AandBandC b |}
  else if bb && c then
    {| outside := outside b; onlyA := onlyA b; onlyB := onlyB b;
       onlyC := onlyC b; AandB := AandB b; AandC := AandC b;
       BandC := BandC b ++ [x]; AandBandC := AandBandC b |}
  else if a then
    {| outside := outside b; onlyA := onlyA b ++ [x]; onlyB := onlyB b;
       onlyC := onlyC b; AandB := AandB b; AandC := AandC b;
       BandC := BandC b; AandBandC := AandBandC b |}
  else if bb then
    {| outside := outside b; onlyA := onlyA b; onlyB := onlyB b ++ [x];
       onlyC := onlyC b; AandB := AandB b; AandC := AandC b;
       BandC := BandC b; AandBandC := AandBandC b |}
  else if c then
    {| outside := outside b; onlyA := onlyA b; onlyB := onlyB b;
       onlyC := onlyC b ++ [x]; AandB := AandB b; AandC := AandC b;
       BandC := BandC b; AandBandC := AandBandC b |}
  else b.

Definition bucketize (U A B C : list Elem) : Buckets :=
  fold_left (place A B C) U
    {| outside := []; onlyA := []; onlyB := []; onlyC := []; AandB := [];
       AandC := []; BandC := []; AandBandC := [] |}.

End SetOps.

Module NumberFacts.
Import Number.
Local Open Scope Z_scope.

(** Integers of magnitude up to 2^53 are numbers: rounding leaves them
    as they are. *)
Lemma rnd_exact (z : Z) : Z.abs z <= 2 ^ 53 -> rnd z = z.
Proof.
  intros Hz. unfold rnd.
  destruct (Z.leb_spec (Z.abs z) (2 ^ 53)); [reflexivity | lia].
Qed.

Lemma fmul_exact (x y : Z) : Z.abs (x * y) <= 2 ^ 53 -> fmul x y = x * y.
Proof. apply rnd_exact. Qed.

Lemma fadd_exact (x y : Z) : Z.abs (x + y) <= 2 ^ 53 -> fadd x y = x + y.
Proof. apply rnd_exact. Qed.

(** Beyond 2^53 the rounding is visible: the values of the products below
    are those of binary64 arithmetic. *)
Example fmul_rounds_down : fmul 505 100000000000001 = 50500000000000504.
Proof. vm_compute. reflexivity. Qed.

Example fmul_rounds_square : fmul 94906267 94906267 = 9007199515875288.
Proof. vm_compute. reflexivity. Qed.

Example fadd_saturates : fadd (2 ^ 53) 1 = 2 ^ 53.
Proof. vm_compute. reflexivity. Qed.

(** Rounding keeps the sign of a non-negative integer. *)
Lemma rnd_nonneg (z : Z) : 0 <= z -> 0 <= rnd z.
Proof.
  intros Hz. unfold rnd.
  destruct (Z.leb_spec (Z.abs z) (2 ^ 53)) as [|Hbig]; [assumption|].
  rewrite Z.abs_eq in * by assumption.
  assert (Hlog : 53 <= Z.log2 z).
  { apply Z.log2_le_pow2; lia. }
  assert (0 < 2 ^ (Z.log2 z - 52)) by (apply Z.pow_pos_nonneg; lia).
  assert (0 <= z / 2 ^ (Z.log2 z - 52)) by (apply Z.div_pos; lia).
  rewrite Z.sgn_pos by lia.
  destruct (_ || _); nia.
Qed.

(** Counting up by one is exact below 2^53 and stays at 2^53 once it is
    reached: 2^53 + 1 is no number, and rounds back to 2^53. *)
Lemma fadd_level (l : Z) :
  0 <= l <= 2 ^ 53 -> fadd l 1 = Z.min (l + 1) (2 ^ 53).
Proof.
  intros Hl. destruct (Z.eq_dec l (2 ^ 53)) as [->|Hne].
  - vm_compute. reflexivity.
  - rewrite fadd_exact by lia. lia.
Qed.

End NumberFacts.

Module ModularFacts.
Import Number NumberFacts Modular.
Local Open Scope Z_scope.

(** The worked examples of the specification. *)
Example modInv_7_12 : modInv 7 12 = Some 7.
Proof. reflexivity. Qed.

Example solve_4_6_8 : hasSolution (solveLinearCongruence 4 6 8) = false.
Proof. reflexivity. Qed.

Example solve_4_4_8 :
  solveLinearCongruence 4 4 8
  = {| hasSolution := true; x0 := Some 1; mod_ := Some 2 |}.
Proof. vm_compute. reflexivity. Qed.

Lemma rem_as_sub (a b : Z) : a - Z.quot a b * b = Z.rem a b.
Proof. pose proof (Z.quot_rem' a b). lia. Qed.

(** Loop invariant of [egcd]: both running remainders are integer
    combinations of the two inputs [A] and [B]. *)
Lemma egcd_loop_spec (A B a b x0 y0 x1 y1 : Z) :
  a = A * x0 + B * y0 ->
  b = A * x1 + B * y1 ->
  g (egcd_loop a b x0 y0 x1 y1) = Z.gcd a b /\
  Z.abs (A * x (egcd_loop a b x0 y0 x1 y1) + B * y (egcd_loop a b x0 y0 x1 y1))
    = g (egcd_loop a b x0 y0 x1 y1) /\
  (0 <= a -> 0 <= b ->
   A * x (egcd_loop a b x0 y0 x1 y1) + B * y (egcd_loop a b x0 y0 x1 y1)
     = g (egcd_loop a b x0 y0 x1 y1)).
Proof.
  funelim (egcd_loop a b x0 y0 x1 y1); intros Ha Hb.
  - subst b. cbn. rewrite Z.gcd_0_r. repeat split; lia.
  - cbn zeta in *.
    match goal with
    | IH : forall _ _ : Z, _ -> _ |- _ =>
        destruct (IH A B) as (Hg & Habs & Hpos); [lia | lia |]
    end.
    rewrite Hg. repeat split.
    + rewrite rem_as_sub, Z.gcd_comm, Z.gcd_rem by assumption. apply Z.gcd_comm.
    + rewrite <- Hg. exact Habs.
    + intros H0a H0b. rewrite <- Hg. apply Hpos; [assumption |].
      rewrite rem_as_sub. apply Z.rem_nonneg; lia.
Qed.

Lemma egcd_g (a b : Z) : g (egcd a b) = Z.gcd a b.
Proof. unfold egcd. apply (egcd_loop_spec a b); lia. Qed.

Lemma egcd_bezout_abs (a b : Z) :
  Z.abs (a * x (egcd a b) + b * y (egcd a b)) = g (egcd a b).
Proof. unfold egcd. apply (egcd_loop_spec a b); lia. Qed.

Lemma egcd_bezout_nonneg (a b : Z) :
  0 <= a -> 0 <= b -> a * x (egcd a b) + b * y (egcd a b) = g (egcd a b).
Proof. unfold egcd. apply (egcd_loop_spec a b); lia. Qed.

Lemma modNorm_pos (a m : Z) : 0 < m -> modNorm a m = a mod m.
Proof.
  intros Hm. unfold modNorm.
  destruct (Z.eqb_spec m 0) as [?|_]; [lia|].
  pose proof (Z.quot_rem' a m) as Hqr.
  destruct (Z.ltb_spec (Z.rem a m) 0) as [Hneg|Hpos].
  - pose proof (Z.rem_bound_abs a m ltac:(lia)).
    apply (Z.mod_unique_pos a m (Z.quot a m - 1)); lia.
  - pose proof (Z.rem_bound_abs a m ltac:(lia)).
    apply (Z.mod_unique_pos a m (Z.quot a m)); lia.
Qed.

Lemma modInv_None_iff (a m : Z) : modInv a m = None <-> Z.gcd a m <> 1.
Proof.
  unfold modInv. rewrite egcd_g.
  destruct (Z.eqb_spec (Z.gcd a m) 1); cbn; split; intros; congruence.
Qed.

Lemma modInv_Some (a m i : Z) :
  modInv a m = Some i -> Z.gcd a m = 1 /\ i = modNorm (x (egcd a m)) m.
Proof.
  unfold modInv. rewrite egcd_g.
  destruct (Z.eqb_spec (Z.gcd a m) 1); cbn; intros; split; congruence.
Qed.

Lemma modInv_range (a n i : Z) : 1 <= n -> modInv a n = Some i -> 0 <= i < n.
Proof.
  intros Hn Hi. apply modInv_Some in Hi as [_ ->].
  rewrite modNorm_pos by lia. apply Z.mod_pos_bound. lia.
Qed.

Lemma modInv_nonneg_correct (a n i : Z) :
  0 <= a -> 1 <= n -> modInv a n = Some i -> (a * i) mod n = 1 mod n.
Proof.
  intros Ha Hn Hi. apply modInv_Some in Hi as [Hg ->].
  rewrite modNorm_pos by lia.
  pose proof (egcd_bezout_nonneg a n Ha ltac:(lia)) as Hbz.
  rewrite egcd_g, Hg in Hbz.
  rewrite Z.mul_mod_idemp_r by lia.
  replace (a * x (egcd a n)) with (1 + (- y (egcd a n)) * n) by lia.
  apply Z.mod_add. lia.
Qed.

Lemma quot_exact (a d : Z) : d <> 0 -> (d | a) -> Z.quot a d = a / d.
Proof. intros Hd [k ->]. now rewrite Z.quot_mul, Z.div_mul. Qed.

(** Past the divisibility test the reduced coefficient [a1] is coprime
    to the reduced modulus [m1], so the second [hasSolution: false]
    exit is never taken, and the base solution solves the congruence. *)
Lemma solve_reduced (a1 b1 m1 d : Z) :
  0 < d -> 0 < m1 -> Z.gcd a1 m1 = 1 ->
  exists inv,
    modInv (modNorm a1 m1) (Z.abs m1) = Some inv /\
    (a1 * d * modNorm (inv * b1) (Z.abs m1) - b1 * d) mod (m1 * d) = 0.
Proof.
  intros Hd Hm1 Hrel.
  rewrite (Z.abs_eq m1) by lia.
  rewrite (modNorm_pos a1 m1) by lia.
  destruct (modInv (a1 mod m1) m1) as [inv|] eqn:Hinv.
  - exists inv. split; [reflexivity|].
    rewrite modNorm_pos by lia.
    pose proof (modInv_nonneg_correct (a1 mod m1) m1 inv
                  ltac:(apply Z.mod_pos_bound; lia) ltac:(lia) Hinv) as Hone.
    rewrite Z.mul_mod_idemp_l in Hone by lia.
    assert (Hx : (a1 * ((inv * b1) mod m1) - b1) mod m1 = 0).
    { rewrite Zminus_mod, Z.mul_mod_idemp_r by lia.
      replace (a1 * (inv * b1)) with ((a1 * inv) * b1) by lia.
      rewrite <- (Z.mul_mod_idemp_l (a1 * inv)), Hone by lia.
      rewrite Z.mul_mod_idemp_l, Z.mul_1_l, <- Zminus_mod by lia.
      now rewrite Z.sub_diag, Z.mod_0_l by lia. }
    apply Z.mod_divide in Hx as [k Hk]; [|lia].
    replace (a1 * d * ((inv * b1) mod m1) - b1 * d)
      with (k * (m1 * d)) by nia.
    apply Z.mod_mul. nia.
  - exfalso. apply modInv_None_iff in Hinv.
    apply Hinv. rewrite Z.gcd_mod_l. exact Hrel.
Qed.

(** C4 (defect): on the input pair (-1, 3), which [modInv (-1) 3]
    passes to [egcd], the loop ends with the running remainder -1; the
    result carries [g = 1] (the magnitude) with coefficients [x = 1],
    [y = 0] left unchanged, so [a*x + b*y] is -1 and the Bezout
    identity [g = a*x + b*y] fails. *)
Theorem egcd_bezout_fails_on_negative :
  egcd (-1) 3 = {| g := 1; x := 1; y := 0 |} /\
  g (egcd (-1) 3) <> (-1) * x (egcd (-1) 3) + 3 * y (egcd (-1) 3).
Proof. split; [reflexivity | vm_compute; discriminate]. Qed.

(** What [egcd] does guarantee on every input: [g] is the non-negative
    greatest common divisor and the Bezout combination has magnitude [g];
    on non-negative inputs the identity holds exactly. *)
Lemma egcd_spec_general (a b : Z) :
  g (egcd a b) = Z.gcd a b /\ 0 <= g (egcd a b) /\
  Z.abs (a * x (egcd a b) + b * y (egcd a b)) = g (egcd a b) /\
  (0 <= a -> 0 <= b -> a * x (egcd a b) + b * y (egcd a b) = g (egcd a b)).
Proof.
  repeat split.
  - apply egcd_g.
  - rewrite egcd_g. apply Z.gcd_nonneg.
  - apply egcd_bezout_abs.
  - apply egcd_bezout_nonneg.
Qed.

(** C3, as stated, fails at modulus 1: [modInv 1 1] is the non-null
    value 0, and [modNorm (1 * 0) 1] is 0, not 1. *)
Lemma modInv_product_not_one_mod_1 :
  modInv 1 1 = Some 0 /\ modNorm (1 * 0) 1 <> 1.
Proof. split; [reflexivity | vm_compute; discriminate]. Qed.

(** The same product test also fails for a negative argument, through
    the sign defect of [egcd]: [modInv (-1) 3] is 1 although
    (-1) * 1 is 2 modulo 3. *)
Lemma modInv_negative_wrong :
  modInv (-1) 3 = Some 1 /\ modNorm ((-1) * 1) 3 = 2.
Proof. split; reflexivity. Qed.

(** C3 (amended): for every number [a] of magnitude below 2^53 and
    every modulus [1 <= n < 2^53], [modInv a n] is null exactly when
    [egcd (|a|) n] has [g <> 1], and that [g] is the greatest common
    divisor of [a] and [n]; a non-null inverse lies in [0, n), and for
    [a >= 0] the integer product [a * modInv a n] is congruent to 1
    modulo [n] (its residue is 1 for [n >= 2] and 0 for [n = 1]). *)
Theorem modInv_spec (a n : Z) :
  Z.abs a < 2 ^ 53 -> 1 <= n < 2 ^ 53 ->
  (modInv a n = None <-> g (egcd (Z.abs a) n) <> 1) /\
  g (egcd (Z.abs a) n) = Z.gcd a n /\
  (forall i, modInv a n = Some i ->
     0 <= i < n /\
     (0 <= a -> (a * i) mod n = 1 mod n)).
Proof.
  intros _ Hn. split; [|split].
  - rewrite modInv_None_iff, egcd_g, Z.gcd_abs_l. reflexivity.
  - rewrite egcd_g. apply Z.gcd_abs_l.
  - intros i Hi. split.
    + apply (modInv_range a); [lia | assumption].
    + intros Ha. apply modInv_nonneg_correct; [assumption | lia | assumption].
Qed.

Lemma modInv_spec_witness :
  (modInv 7 12 = None <-> g (egcd (Z.abs 7) 12) <> 1) /\
  g (egcd (Z.abs 7) 12) = Z.gcd 7 12 /\
  (forall i, modInv 7 12 = Some i ->
     0 <= i < 12 /\ (0 <= 7 -> (7 * i) mod 12 = 1 mod 12)).
Proof. apply (modInv_spec 7 12); lia. Defined.




(** *** Further properties of the modular functions *)

(** X1. For numbers [a] and [m] of magnitude below 2^53, with [m]
    non-zero of either sign, [modNorm] is the residue of [a] modulo
    |m|: it lies in [0, |m|) and differs from [a] by a multiple of
    [m]. *)
Theorem modNorm_is_residue (a m : Z) :
  Z.abs a < 2 ^ 53 -> Z.abs m < 2 ^ 53 ->
  m <> 0 -> modNorm a m = a mod Z.abs m.
Proof.
  intros _ _ Hm. unfold modNorm.
  destruct (Z.eqb_spec m 0) as [?|_]; [contradiction|].
  pose proof (Z.quot_rem' a (Z.abs m)) as Hqr.
  rewrite Z.rem_abs_r in Hqr by assumption.
  pose proof (Z.rem_bound_abs a m Hm) as Hb.
  destruct (Z.ltb_spec (Z.rem a m) 0) as [Hneg|Hpos].
  - apply (Z.mod_unique_pos a (Z.abs m) (Z.quot a (Z.abs m) - 1)); lia.
  - apply (Z.mod_unique_pos a (Z.abs m) (Z.quot a (Z.abs m))); lia.
Qed.

Lemma modNorm_is_residue_witness : modNorm (-7) (-5) = (-7) mod Z.abs (-5).
Proof. apply (modNorm_is_residue (-7) (-5)); lia. Defined.

Lemma toInt32_small (e : Z) : - 2 ^ 31 <= e < 2 ^ 31 -> toInt32 e = e.
Proof. intros He. unfold toInt32. rewrite Z.mod_small by lia. lia. Qed.

Lemma land_1 (e : Z) : Z.land e 1 = e mod 2.
Proof. change 1 with (Z.ones 1). now rewrite Z.land_ones by lia. Qed.

(** Invariant of the square-and-multiply loop for exponents in the
    32-bit range and a modulus whose residues have products of at most
    2^53, so that no product is rounded. *)
Lemma powMod_loop_spec (res b e m : Z) :
  1 <= m -> (m - 1) * (m - 1) <= 2 ^ 53 ->
  0 <= e < 2 ^ 31 -> 0 <= res < m -> 0 <= b < m ->
  powMod_loop res b e m = (res * b ^ e) mod m.
Proof.
  intros Hm Hsq. funelim (powMod_loop res b e m); intros He Hres Hb.
  - assert (Hrb : fmul res b = res * b).
    { apply fmul_exact. rewrite Z.abs_eq by nia. nia. }
    assert (Hbb : fmul b b = b * b).
    { apply fmul_exact. rewrite Z.abs_eq by nia. nia. }
    rewrite Hrb, Hbb in *.
    match goal with
    | IH : _ -> _ -> _ -> _ -> _ -> _ = _ |- _ => rewrite IH; clear IH
    end.
    + rewrite toInt32_small by lia. rewrite land_1.
      rewrite Z.shiftr_div_pow2 by lia. change (2 ^ 1) with 2.
      rewrite (modNorm_pos (b * b) m) by lia.
      pose proof (Z.div_mod e 2 ltac:(lia)) as Hdm.
      pose proof (Z.mod_pos_bound e 2 ltac:(lia)) as Hmb.
      assert (He2 : 0 <= e / 2) by (apply Z.div_pos; lia).
      assert (Hpow : b ^ e = (b * b) ^ (e / 2) * b ^ (e mod 2)).
      { rewrite Hdm at 1. rewrite Z.pow_add_r by lia.
        rewrite Z.pow_mul_r by lia. now rewrite Z.pow_2_r. }
      rewrite Hpow.
      assert (Hsqm : ((b * b) mod m) ^ (e / 2) mod m
                     = (b * b) ^ (e / 2) mod m).
      { rewrite <- Zpower_mod by lia. reflexivity. }
      destruct (Z.eqb_spec (e mod 2) 0) as [E0|E1]; cbn [negb].
      * rewrite E0, Z.pow_0_r, Z.mul_1_r.
        rewrite <- Z.mul_mod_idemp_r, Hsqm, Z.mul_mod_idemp_r by lia.
        reflexivity.
      * assert (E : e mod 2 = 1) by lia. rewrite E, Z.pow_1_r.
        rewrite modNorm_pos by lia.
        rewrite Z.mul_mod_idemp_l by lia.
        rewrite <- Z.mul_mod_idemp_r, Hsqm, Z.mul_mod_idemp_r by lia.
        f_equal. lia.
    + assumption.
    + assumption.
    + rewrite toInt32_small by lia.
      rewrite Z.shiftr_div_pow2 by lia. change (2 ^ 1) with 2.
      split; [apply Z.div_pos; lia|].
      apply Z.div_lt_upper_bound; lia.
    + destruct (negb _); [|assumption].
      rewrite modNorm_pos by lia. apply Z.mod_pos_bound. lia.
    + rewrite modNorm_pos by lia. apply Z.mod_pos_bound. lia.
  - assert (e = 0) by lia. subst e.
    rewrite Z.pow_0_r, Z.mul_1_r. symmetry. apply Z.mod_small. assumption.
Qed.

Lemma rem_1 (m : Z) : 1 <= m -> Z.rem 1 (if m =? 0 then 1 else m) = 1 mod m.
Proof.
  intros Hm. destruct (Z.eqb_spec m 0) as [?|_]; [lia|].
  apply Z.rem_mod_nonneg; lia.
Qed.

(** X3. Where the squares exceed 2^53 the loop does not compute the
    power: 94906267^2 is 1 modulo 94906268, but the square is rounded
    to an even number first, and [powMod] returns 0. *)
Example powMod_rounded_square :
  powMod 94906267 2 94906268 = 0 /\ (94906267 ^ 2) mod 94906268 = 1.
Proof. split; vm_compute; reflexivity. Qed.

(** X2. For a base of magnitude below 2^53, a modulus [m >= 1] with
    [(m - 1)^2 <= 2^53] (that is [m <= 94906266], so that no product of
    two residues is rounded) and an exponent in [0, 2^31), [powMod] is
    the power reduced modulo [m]; in particular the exponent 0 gives
    [1 mod m] (1, or 0 when [m = 1]). *)
Theorem powMod_spec (base e m : Z) :
  Z.abs base < 2 ^ 53 ->
  1 <= m -> (m - 1) * (m - 1) <= 2 ^ 53 -> 0 <= e < 2 ^ 31 ->
  powMod base e m = (base ^ e) mod m.
Proof.
  intros _ Hm Hsq He. unfold powMod. rewrite rem_1 by assumption.
  rewrite modNorm_pos by lia.
  rewrite powMod_loop_spec;
    [| assumption | assumption | assumption
     | apply Z.mod_pos_bound; lia | apply Z.mod_pos_bound; lia].
  rewrite Z.mul_mod_idemp_l by lia. rewrite Z.mul_1_l.
  symmetry. apply Zpower_mod. lia.
Qed.

Lemma powMod_spec_witness : powMod 7 13 12 = (7 ^ 13) mod 12.
Proof. apply (powMod_spec 7 13 12); lia. Defined.

(** X4. For a base of magnitude below 2^53 and a modulus
    [1 <= m < 2^53], an exponent in [2^31, 2^32) becomes negative under
    the 32-bit conversion of [>>=], so the loop runs once: only the
    parity of the exponent is used, and the result is [base mod m] or
    [1 mod m], not the power. *)
Theorem powMod_exponent_beyond_int32 (base e m : Z) :
  Z.abs base < 2 ^ 53 -> 1 <= m < 2 ^ 53 -> 2 ^ 31 <= e < 2 ^ 32 ->
  powMod base e m = if Z.odd e then base mod m else 1 mod m.
Proof.
  intros _ Hm He. unfold powMod. rewrite rem_1 by lia.
  assert (Ht : toInt32 e = e - 2 ^ 32).
  { unfold toInt32.
    replace (e + 2 ^ 31) with (e - 2 ^ 31 + 1 * 2 ^ 32) by lia.
    rewrite Z.mod_add by lia. rewrite Z.mod_small by lia. lia. }
  rewrite powMod_loop_equation_1.
  destruct (Z_lt_dec 0 e) as [He0|?]; [|lia]. cbn.
  rewrite powMod_loop_equation_1.
  destruct (Z_lt_dec 0 (Z.shiftr (toInt32 e) 1)) as [Hpos|Hneg]; cbn.
  { exfalso. clear He0. rewrite Ht, Z.shiftr_div_pow2 in Hpos by lia.
    assert ((e - 2 ^ 32) / 2 ^ 1 < 0); [|lia].
    apply Z.div_lt_upper_bound; lia. }
  rewrite Ht, land_1.
  replace (e - 2 ^ 32) with (e + (- 2 ^ 31) * 2) by lia.
  rewrite Z.mod_add by lia.
  rewrite (Zmod_odd e).
  destruct (Z.odd e); cbn.
  - rewrite (modNorm_pos base m) by lia.
    assert (H1 : 0 <= 1 mod m <= 1).
    { destruct (Z.eq_dec m 1) as [->|Hm1]; [rewrite Z.mod_1_r; lia|].
      rewrite Z.mod_small by lia. lia. }
    pose proof (Z.mod_pos_bound base m ltac:(lia)) as Hb.
    rewrite fmul_exact by (rewrite Z.abs_eq by nia; nia).
    rewrite modNorm_pos by lia.
    rewrite Z.mul_mod_idemp_l, Z.mul_1_l by lia. apply Z.mod_mod. lia.
  - reflexivity.
Qed.

Lemma powMod_exponent_beyond_int32_witness :
  powMod 2 (2 ^ 31) 1000 = if Z.odd (2 ^ 31) then 2 mod 1000 else 1 mod 1000.
Proof. apply (powMod_exponent_beyond_int32 2 (2 ^ 31) 1000); lia. Defined.

(** The complete set of solutions: with the coefficient and modulus
    reduced by the gcd [d], [x] solves the congruence exactly when it
    is congruent to the base solution modulo the reduced modulus. *)
Lemma solve_reduced_all (a1 b1 m1 d inv : Z) :
  0 < d -> 0 < m1 -> Z.gcd a1 m1 = 1 ->
  modInv (modNorm a1 m1) (Z.abs m1) = Some inv ->
  forall x,
    (a1 * d * x - b1 * d) mod (m1 * d) = 0 <->
    (x - modNorm (inv * b1) (Z.abs m1)) mod m1 = 0.
Proof.
  intros Hd Hm1 Hrel Hinv x.
  destruct (solve_reduced a1 b1 m1 d Hd Hm1 Hrel) as (inv' & Hinv' & Hs).
  rewrite Hinv in Hinv'. injection Hinv' as <-.
  set (s := modNorm (inv * b1) (Z.abs m1)) in *.
  assert (Hbase : (m1 | a1 * s - b1)).
  { apply Z.mod_divide in Hs; [|lia].
    replace (a1 * d * s - b1 * d) with ((a1 * s - b1) * d) in Hs by lia.
    apply Z.mul_divide_cancel_r in Hs; [assumption | lia]. }
  rewrite !Z.mod_divide by lia.
  replace (a1 * d * x - b1 * d) with ((a1 * x - b1) * d) by lia.
  rewrite Z.mul_divide_cancel_r by lia.
  split; intros Hx.
  - assert (Hdiff : (m1 | a1 * (x - s))).
    { replace (a1 * (x - s)) with ((a1 * x - b1) - (a1 * s - b1)) by lia.
      now apply Z.divide_sub_r. }
    apply Z.gauss in Hdiff; [assumption|].
    rewrite Z.gcd_comm. exact Hrel.
  - replace (a1 * x - b1) with (a1 * (x - s) + (a1 * s - b1)) by lia.
    apply Z.divide_add_r; [|assumption].
    now apply Z.divide_mul_r.
Qed.

(** X5. Under the magnitude bounds of the amended C7,
    [solveLinearCongruence] describes the whole solution set: when it
    returns the base solution [s] and the modulus [n1], an integer [x]
    satisfies [a*x = b (mod n)] exactly when [x = s (mod n1)]. *)
Theorem solveLinearCongruence_all_solutions (a b n s n1 : Z) :
  Z.abs a < 2 ^ 53 -> Z.abs b < 2 ^ 53 -> 1 <= n < 2 ^ 53 ->
  (n / Z.gcd a n) * (Z.abs b / Z.gcd a n) <= 2 ^ 53 ->
  x0 (solveLinearCongruence a b n) = Some s ->
  mod_ (solveLinearCongruence a b n) = Some n1 ->
  forall x, (a * x - b) mod n = 0 <-> (x - s) mod n1 = 0.
Proof.
  intros _ _ Hn Hprod. unfold solveLinearCongruence.
  rewrite egcd_g. set (d := Z.gcd (Z.abs a) (Z.abs n)).
  assert (Ed : d = Z.gcd a n).
  { subst d. now rewrite Z.gcd_abs_l, Z.gcd_abs_r. }
  rewrite <- Ed in Hprod.
  assert (Hd : 0 < d).
  { pose proof (Z.gcd_nonneg a n).
    destruct (Z.eq_dec d 0) as [E|]; [|lia].
    rewrite Ed in E. apply Z.gcd_eq_0_r in E. lia. }
  destruct (Z.eqb_spec d 0) as [?|_]; [lia|]. cbn [orb].
  destruct (Z.eqb_spec (Z.rem b d) 0) as [Hrem|Hrem]; cbn [negb];
    [|discriminate].
  apply Z.rem_divide in Hrem; [|lia].
  pose proof (Z.gcd_divide_l a n) as Hda.
  pose proof (Z.gcd_divide_r a n) as Hdn.
  rewrite <- Ed in Hda, Hdn.
  rewrite !quot_exact by (assumption || lia).
  destruct Hda as [a1 Ea], Hdn as [m1 En], Hrem as [b1 Eb].
  assert (Hm1 : 0 < m1) by nia.
  assert (Hrel : Z.gcd a1 m1 = 1).
  { rewrite Ea, En, Z.gcd_mul_mono_r_nonneg in Ed by lia.
    pose proof (Z.gcd_nonneg a1 m1). nia. }
  clearbody d. subst a n b.
  rewrite Z.abs_mul, (Z.abs_eq d) in Hprod by lia.
  rewrite !Z.div_mul in Hprod by lia. rewrite !Z.div_mul by lia.
  destruct (modInv (modNorm a1 m1) (Z.abs m1)) as [inv|] eqn:Hinv;
    cbn [x0 mod_]; [|discriminate].
  assert (Hexact : fmul inv b1 = inv * b1).
  { apply fmul_exact.
    pose proof (modInv_range (modNorm a1 m1) (Z.abs m1) inv
                  ltac:(lia) Hinv) as Hrange.
    rewrite (Z.abs_eq m1) in Hrange by lia.
    rewrite Z.abs_mul, (Z.abs_eq inv) by lia. nia. }
  rewrite Hexact.
  intros Hs Hn1 x. injection Hs as <-. injection Hn1 as <-.
  rewrite (Z.abs_eq m1) at 2 by lia.
  apply solve_reduced_all; assumption.
Qed.

Lemma solveLinearCongruence_all_solutions_witness :
  x0 (solveLinearCongruence 4 4 8) = Some 1 /\
  mod_ (solveLinearCongruence 4 4 8) = Some 2 /\
  forall x, (4 * x - 4) mod 8 = 0 <-> (x - 1) mod 2 = 0.
Proof.
  split; [reflexivity|]. split; [reflexivity|].
  apply (solveLinearCongruence_all_solutions 4 4 8 1 2);
    [lia | lia | lia | vm_compute; discriminate | reflexivity | reflexivity].
Defined.

(** X6. For [0 <= a < 2^53] and [1 <= n < 2^53], [modInv] returns
    exactly the inverse of [a] in [0, n): [i] is returned if and only if
    it lies in [0, n) and [a * i = 1 (mod n)]; so the inverse is unique
    and is found whenever one exists. *)
Theorem modInv_iff (a n i : Z) :
  0 <= a < 2 ^ 53 -> 1 <= n < 2 ^ 53 ->
  (modInv a n = Some i <-> 0 <= i < n /\ (a * i) mod n = 1 mod n).
Proof.
  intros [Ha _] [Hn _]. split.
  - intros Hi. split; [now apply (modInv_range a) | now apply modInv_nonneg_correct].
  - intros [Hrange Hone].
    assert (Hdiv : (n | a * i - 1)).
    { apply Z.mod_divide; [lia|].
      rewrite Zminus_mod, Hone, <- Zminus_mod, Z.sub_diag. apply Z.mod_0_l. lia. }
    assert (Hg : Z.gcd a n = 1).
    { pose proof (Z.gcd_nonneg a n).
      pose proof (Z.gcd_divide_l a n) as Hga.
      pose proof (Z.gcd_divide_r a n) as Hgn.
      assert (H1 : (Z.gcd a n | 1)).
      { replace 1 with (a * i - (a * i - 1)) by lia.
        apply Z.divide_sub_r.
        - now apply Z.divide_mul_l.
        - eapply Z.divide_trans; eassumption. }
      apply Z.divide_1_r_nonneg in H1; lia. }
    destruct (modInv a n) as [i'|] eqn:Hi'.
    2: { apply modInv_None_iff in Hi'. contradiction. }
    pose proof (modInv_range a n i' Hn Hi') as Hrange'.
    pose proof (modInv_nonneg_correct a n i' Ha Hn Hi') as Hone'.
    assert (Hdiff : (n | a * (i - i'))).
    { apply Z.mod_divide; [lia|].
      replace (a * (i - i')) with (a * i - a * i') by lia.
      rewrite Zminus_mod, Hone, Hone', <- Zminus_mod, Z.sub_diag.
      apply Z.mod_0_l. lia. }
    apply Z.gauss in Hdiff; [|now rewrite Z.gcd_comm].
    destruct Hdiff as [k Hk]. f_equal.
    destruct (Z.eq_dec k 0) as [->|Hk0]; [lia|].
    assert (Hcases : 1 <= k \/ k <= -1) by lia.
    destruct Hcases; nia.
Qed.

Lemma modInv_iff_witness :
  modInv 7 12 = Some 7 <-> 0 <= 7 < 12 /\ (7 * 7) mod 12 = 1 mod 12.
Proof. apply (modInv_iff 7 12 7); lia. Defined.

(** *** Cayley tables *)

Lemma setEntry_rect (n i j : nat) (v : Z) (A : list (list Z)) :
  Rect n A -> Rect n (setEntry i j v A).
Proof.
  intros [Hlen Hrows]. unfold setEntry. split.
  - now rewrite length_alter.
  - apply Forall_alter; [assumption|].
    intros row Hrow. rewrite length_insert.
    rewrite Forall_lookup in Hrows. eauto.
Qed.

Lemma entry_setEntry (n i j i' j' : nat) (v : Z) (A : list (list Z)) :
  Rect n A -> (i < n)%nat -> (j < n)%nat ->
  entry (setEntry i j v A) i' j' =
  if decide (i' = i /\ j' = j) then Some v else entry A i' j'.
Proof.
  intros [Hlen Hrows] Hi Hj. unfold entry, setEntry.
  destruct (decide (i' = i)) as [->|Hne].
  - destruct (lookup_lt_is_Some_2 A i ltac:(lia)) as [row Hrow].
    rewrite list_lookup_alter_eq, Hrow. cbn.
    assert (length row = n) by (rewrite Forall_lookup in Hrows; eauto).
    destruct (decide (j' = j)) as [->|Hnej].
    + rewrite decide_True by tauto.
      apply list_lookup_insert_eq. lia.
    + rewrite decide_False by tauto.
      now apply list_lookup_insert_ne.
  - rewrite decide_False by tauto.
    now rewrite list_lookup_alter_ne.
Qed.

Section Fill.
Variable n : nat.
Variable f : nat -> nat -> Z.


End Fill.

Lemma rect_zero (n : nat) : Rect n (replicate n (replicate n 0)).
Proof.
  split; [apply length_replicate|].
  apply Forall_replicate. apply length_replicate.
Qed.







End ModularFacts.

Module RelationFacts.
Import Relations.

(** The worked examples of the specification. *)
Example closure_of_chain :
  transitiveClosureFromCovers ["1"; "2"; "3"] [("1", "2"); ("2", "3")]
  = Some [("1", "1"); ("1", "2"); ("1", "3");
          ("2", "2"); ("2", "3"); ("3", "3")].
Proof. vm_compute. reflexivity. Qed.

Example reduction_of_chain :
  coversFromRelation ["1"; "2"; "3"]
    [("1", "1"); ("1", "2"); ("2", "2"); ("1", "3"); ("2", "3"); ("3", "3")]
    (relationSet
       [("1", "1"); ("1", "2"); ("2", "2"); ("1", "3"); ("2", "3"); ("3", "3")])
  = [("1", "2"); ("2", "3")].
Proof. vm_compute. reflexivity. Qed.

(** *** Keys *)

Lemma append_nil (s : string) : "" +:+ s = s.
Proof. reflexivity. Qed.

Lemma append_cons (c : ascii) (s t : string) :
  String c s +:+ t = String c (s +:+ t).
Proof. reflexivity. Qed.

Lemma bars_app (s t : string) : bars (s +:+ t) = bars s + bars t.
Proof.
  induction s as [|c s IH]; rewrite ?append_nil, ?append_cons; cbn;
    [reflexivity | rewrite IH; lia].
Qed.

Lemma barFree_bars (s : string) : barFree s = true ↔ bars s = 0.
Proof.
  induction s as [|c s IH]; cbn; [tauto|].
  destruct (Ascii.eqb c "|"); cbn; [split; [discriminate | lia] | exact IH].
Qed.

Lemma bars_pairKey (a b : string) : bars (pairKey a b) = bars a + 3 + bars b.
Proof. unfold pairKey. rewrite !bars_app. cbn. lia. Qed.

(** With bar-free first components the key determines the pair. *)
Lemma pairKey_inj_l (a b a' b' : string) :
  barFree a = true → barFree a' = true →
  pairKey a b = pairKey a' b' → a = a' ∧ b = b'.
Proof.
  unfold pairKey. revert a'.
  induction a as [|c a IH]; intros [|c' a'] Ha Ha' E;
    rewrite ?append_cons, ?append_nil in E.
  - split; [reflexivity | congruence].
  - injection E as Ec _. subst c'. cbn in Ha'. discriminate.
  - injection E as Ec _. subst c. cbn in Ha. discriminate.
  - injection E as Ec E. subst c'.
    apply andb_prop in Ha as [_ Ha], Ha' as [_ Ha'].
    destruct (IH a' Ha Ha' E) as [-> ->]. split; reflexivity.
Qed.

(** A key of two bar-free strings is the key of no other pair. *)
Lemma pairKey_inj (a b a' b' : string) :
  barFree a' = true → barFree b' = true →
  pairKey a b = pairKey a' b' → a = a' ∧ b = b'.
Proof.
  intros Ha' Hb' E.
  pose proof (f_equal bars E) as Hn. rewrite !bars_pairKey in Hn.
  apply barFree_bars in Ha' as Ha0. apply barFree_bars in Hb' as Hb0.
  apply pairKey_inj_l; [apply barFree_bars; lia | assumption | assumption].
Qed.

Lemma elem_of_relationSet_from (pairs : list Pair) (s0 : gset string) (k : string) :
  k ∈ fold_left (fun s p => {[pairKey p.1 p.2]} ∪ s) pairs s0 ↔
  k ∈ s0 ∨ ∃ p, p ∈ pairs ∧ pairKey p.1 p.2 = k.
Proof.
  revert s0. induction pairs as [|q pairs IH]; intros s0; cbn.
  - split; [tauto | intros [H | (p & Hp & _)]; [assumption | inversion Hp]].
  - rewrite IH, elem_of_union, elem_of_singleton. split.
    + intros [[-> | H] | (p & Hp & E)].
      * right. exists q. split; [left | reflexivity].
      * left. assumption.
      * right. exists p. split; [right; assumption | assumption].
    + intros [H | (p & Hp & E)]; [tauto|].
      apply elem_of_cons in Hp as [-> | Hp]; [left; left; congruence|].
      right. exists p. tauto.
Qed.

Lemma elem_of_relationSet (pairs : list Pair) (k : string) :
  k ∈ relationSet pairs ↔ ∃ p, p ∈ pairs ∧ pairKey p.1 p.2 = k.
Proof.
  unfold relationSet. rewrite elem_of_relationSet_from.
  split; [intros [H | H]; [now apply not_elem_of_empty in H | exact H] | now right].
Qed.

(** For bar-free [a] and [b] the key lookup is membership of the pair. *)
Lemma relationSet_pair (pairs : list Pair) (a b : string) :
  barFree a = true → barFree b = true →
  pairKey a b ∈ relationSet pairs ↔ (a, b) ∈ pairs.
Proof.
  intros Ha Hb. rewrite elem_of_relationSet. split.
  - intros ([a' b'] & Hp & E). cbn in E.
    destruct (pairKey_inj a' b' a b Ha Hb E) as [-> ->]. assumption.
  - intros Hp. exists (a, b). split; [assumption | reflexivity].
Qed.

Lemma forallb_barFree (U : list Elem) (x : Elem) :
  forallb barFree U = true → x ∈ U → barFree x = true.
Proof.
  intros HU Hx. rewrite forallb_forall in HU. apply HU.
  now apply list_elem_of_In.
Qed.

(** *** The reflexivity check *)

Lemma reflexiveCheck_true (relSet : gset string) (U : list Elem) :
  (reflexiveCheck relSet U).1 = true ↔ ∀ x, x ∈ U → pairKey x x ∈ relSet.
Proof.
  induction U as [|u U IH]; cbn.
  - split; [intros _ x Hx; inversion Hx | reflexivity].
  - case_bool_decide as Hu.
    + rewrite IH. split.
      * intros H x Hx. apply elem_of_cons in Hx as [-> | Hx]; auto.
      * intros H x Hx. apply H. now right.
    + cbn. split; [discriminate|]. intros H. exfalso. apply Hu, H. now left.
Qed.

(** The scan stops at the first element whose diagonal key is absent. *)
Lemma reflexiveCheck_first_missing (relSet : gset string) (U : list Elem) (x : Elem) :
  x ∈ U → pairKey x x ∉ relSet →
  (∀ y, y ∈ U → y ≠ x → pairKey y y ∈ relSet) →
  reflexiveCheck relSet U = (false, Some x).
Proof.
  induction U as [|u U IH]; intros Hx Hmiss Hothers; [inversion Hx|].
  cbn. destruct (decide (u = x)) as [-> | Hne].
  - rewrite bool_decide_eq_false_2 by assumption. reflexivity.
  - rewrite bool_decide_eq_true_2 by (apply Hothers; [now left | assumption]).
    apply IH; [| assumption |].
    + apply elem_of_cons in Hx as [-> | Hx]; [congruence | assumption].
    + intros y Hy. apply Hothers. now right.
Qed.

(** C9 (defect): the reflexivity check answers [true] although a
    diagonal pair is missing. Over the one-element universe ["p|||p"]
    the relation with the single pair ("p", "p|||p|||p") lacks the pair
    ("p|||p", "p|||p"); [pairKey] gives both pairs the same key, and the
    check, which looks the key up, finds it. *)
Lemma reflexive_check_ambiguous_key :
  "p|||p" ∈ ["p|||p"] ∧
  (("p|||p", "p|||p") ∉ [("p", "p|||p|||p")]) ∧
  reflexive (relationProps ["p|||p"] [("p", "p|||p|||p")]
               (relationSet [("p", "p|||p|||p")])) = true.
Proof.
  split; [now left|]. split; [|vm_compute; reflexivity].
  intros H. apply list_elem_of_singleton in H. discriminate.
Qed.

(** Where the keys are unambiguous the check is right: over a universe
    whose elements contain no [|] character it returns [true] exactly
    when every [x] of [U] has (x, x) in [R]; and when (U, R) is
    reflexive, deleting the diagonal pair of an element [x] of [U] makes
    the check return [false] with [x] as the reported missing
    element. *)
Theorem reflexive_check_spec (U : list Elem) (R : list Pair) :
  forallb barFree U = true →
  (reflexive (relationProps U R (relationSet R)) = true
   ↔ ∀ x, x ∈ U → (x, x) ∈ R) ∧
  (∀ x, x ∈ U → (∀ y, y ∈ U → (y, y) ∈ R) →
        reflexive (relationProps U (filter (λ p, p ≠ (x, x)) R)
                     (relationSet (filter (λ p, p ≠ (x, x)) R))) = false ∧
        reflexiveMissing (relationProps U (filter (λ p, p ≠ (x, x)) R)
                     (relationSet (filter (λ p, p ≠ (x, x)) R))) = Some x).
Proof.
  intros HU. unfold relationProps. cbn [reflexive reflexiveMissing]. split.
  - rewrite reflexiveCheck_true. split.
    + intros H x Hx. pose proof (forallb_barFree U x HU Hx).
      apply relationSet_pair; auto.
    + intros H x Hx. pose proof (forallb_barFree U x HU Hx).
      apply relationSet_pair; auto.
  - intros x Hx Hrefl.
    pose proof (forallb_barFree U x HU Hx) as Hbx.
    rewrite (reflexiveCheck_first_missing _ U x); [split; reflexivity | | |].
    + assumption.
    + rewrite relationSet_pair by assumption.
      rewrite list_elem_of_filter. tauto.
    + intros y Hy Hne. pose proof (forallb_barFree U y HU Hy).
      rewrite relationSet_pair by assumption.
      apply list_elem_of_filter. split; [congruence | auto].
Qed.

Lemma reflexive_check_spec_witness :
  (reflexive (relationProps ["1"; "2"; "3"]
                [("1", "1"); ("2", "2"); ("1", "2"); ("3", "3")]
                (relationSet [("1", "1"); ("2", "2"); ("1", "2"); ("3", "3")]))
   = true
   ↔ ∀ x, x ∈ ["1"; "2"; "3"] →
          (x, x) ∈ [("1", "1"); ("2", "2"); ("1", "2"); ("3", "3")]) ∧
  (∀ x, x ∈ ["1"; "2"; "3"] →
        (∀ y, y ∈ ["1"; "2"; "3"] →
              (y, y) ∈ [("1", "1"); ("2", "2"); ("1", "2"); ("3", "3")]) →
        reflexive
          (relationProps ["1"; "2"; "3"]
             (filter (λ p, p ≠ (x, x))
                     [("1", "1"); ("2", "2"); ("1", "2"); ("3", "3")])
             (relationSet
                (filter (λ p, p ≠ (x, x))
                        [("1", "1"); ("2", "2"); ("1", "2"); ("3", "3")])))
        = false ∧
        reflexiveMissing
          (relationProps ["1"; "2"; "3"]
             (filter (λ p, p ≠ (x, x))
                     [("1", "1"); ("2", "2"); ("1", "2"); ("3", "3")])
             (relationSet
                (filter (λ p, p ≠ (x, x))
                        [("1", "1"); ("2", "2"); ("1", "2"); ("3", "3")])))
        = Some x).
Proof.
  apply (reflexive_check_spec ["1"; "2"; "3"]
           [("1", "1"); ("2", "2"); ("1", "2"); ("3", "3")]).
  reflexivity.
Defined.

(** *** coversFromRelation *)

Lemma isCover_true (relSet : gset string) (a b : Elem) (cs : list Elem) :
  isCover relSet a b cs = true ↔
  ∀ c, c ∈ cs → c ≠ a → c ≠ b →
       ¬ (pairKey a c ∈ relSet ∧ pairKey c b ∈ relSet).
Proof.
  induction cs as [|c cs IH]; cbn.
  - split; [intros _ c Hc; inversion Hc | reflexivity].
  - case_decide as Hc.
    + rewrite IH. split.
      * intros H c' Hc'. apply elem_of_cons in Hc' as [-> | Hc']; [|auto].
        intros; destruct Hc; congruence.
      * intros H c' Hc'. apply H. now right.
    + destruct (bool_decide (pairKey a c ∈ relSet)) eqn:E1;
      destruct (bool_decide (pairKey c b ∈ relSet)) eqn:E2; cbn;
      try apply bool_decide_eq_true_1 in E1;
      try apply bool_decide_eq_true_1 in E2;
      try apply bool_decide_eq_false_1 in E1;
      try apply bool_decide_eq_false_1 in E2.
      1: { split; [discriminate|]. intros H. exfalso.
           apply (H c); [now left | tauto | tauto | tauto]. }
      all: rewrite IH; split;
        [ intros H c' Hc'; apply elem_of_cons in Hc' as [-> | Hc'];
          [intros _ _ [? ?]; contradiction | auto]
        | intros H c' Hc'; apply H; now right ].
Qed.

Lemma elem_of_covers_from (U : list Elem) (relSet : gset string)
    (relPairs acc : list Pair) (p : Pair) :
  p ∈ fold_left
        (fun covers p =>
           if decide (p.1 = p.2) then covers
           else if negb (bool_decide (p.1 ∈ U)) || negb (bool_decide (p.2 ∈ U))
                then covers
                else if isCover relSet p.1 p.2 U then covers ++ [p] else covers)
        relPairs acc
  ↔ p ∈ acc ∨ (p ∈ relPairs ∧ keepCover U relSet p).
Proof.
  revert acc. induction relPairs as [|q qs IH]; intros acc; cbn.
  - split; [tauto | intros [H | [H _]]; [assumption | inversion H]].
  - rewrite IH. unfold keepCover.
    case_decide as Hd.
    { split; [intros [H | [H K]]; [tauto | right; split; [now right | exact K]]|].
      intros [H | [H K]]; [tauto|].
      apply elem_of_cons in H as [-> | H]; [tauto | tauto]. }
    case_bool_decide as H1; cbn.
    2: { split; [intros [H | [H K]]; [tauto | right; split; [now right | exact K]]|].
         intros [H | [H K]]; [tauto|].
         apply elem_of_cons in H as [-> | H]; [tauto | tauto]. }
    case_bool_decide as H2; cbn.
    2: { split; [intros [H | [H K]]; [tauto | right; split; [now right | exact K]]|].
         intros [H | [H K]]; [tauto|].
         apply elem_of_cons in H as [-> | H]; [tauto | tauto]. }
    destruct (isCover relSet q.1 q.2 U) eqn:Hc.
    + rewrite elem_of_app, list_elem_of_singleton. split.
      * intros [[H | ->] | [H K]]; [tauto | | right; split; [now right | exact K]].
        right. split; [now left | tauto].
      * intros [H | [H K]]; [tauto|].
        apply elem_of_cons in H as [-> | H]; [tauto | tauto].
    + split; [intros [H | [H K]]; [tauto | right; split; [now right | exact K]]|].
      intros [H | [H K]]; [tauto|].
      apply elem_of_cons in H as [-> | H]; [|tauto].
      destruct K as (_ & _ & _ & K). congruence.
Qed.

Lemma elem_of_coversFromRelation (U : list Elem) (relPairs : list Pair)
    (relSet : gset string) (p : Pair) :
  p ∈ coversFromRelation U relPairs relSet ↔
  p ∈ relPairs ∧ keepCover U relSet p.
Proof.
  unfold coversFromRelation. rewrite elem_of_covers_from.
  split; [intros [H | H]; [inversion H | exact H] | tauto].
Qed.

(** C10: every pair returned by [coversFromRelation] is a pair of the
    input list, is not reflexive, and has both endpoints in [U],
    whatever the pair list and the membership set are. *)
Theorem coversFromRelation_subset (U : list Elem) (relPairs : list Pair)
    (relSet : gset string) (a b : Elem) :
  (a, b) ∈ coversFromRelation U relPairs relSet →
  (a, b) ∈ relPairs ∧ a ≠ b ∧ a ∈ U ∧ b ∈ U.
Proof.
  rewrite elem_of_coversFromRelation. unfold keepCover. cbn. tauto.
Qed.

Lemma coversFromRelation_subset_witness :
  ("1", "2") ∈ coversFromRelation ["1"; "2"; "3"]
     [("1","1"); ("1","2"); ("2","2"); ("1","3"); ("2","3"); ("3","3")]
     (relationSet [("1","1"); ("1","2"); ("2","2"); ("1","3"); ("2","3"); ("3","3")]) ∧
  (("1", "2") ∈
     [("1","1"); ("1","2"); ("2","2"); ("1","3"); ("2","3"); ("3","3")] ∧
   "1" ≠ "2" ∧ "1" ∈ ["1"; "2"; "3"] ∧ "2" ∈ ["1"; "2"; "3"]).
Proof.
  assert (H : ("1", "2") ∈ coversFromRelation ["1"; "2"; "3"]
            [("1","1"); ("1","2"); ("2","2"); ("1","3"); ("2","3"); ("3","3")]
            (relationSet [("1","1"); ("1","2"); ("2","2"); ("1","3"); ("2","3"); ("3","3")])).
  { vm_compute. left. }
  split; [exact H|].
  exact (coversFromRelation_subset _ _ _ "1" "2" H).
Defined.

(** *** The adjacency map *)

Lemma adjPush_lookup (adj : gmap string (list string)) (p : Pair) (v : Elem) :
  default [] (adjPush adj p !! v) =
  default [] (adj !! v) ++ (if decide (p.1 = v) then [p.2] else []).
Proof.
  unfold adjPush. case_decide as Hv.
  - subst v. destruct (adj !! p.1) as [l|] eqn:E.
    + rewrite lookup_alter_eq, E. reflexivity.
    + rewrite lookup_alter_eq, lookup_insert_eq. reflexivity.
  - rewrite lookup_alter_ne by assumption.
    destruct (adj !! p.1) as [l|] eqn:E.
    + now rewrite app_nil_r.
    + rewrite lookup_insert_ne by assumption. now rewrite app_nil_r.
Qed.

Lemma fold_adjPush_lookup (covers : list Pair)
    (adj : gmap string (list string)) (v : Elem) :
  default [] (fold_left adjPush covers adj !! v) =
  default [] (adj !! v) ++ (filter (λ p, p.1 = v) covers).*2.
Proof.
  revert adj. induction covers as [|p covers IH]; intros adj.
  - cbn. now rewrite app_nil_r.
  - rewrite filter_cons. cbn [fold_left]. rewrite IH, adjPush_lookup.
    case_decide; [now rewrite fmap_cons, <- app_assoc | now rewrite app_nil_r].
Qed.

(** [adj.get(v) ?? []] lists, in order, the targets of the pairs of
    [covers] with source [v]. *)
Lemma buildAdj_lookup (covers : list Pair) (v : Elem) :
  default [] (buildAdj covers !! v) = (filter (λ p, p.1 = v) covers).*2.
Proof. unfold buildAdj. now rewrite fold_adjPush_lookup, lookup_empty. Qed.

Lemma elem_of_buildAdj (covers : list Pair) (v w : Elem) :
  w ∈ default [] (buildAdj covers !! v) ↔ (v, w) ∈ covers.
Proof.
  rewrite buildAdj_lookup, list_elem_of_fmap. split.
  - intros ([a b] & -> & H). apply list_elem_of_filter in H as [E H].
    cbn in *. now subst.
  - intros H. exists (v, w). split; [reflexivity|].
    apply list_elem_of_filter. split; [reflexivity | assumption].
Qed.

Lemma elem_of_pushUnvisited (visited : gset string) (nexts stack : list Elem)
    (x : Elem) :
  x ∈ pushUnvisited visited stack nexts ↔
  x ∈ stack ∨ (x ∈ nexts ∧ x ∉ visited).
Proof.
  unfold pushUnvisited. revert stack.
  induction nexts as [|n nexts IH]; intros stack; cbn.
  - split; [tauto | intros [H | [H _]]; [assumption | inversion H]].
  - rewrite IH. case_decide as Hn.
    + split; [intros [H | [H K]]; [tauto | right; split; [now right | exact K]]|].
      intros [H | [H K]]; [tauto|].
      apply elem_of_cons in H as [-> | H]; [contradiction | tauto].
    + rewrite !elem_of_cons. split.
      * intros [[-> | H] | [H K]]; [right; tauto | tauto | tauto].
      * intros [H | [[-> | H] K]]; tauto.
Qed.

Lemma length_pushUnvisited (visited : gset string) (nexts stack : list Elem) :
  length (pushUnvisited visited stack nexts) ≤ length stack + length nexts.
Proof.
  unfold pushUnvisited. revert stack.
  induction nexts as [|n nexts IH]; intros stack; cbn; [lia|].
  case_decide; etrans; [apply IH | lia | apply IH | cbn; lia].
Qed.

(** *** Termination of the search *)

Lemma not_elem_of_visit (visited : gset string) (v x : Elem) :
  x ∉ {[v]} ∪ visited ↔ x ≠ v ∧ x ∉ visited.
Proof. rewrite elem_of_union, elem_of_singleton. tauto. Qed.

Lemma pending_visit (covers : list Pair) (visited : gset string) (v : Elem) :
  v ∉ visited →
  pending covers ({[v]} ∪ visited) + length (filter (λ p, p.1 = v) covers)
  = pending covers visited.
Proof.
  intros Hv. unfold pending.
  induction covers as [|p covers IH]; [reflexivity|].
  rewrite !filter_cons.
  destruct (decide (p.1 = v)) as [E|E].
  - rewrite decide_False by (rewrite not_elem_of_visit; tauto).
    rewrite decide_True by (rewrite E; assumption). cbn. lia.
  - destruct (decide (p.1 ∈ visited)) as [Hin|Hin].
    + rewrite decide_False by (rewrite not_elem_of_visit; tauto).
      rewrite decide_False by tauto. exact IH.
    + rewrite decide_True by (rewrite not_elem_of_visit; tauto).
      rewrite decide_True by assumption. cbn. lia.
Qed.

Lemma search_total (covers : list Pair) (a : Elem) (fuel : nat) :
  ∀ visited stack st,
    length stack + pending covers visited < fuel →
    is_Some (search fuel (buildAdj covers) a visited stack st).
Proof.
  induction fuel as [|fuel IH]; intros visited stack st Hlt; [lia|].
  destruct stack as [|v stack]; cbn; [eauto|].
  case_decide as Hv.
  - apply IH. cbn in Hlt. lia.
  - apply IH.
    pose proof (length_pushUnvisited ({[v]} ∪ visited)
                  (default [] (buildAdj covers !! v)) stack) as Hlen.
    rewrite buildAdj_lookup, length_fmap in Hlen.
    pose proof (pending_visit covers visited v Hv).
    rewrite buildAdj_lookup. cbn in Hlt. lia.
Qed.

Lemma pending_le (covers : list Pair) (visited : gset string) :
  pending covers visited ≤ length covers.
Proof. unfold pending. apply length_filter. Qed.

Lemma closure_fold_total (covers : list Pair) (U : list Elem) :
  ∀ st, is_Some (fold_left (closureFrom (S (2 * length covers)) (buildAdj covers))
                           U (Some st)).
Proof.
  induction U as [|a U IH]; intros st; [cbn; eauto|].
  cbn [fold_left closureFrom].
  destruct (search_total covers a (S (2 * length covers)) ∅
              (rev (default [] (buildAdj covers !! a))) (addPair a a st))
    as [st' Hst'].
  - rewrite length_rev, buildAdj_lookup, length_fmap.
    pose proof (length_filter (λ p : Pair, p.1 = a) covers).
    pose proof (pending_le covers ∅). lia.
  - rewrite Hst'. apply IH.
Qed.

(** The closure always returns: the search budget is never exhausted. *)
Lemma transitiveClosureFromCovers_total (U : list Elem) (covers : list Pair) :
  is_Some (transitiveClosureFromCovers U covers).
Proof.
  unfold transitiveClosureFromCovers, closureWithFuel.
  destruct (closure_fold_total covers U {| result := []; seen := ∅ |})
    as [st Hst].
  rewrite Hst. cbn. eauto.
Qed.

(** *** Correctness of the closure *)

Lemma tc_first_step {A} (R : relation A) (x y : A) :
  tc R x y → ∃ z, R x z ∧ rtc R z y.
Proof.
  intros Htc. induction Htc as [x y H | x z y H1 H2 _].
  - exists y. split; [assumption | apply rtc_refl].
  - exists z. split; [assumption | now apply tc_rtc].
Qed.

Lemma closed_rtc {A} (R : relation A) (P : A → Prop) (x y : A) :
  (∀ u w, P u → R u w → P w) → rtc R x y → P x → P y.
Proof. intros Hcl Hrtc. induction Hrtc; eauto. Qed.

Lemma elem_of_rev {A} (l : list A) (x : A) : x ∈ rev l ↔ x ∈ l.
Proof. rewrite !list_elem_of_In. symmetry. apply in_rev. Qed.

Ltac split_inv := split; [|split; [|split; [|split]]].

Section Closure.
Variable U : list Elem.
Variable covers : list Pair.

Lemma addPair_result_mono (a b : Elem) (st : ClosureState) (p : Pair) :
  p ∈ result st → p ∈ result (addPair a b st).
Proof.
  unfold addPair. case_decide as Hd; cbn; [tauto|].
  intros Hp. apply elem_of_app. now left.
Qed.

Lemma addPair_seen_mono (a b : Elem) (st : ClosureState) (k : string) :
  k ∈ seen st → k ∈ seen (addPair a b st).
Proof.
  unfold addPair. case_decide as Hd; cbn; [tauto|].
  intros Hk. apply elem_of_union. now right.
Qed.

Lemma addPair_seen (a b : Elem) (st : ClosureState) :
  pairKey a b ∈ seen (addPair a b st).
Proof.
  unfold addPair. case_decide as Hd; cbn; [assumption|].
  apply elem_of_union. left. now apply elem_of_singleton.
Qed.

Lemma addPair_ok (a b : Elem) (st : ClosureState) :
  StateOk U covers st → a ∈ U → (a = b ∨ tc (edge covers) a b) →
  StateOk U covers (addPair a b st).
Proof.
  intros [Hk Hp] Ha Hab. unfold addPair.
  case_decide as Hin; [split; assumption|]. split; cbn.
  - intros k. rewrite elem_of_union, elem_of_singleton, Hk. split.
    + intros [-> | (p & Hp' & E)].
      * exists (a, b). split; [|reflexivity].
        apply elem_of_app. right. now apply list_elem_of_singleton.
      * exists p. split; [|assumption]. apply elem_of_app. now left.
    + intros (p & Hp' & E). apply elem_of_app in Hp' as [Hp' | Hp'].
      * right. eauto.
      * apply list_elem_of_singleton in Hp'. subst p. left. now symmetry.
  - intros p Hp'. apply elem_of_app in Hp' as [Hp' | Hp']; [auto|].
    apply list_elem_of_singleton in Hp'. subst p. cbn. tauto.
Qed.

(** When the stack is empty every path from [a] ends in a visited,
    hence recorded, element. *)
Lemma searchInv_done (a : Elem) (visited : gset string) (st : ClosureState) :
  SearchInv covers a visited [] st →
  ∀ v, tc (edge covers) a v → pairKey a v ∈ seen st.
Proof.
  intros (_ & _ & I3 & I4 & I5) v Hv. apply I5.
  apply tc_first_step in Hv as (w & Haw & Hwv).
  apply (closed_rtc (edge covers) (λ x, x ∈ visited) w v).
  - intros u z Hu Huz. destruct (I3 u z Hu Huz) as [?|H]; [assumption|].
    inversion H.
  - assumption.
  - destruct (I4 w Haw) as [?|H]; [assumption | inversion H].
Qed.

Lemma search_spec (a : Elem) (fuel : nat) :
  a ∈ U →
  ∀ visited stack st st',
    StateOk U covers st → SearchInv covers a visited stack st →
    search fuel (buildAdj covers) a visited stack st = Some st' →
    StateOk U covers st' ∧
    (∀ p, p ∈ result st → p ∈ result st') ∧
    (∀ v, tc (edge covers) a v → pairKey a v ∈ seen st').
Proof.
  intros Ha. induction fuel as [|fuel IH];
    intros visited stack st st' Hok Hinv Hrun.
  - destruct stack; [|discriminate]. injection Hrun as <-.
    split; [exact Hok|]. split; [tauto|]. now apply (searchInv_done a visited).
  - destruct stack as [|v stack].
    { injection Hrun as <-.
      split; [exact Hok|]. split; [tauto|].
      now apply (searchInv_done a visited). }
    destruct Hinv as (I1 & I2 & I3 & I4 & I5).
    cbn in Hrun. case_decide as Hv.
    + (* already visited: the entry is dropped *)
      apply (IH visited stack st st' Hok); [|assumption].
      split_inv; [assumption | | | | assumption].
      * intros x Hx. apply I2. now right.
      * intros u w Hu Huw. destruct (I3 u w Hu Huw) as [?|H]; [tauto|].
        apply elem_of_cons in H as [-> | H]; tauto.
      * intros w Haw. destruct (I4 w Haw) as [?|H]; [tauto|].
        apply elem_of_cons in H as [-> | H]; tauto.
    + (* first visit of [v] *)
      assert (Hav : tc (edge covers) a v) by (apply I2; now left).
      assert (Hinv' : SearchInv covers a ({[v]} ∪ visited)
                (pushUnvisited ({[v]} ∪ visited) stack
                   (default [] (buildAdj covers !! v)))
                (addPair a v st)).
      { split_inv.
        - intros x Hx. apply elem_of_union in Hx as [Hx | Hx]; [|auto].
          apply elem_of_singleton in Hx. now subst x.
        - intros x Hx. apply elem_of_pushUnvisited in Hx as [Hx | [Hx _]].
          + apply I2. now right.
          + apply elem_of_buildAdj in Hx.
            eapply tc_r; [exact Hav | exact Hx].
        - intros u w Hu Huw.
          destruct (decide (w ∈ {[v]} ∪ visited)) as [?|Hw]; [now left|].
          right. apply elem_of_pushUnvisited.
          apply elem_of_union in Hu as [Hu | Hu].
          + apply elem_of_singleton in Hu. subst u. right.
            split; [now apply elem_of_buildAdj | assumption].
          + destruct (I3 u w Hu Huw) as [H | H].
            * exfalso. apply Hw, elem_of_union. now right.
            * apply elem_of_cons in H as [-> | H]; [|now left].
              exfalso. apply Hw, elem_of_union. left.
              now apply elem_of_singleton.
        - intros w Haw.
          destruct (decide (w ∈ {[v]} ∪ visited)) as [?|Hw]; [now left|].
          right. apply elem_of_pushUnvisited.
          destruct (I4 w Haw) as [H | H].
          + exfalso. apply Hw, elem_of_union. now right.
          + apply elem_of_cons in H as [-> | H]; [|now left].
            exfalso. apply Hw, elem_of_union. left.
            now apply elem_of_singleton.
        - intros x Hx. apply elem_of_union in Hx as [Hx | Hx].
          + apply elem_of_singleton in Hx. subst x. apply addPair_seen.
          + apply addPair_seen_mono. auto. }
      destruct (IH _ _ _ st' (addPair_ok a v st Hok Ha (or_intror Hav))
                  Hinv' Hrun) as (Hok' & Hmono & Hall).
      split; [exact Hok'|]. split; [|assumption].
      intros p Hp. apply Hmono. now apply addPair_result_mono.
Qed.

Lemma closureFrom_None (fuel : nat) (Us : list Elem) :
  fold_left (closureFrom fuel (buildAdj covers)) Us None = None.
Proof. induction Us; [reflexivity | assumption]. Qed.

Lemma seen_mono (st st' : ClosureState) (k : string) :
  StateOk U covers st → StateOk U covers st' →
  (∀ p, p ∈ result st → p ∈ result st') →
  k ∈ seen st → k ∈ seen st'.
Proof.
  intros [Hk _] [Hk' _] Hmono Hin.
  apply Hk in Hin as (p & Hp & E). apply Hk'. eauto.
Qed.

Lemma closure_fold_spec (fuel : nat) (Us : list Elem) :
  (∀ a, a ∈ Us → a ∈ U) →
  ∀ st st',
    StateOk U covers st →
    fold_left (closureFrom fuel (buildAdj covers)) Us (Some st) = Some st' →
    StateOk U covers st' ∧
    (∀ p, p ∈ result st → p ∈ result st') ∧
    (∀ a, a ∈ Us →
          pairKey a a ∈ seen st' ∧
          ∀ v, tc (edge covers) a v → pairKey a v ∈ seen st').
Proof.
  induction Us as [|a Us IH]; intros HUs st st' Hok Hrun.
  - injection Hrun as <-. split; [exact Hok|]. split; [tauto|].
    intros a Ha. inversion Ha.
  - cbn [fold_left closureFrom] in Hrun.
    destruct (search fuel (buildAdj covers) a ∅
                (rev (default [] (buildAdj covers !! a))) (addPair a a st))
      as [st1|] eqn:Hs; [|now rewrite closureFrom_None in Hrun].
    assert (Ha : a ∈ U) by (apply HUs; now left).
    pose proof (addPair_ok a a st Hok Ha (or_introl eq_refl)) as Hok0.
    assert (Hinv : SearchInv covers a ∅ (rev (default [] (buildAdj covers !! a)))
              (addPair a a st)).
    { split_inv.
      - intros v Hv. now apply not_elem_of_empty in Hv.
      - intros v Hv. rewrite elem_of_rev in Hv.
        apply elem_of_buildAdj in Hv. now apply tc_once.
      - intros u w Hu. now apply not_elem_of_empty in Hu.
      - intros w Haw. right. rewrite elem_of_rev.
        now apply elem_of_buildAdj.
      - intros v Hv. now apply not_elem_of_empty in Hv. }
    destruct (search_spec a fuel Ha ∅ _ _ st1 Hok0 Hinv Hs)
      as (Hok1 & Hmono1 & Hall1).
    assert (HUs' : ∀ x, x ∈ Us → x ∈ U) by (intros x Hx; apply HUs; now right).
    destruct (IH HUs' st1 st' Hok1 Hrun) as (Hok' & Hmono' & Hall').
    split; [exact Hok'|]. split.
    + intros p Hp. apply Hmono', Hmono1. now apply addPair_result_mono.
    + intros x Hx. apply elem_of_cons in Hx as [-> | Hx]; [|now apply Hall'].
      split.
      * apply (seen_mono st1 st'); [assumption..|].
        apply (seen_mono (addPair a a st) st1); [assumption..|].
        apply addPair_seen.
      * intros v Hv. apply (seen_mono st1 st'); auto.
Qed.

Lemma stateOk_empty : StateOk U covers {| result := []; seen := ∅ |}.
Proof.
  split; cbn.
  - intros k. split; [intros H; now apply not_elem_of_empty in H|].
    intros (p & Hp & _). inversion Hp.
  - intros p Hp. inversion Hp.
Qed.

(** Every pair of the closure starts in [U] and is a diagonal pair or
    a path of cover pairs. *)
Lemma closure_sound (R : list Pair) :
  transitiveClosureFromCovers U covers = Some R →
  ∀ a b, (a, b) ∈ R → a ∈ U ∧ (a = b ∨ tc (edge covers) a b).
Proof.
  unfold transitiveClosureFromCovers, closureWithFuel. intros Hrun a b Hab.
  destruct (fold_left _ U _) as [st|] eqn:Hfold; [|discriminate].
  injection Hrun as <-.
  destruct (closure_fold_spec _ U (λ _ H, H) _ st stateOk_empty Hfold)
    as ([_ Hp] & _ & _).
  exact (Hp (a, b) Hab).
Qed.

(** Over a bar-free universe every diagonal pair and every path from
    an element of [U] is recorded. *)
Lemma closure_complete (R : list Pair) :
  forallb barFree U = true →
  transitiveClosureFromCovers U covers = Some R →
  ∀ a, a ∈ U →
       (a, a) ∈ R ∧ ∀ v, tc (edge covers) a v → (a, v) ∈ R.
Proof.
  unfold transitiveClosureFromCovers, closureWithFuel. intros HU Hrun a Ha.
  destruct (fold_left _ U _) as [st|] eqn:Hfold; [|discriminate].
  injection Hrun as <-.
  destruct (closure_fold_spec _ U (λ _ H, H) _ st stateOk_empty Hfold)
    as ([Hk Hp] & _ & Hall).
  destruct (Hall a Ha) as [Hdiag Hpaths].
  assert (Hfind : ∀ v, pairKey a v ∈ seen st → (a, v) ∈ result st).
  { intros v Hin. apply Hk in Hin as ([a' v'] & Hin & E).
    destruct (Hp _ Hin) as [Ha' _]. cbn in *.
    pose proof (pairKey_inj_l a' v' a v (forallb_barFree U a' HU Ha')
                  (forallb_barFree U a HU Ha) E) as [-> ->].
    exact Hin. }
  split; [now apply Hfind|]. intros v Hv. now apply Hfind, Hpaths.
Qed.
End Closure.

(** *** Claims about the closure *)

(** C1 (defect): the closure keeps pairs whose target lies outside the
    universe. Over U = {"1"} with the single cover pair ("1", "2") it
    returns ("1", "1") and ("1", "2"), although "2" is not in U, and
    the result differs from the closure of the cover list filtered to
    pairs inside U, which is just ("1", "1"). *)
Theorem closure_keeps_pairs_outside_universe :
  transitiveClosureFromCovers ["1"] [("1", "2")]
    = Some [("1", "1"); ("1", "2")] ∧
  ("2" ∉ ["1"]) ∧
  transitiveClosureFromCovers ["1"]
    (filter (λ p : Pair, p.1 ∈ ["1"] ∧ p.2 ∈ ["1"]) [("1", "2")])
    = Some [("1", "1")].
Proof.
  split; [vm_compute; reflexivity|]. split.
  - intros H. apply list_elem_of_singleton in H. discriminate.
  - vm_compute. reflexivity.
Qed.

(** The source of every pair of the closure is in the universe; only
    targets can escape it. *)
Lemma closure_sources_in_universe (U : list Elem) (H R : list Pair) :
  transitiveClosureFromCovers U H = Some R →
  ∀ a b, (a, b) ∈ R → a ∈ U.
Proof. intros Hrun a b Hab. now apply (closure_sound U H R Hrun a b). Qed.

(** C6 (defect): the closure leaves out a diagonal pair. Over the
    universe ["p"; "p|||p"; "p|||p|||p"] with the single cover pair
    ("p", "p|||p|||p"), [pairKey] gives that pair the key of the
    diagonal pair of "p|||p"; [addPair] takes the diagonal pair for a
    duplicate, and the result is not reflexive. *)
Lemma closure_reflexive_ambiguous_key :
  "p|||p" ∈ ["p"; "p|||p"; "p|||p|||p"] ∧
  ∃ R, transitiveClosureFromCovers ["p"; "p|||p"; "p|||p|||p"]
         [("p", "p|||p|||p")] = Some R ∧
       ("p|||p", "p|||p") ∉ R.
Proof.
  split; [right; left|].
  eexists. split; [vm_compute; reflexivity|].
  intros H. repeat (apply elem_of_cons in H as [H | H]; [discriminate|]).
  inversion H.
Qed.

(** Where the keys are unambiguous the closure is reflexive: over a
    universe whose elements contain no [|] character, and for every
    cover list (no precondition on it), it returns a relation holding
    (x, x) for every x of U. *)
Theorem closure_reflexive (U : list Elem) (H : list Pair) :
  forallb barFree U = true →
  ∃ R, transitiveClosureFromCovers U H = Some R ∧
       ∀ x, x ∈ U → (x, x) ∈ R.
Proof.
  intros HU.
  destruct (transitiveClosureFromCovers_total U H) as [R HR].
  exists R. split; [assumption|].
  intros x Hx. exact (proj1 (closure_complete U H R HU HR x Hx)).
Qed.

Lemma closure_reflexive_witness :
  ∃ R, transitiveClosureFromCovers ["1"; "2"; "3"] [("1", "2"); ("2", "1")]
       = Some R ∧
       ∀ x, x ∈ ["1"; "2"; "3"] → (x, x) ∈ R.
Proof.
  apply (closure_reflexive ["1"; "2"; "3"] [("1", "2"); ("2", "1")]).
  reflexivity.
Defined.

(** *** Closure followed by reduction *)

Lemma tc_cases {A} (R : relation A) (x y : A) :
  tc R x y → R x y ∨ ∃ z, R x z ∧ tc R z y.
Proof.
  intros Htc. induction Htc as [x y H | x z y H1 H2 _]; [now left|].
  right. eauto.
Qed.

(** A path either avoids the pair (a, b) or passes through it. *)
Lemma tc_avoid (H : list Pair) (a b x y : Elem) :
  tc (edge H) x y →
  tc (edgeBut H a b) x y ∨ (rtc (edge H) x a ∧ rtc (edge H) b y).
Proof.
  intros Htc. induction Htc as [x y Hxy | x z y Hxz Hzy IH].
  - destruct (decide ((x, y) = (a, b))) as [E | E].
    + injection E as -> ->. right. split; apply rtc_refl.
    + left. apply tc_once. split; assumption.
  - destruct IH as [IH | [IH1 IH2]].
    + destruct (decide ((x, z) = (a, b))) as [E | E].
      * injection E as -> ->. right.
        split; [apply rtc_refl | now apply tc_rtc].
      * left. eapply tc_l; [split; eassumption | assumption].
    + right. split; [eapply rtc_l; eassumption | assumption].
Qed.

(** A strictly increasing rank along every pair excludes cycles. *)
Lemma acyclic_by_rank (H : list Pair) (rank : Elem → nat) :
  (∀ a b, (a, b) ∈ H → rank a < rank b) → Acyclic H.
Proof.
  intros Hrank v Hv.
  assert (Hlt : ∀ x y, tc (edge H) x y → rank x < rank y).
  { intros x y Htc. induction Htc as [x y Hxy | x z y Hxz _ IH].
    - now apply Hrank.
    - apply Hrank in Hxz. lia. }
  apply Hlt in Hv. lia.
Qed.

(** C5 (defect): closure followed by reduction loses a cover pair of
    an acyclic, irredundant cover list. The chain
    "p|||p" -> "p" -> "q" is acyclic and irredundant, but [pairKey]
    gives the absent pair ("p", "p|||p") the key of the closure pair
    ("p|||p", "p"); "p|||p" is then taken for an element between "p"
    and "q", and the cover ("p", "q") is lost. *)
Lemma closure_reduce_ambiguous_key :
  (∀ a b, (a, b) ∈ [("p|||p", "p"); ("p", "q")] →
          a ∈ ["p"; "q"; "p|||p"] ∧ b ∈ ["p"; "q"; "p|||p"]) ∧
  Acyclic [("p|||p", "p"); ("p", "q")] ∧
  Irredundant [("p|||p", "p"); ("p", "q")] ∧
  ("p", "q") ∈ [("p|||p", "p"); ("p", "q")] ∧
  ∃ R, transitiveClosureFromCovers ["p"; "q"; "p|||p"]
         [("p|||p", "p"); ("p", "q")] = Some R ∧
       coversFromRelation ["p"; "q"; "p|||p"] R (relationSet R)
         = [("p|||p", "p")] ∧
       (("p", "q") ∉ coversFromRelation ["p"; "q"; "p|||p"] R (relationSet R)).
Proof.
  split; [|split; [|split; [|split]]].
  - intros a b Hab.
    repeat (apply elem_of_cons in Hab as [Hab | Hab];
            [injection Hab as -> ->; split; set_solver|]).
    inversion Hab.
  - apply (acyclic_by_rank _ (λ s, if String.eqb s "p|||p" then 0
                                   else if String.eqb s "p" then 1 else 2)).
    intros a b Hab.
    repeat (apply elem_of_cons in Hab as [Hab | Hab];
            [injection Hab as -> ->; vm_compute; lia|]).
    inversion Hab.
  - intros a b Hab (c & Hac & _).
    apply tc_first_step in Hac as (z & [Hin Hne] & _).
    repeat (apply elem_of_cons in Hab as [Hab | Hab];
            [injection Hab as -> ->;
             repeat (apply elem_of_cons in Hin as [Hin | Hin];
                     [injection Hin as ?; congruence|]);
             inversion Hin|]).
    inversion Hab.
  - right. left.
  - eexists. split; [vm_compute; reflexivity|].
    split; [vm_compute; reflexivity|].
    intros H. vm_compute in H.
    apply list_elem_of_singleton in H. discriminate.
Qed.

(** Where the keys are unambiguous the round trip holds: over a
    universe whose elements contain no [|] character, if every pair of
    H has both endpoints in U and H is acyclic and irredundant, then the
    closure returns a relation R and [coversFromRelation] applied to R
    (with the key set of R) returns, as a set of pairs, exactly H. *)
Theorem closure_then_reduce (U : list Elem) (H : list Pair) :
  forallb barFree U = true →
  (∀ a b, (a, b) ∈ H → a ∈ U ∧ b ∈ U) →
  Acyclic H → Irredundant H →
  ∃ R, transitiveClosureFromCovers U H = Some R ∧
       ∀ p, p ∈ coversFromRelation U R (relationSet R) ↔ p ∈ H.
Proof.
  intros HU Hdom Hacyc Hirr.
  destruct (transitiveClosureFromCovers_total U H) as [R HR].
  exists R. split; [assumption|].
  pose proof (closure_sound U H R HR) as Hsound.
  pose proof (closure_complete U H R HU HR) as Hcomplete.
  assert (Hkey : ∀ a c, a ∈ U → c ∈ U →
                        pairKey a c ∈ relationSet R ↔ (a, c) ∈ R).
  { intros a c Ha Hc. apply relationSet_pair; eauto using forallb_barFree. }
  intros [a b]. rewrite elem_of_coversFromRelation. unfold keepCover. cbn.
  rewrite isCover_true. split.
  - intros (HabR & Hne & Ha & Hb & Hcover).
    destruct (Hsound a b HabR) as [_ [? | Htc]]; [contradiction|].
    apply tc_cases in Htc as [Hedge | (c & Hac & Hcb)]; [exact Hedge|].
    exfalso. destruct (Hdom a c Hac) as [_ Hc].
    apply (Hcover c Hc).
    + intros ->. apply (Hacyc a). now apply tc_once.
    + intros ->. now apply (Hacyc b).
    + rewrite !Hkey by assumption. split.
      * apply (Hcomplete a Ha). now apply tc_once.
      * now apply (Hcomplete c Hc).
  - intros Hab. destruct (Hdom a b Hab) as [Ha Hb].
    assert (Hne : a ≠ b).
    { intros ->. apply (Hacyc b). now apply tc_once. }
    split; [apply (Hcomplete a Ha); now apply tc_once|].
    split; [assumption|]. split; [assumption|]. split; [assumption|].
    intros c Hc Hca Hcb. rewrite !Hkey by assumption. intros [HacR HcbR].
    destruct (Hsound a c HacR) as [_ [? | Hac]]; [congruence|].
    destruct (Hsound c b HcbR) as [_ [? | Hcb']]; [congruence|].
    destruct (tc_avoid H a b a c Hac) as [Hac' | [_ Hbc]].
    2: { apply (Hacyc b). eapply tc_rtc_l; eassumption. }
    destruct (tc_avoid H a b c b Hcb') as [Hcb'' | [Hca' _]].
    2: { apply (Hacyc a). eapply tc_rtc_r; eassumption. }
    apply (Hirr a b Hab). eauto.
Qed.

Lemma chain_acyclic : Acyclic [("1", "2"); ("2", "3")].
Proof.
  apply (acyclic_by_rank _
           (λ s, match s with String c _ => nat_of_ascii c | _ => 0 end)).
  intros a b Hab.
  repeat (apply elem_of_cons in Hab as [Hab | Hab];
          [injection Hab as -> ->; vm_compute; lia|]).
  inversion Hab.
Qed.

Lemma chain_irredundant : Irredundant [("1", "2"); ("2", "3")].
Proof.
  intros a b Hab (c & Hac & _).
  apply tc_first_step in Hac as (z & [Hin Hne] & _).
  repeat (apply elem_of_cons in Hab as [Hab | Hab];
          [injection Hab as -> ->;
           repeat (apply elem_of_cons in Hin as [Hin | Hin];
                   [injection Hin as ?; congruence|]);
           inversion Hin|]).
  inversion Hab.
Qed.

Lemma closure_then_reduce_witness :
  ∃ R, transitiveClosureFromCovers ["1"; "2"; "3"] [("1", "2"); ("2", "3")]
       = Some R ∧
       ∀ p, p ∈ coversFromRelation ["1"; "2"; "3"] R (relationSet R)
            ↔ p ∈ [("1", "2"); ("2", "3")].
Proof.
  apply (closure_then_reduce ["1"; "2"; "3"] [("1", "2"); ("2", "3")]).
  - reflexivity.
  - intros a b Hab.
    repeat (apply elem_of_cons in Hab as [Hab | Hab];
            [injection Hab as -> ->; split; set_solver|]).
    inversion Hab.
  - exact chain_acyclic.
  - exact chain_irredundant.
Defined.

(** *** layoutHasse: the worklist loop *)

Lemma relax_step (fuel : nat) (succs : gmap string (list string))
    (levelMap : gmap string Z) (v : Elem) (queue : list Elem) :
  relax (S fuel) succs (levelMap, v :: queue) =
  let st' := fold_left (relaxEdge (default 0%Z (levelMap !! v)))
                       (default [] (succs !! v)) (levelMap, queue) in
  if (Number.maxArrayLength <? Z.of_nat (length st'.2))%Z then None
  else relax fuel succs st'.
Proof. reflexivity. Qed.

(** A round of a run that gives a level map raised no error. *)
Lemma relax_step_some (fuel : nat) (succs : gmap string (list string))
    (levelMap : gmap string Z) (v : Elem) (queue : list Elem)
    (result : gmap string Z) :
  relax (S fuel) succs (levelMap, v :: queue) = Some result →
  relax fuel succs
        (fold_left (relaxEdge (default 0%Z (levelMap !! v)))
                   (default [] (succs !! v)) (levelMap, queue))
  = Some result ∧
  (Z.of_nat (length (fold_left (relaxEdge (default 0%Z (levelMap !! v)))
                       (default [] (succs !! v)) (levelMap, queue)).2)
   ≤ Number.maxArrayLength)%Z.
Proof.
  rewrite relax_step. cbn zeta.
  destruct (Z.ltb_spec Number.maxArrayLength
              (Z.of_nat (length (fold_left
                 (relaxEdge (default 0%Z (levelMap !! v)))
                 (default [] (succs !! v)) (levelMap, queue)).2)));
    [discriminate | intros Hrun; split; [exact Hrun | lia]].
Qed.

Lemma relax_step_fits (fuel : nat) (succs : gmap string (list string))
    (levelMap : gmap string Z) (v : Elem) (queue : list Elem) :
  (Z.of_nat (length (fold_left (relaxEdge (default 0%Z (levelMap !! v)))
                       (default [] (succs !! v)) (levelMap, queue)).2)
   ≤ Number.maxArrayLength)%Z →
  relax (S fuel) succs (levelMap, v :: queue) =
  relax fuel succs
        (fold_left (relaxEdge (default 0%Z (levelMap !! v)))
                   (default [] (succs !! v)) (levelMap, queue)).
Proof.
  intros Hfits. rewrite relax_step. cbn zeta.
  destruct (Z.ltb_spec Number.maxArrayLength
              (Z.of_nat (length (fold_left
                 (relaxEdge (default 0%Z (levelMap !! v)))
                 (default [] (succs !! v)) (levelMap, queue)).2)));
    [lia | reflexivity].
Qed.

(** A run that ends within some budget ends, with the same level map,
    within every larger one. *)
Lemma relax_more_fuel (succs : gmap string (list string)) (fuel k : nat) :
  ∀ st levelMap,
    relax fuel succs st = Some levelMap →
    relax (fuel + k) succs st = Some levelMap.
Proof.
  induction fuel as [|fuel IH]; intros [lm queue] levelMap Hrun.
  - destruct queue; [|discriminate]. injection Hrun as <-.
    destruct k; reflexivity.
  - destruct queue as [|v queue]; [exact Hrun|].
    apply relax_step_some in Hrun as [Hrun Hfits]. cbn [Nat.add].
    rewrite relax_step_fits by exact Hfits. now apply IH.
Qed.

(** *** layoutHasse: levels along cover pairs *)

(** Effect of relaxing the successors [ws] of an element of level [lv]:
    the queue is extended, only queued elements change level, levels
    never decrease, and every successor ends with at least the
    candidate level. *)
Lemma relaxEdge_fold (lv : Z) (ws : list Elem) :
  ∀ (levelMap : gmap string Z) (queue : list Elem),
    let st' := fold_left (relaxEdge lv) ws (levelMap, queue) in
    (∃ pushed, st'.2 = queue ++ pushed ∧
               ∀ u, st'.1 !! u ≠ levelMap !! u → u ∈ pushed) ∧
    (∀ u l, levelMap !! u = Some l →
            ∃ l', st'.1 !! u = Some l' ∧ (l ≤ l')%Z) ∧
    (∀ w, w ∈ ws → ∃ l', st'.1 !! w = Some l' ∧ (Number.fadd lv 1 ≤ l')%Z).
Proof.
  induction ws as [|w ws IH]; intros levelMap queue; cbn zeta.
  - cbn. split; [|split].
    + exists []. split; [now rewrite app_nil_r | congruence].
    + intros u l Hu. exists l. split; [assumption | lia].
    + intros w Hw. inversion Hw.
  - cbn [fold_left].
    (* one edge *)
    assert (Hone : ∃ m1 p1,
               relaxEdge lv (levelMap, queue) w = (m1, queue ++ p1) ∧
               (∀ u, m1 !! u ≠ levelMap !! u → u ∈ p1) ∧
               (∀ u l, levelMap !! u = Some l →
                       ∃ l', m1 !! u = Some l' ∧ (l ≤ l')%Z) ∧
               (∃ l', m1 !! w = Some l' ∧ (Number.fadd lv 1 ≤ l')%Z)).
    { unfold relaxEdge. cbn [fst snd].
      destruct (levelMap !! w) as [cur|] eqn:E.
      - rewrite Z.gtb_ltb.
        destruct (Z.ltb_spec cur (Number.fadd lv 1)) as [Hlt | Hge].
        + exists (<[w := (Number.fadd lv 1)]> levelMap), [w].
          split; [reflexivity|]. split; [|split].
          * intros u Hu. destruct (decide (u = w)) as [-> | Hne]; [now left|].
            now rewrite lookup_insert_ne in Hu.
          * intros u l Hu. destruct (decide (u = w)) as [-> | Hne].
            -- rewrite lookup_insert_eq. exists (Number.fadd lv 1).
               split; [reflexivity|]. rewrite E in Hu. injection Hu as <-. lia.
            -- rewrite lookup_insert_ne by congruence. exists l.
               split; [assumption | lia].
          * exists (Number.fadd lv 1). rewrite lookup_insert_eq.
            split; [reflexivity | lia].
        + exists levelMap, []. rewrite app_nil_r.
          split; [reflexivity|]. split; [congruence|]. split.
          * intros u l Hu. exists l. split; [assumption | lia].
          * exists cur. split; [assumption | lia].
      - exists (<[w := (Number.fadd lv 1)]> levelMap), [w].
        split; [reflexivity|]. split; [|split].
        + intros u Hu. destruct (decide (u = w)) as [-> | Hne]; [now left|].
          now rewrite lookup_insert_ne in Hu.
        + intros u l Hu. destruct (decide (u = w)) as [-> | Hne]; [congruence|].
          rewrite lookup_insert_ne by congruence. exists l.
          split; [assumption | lia].
        + exists (Number.fadd lv 1). rewrite lookup_insert_eq.
          split; [reflexivity | lia]. }
    destruct Hone as (m1 & p1 & -> & Hch1 & Hmono1 & (l1 & Hw1 & Hl1)).
    destruct (IH m1 (queue ++ p1)) as ((p2 & Hq2 & Hch2) & Hmono2 & Hall2).
    split; [|split].
    + exists (p1 ++ p2). split; [now rewrite Hq2, app_assoc|].
      intros u Hu. apply elem_of_app.
      destruct (decide (m1 !! u = levelMap !! u)) as [E | E].
      * right. apply Hch2. congruence.
      * left. now apply Hch1.
    + intros u l Hu. destruct (Hmono1 u l Hu) as (l' & Hu' & Hle).
      destruct (Hmono2 u l' Hu') as (l'' & Hu'' & Hle').
      exists l''. split; [assumption | lia].
    + intros x Hx. apply elem_of_cons in Hx as [-> | Hx]; [|now apply Hall2].
      destruct (Hmono2 w l1 Hw1) as (l' & Hw' & Hle).
      exists l'. split; [assumption | lia].
Qed.

Lemma relax_settled (succs : gmap string (list string)) (fuel : nat) :
  ∀ st levelMap,
    Settled succs st → relax fuel succs st = Some levelMap →
    ∀ v lv, levelMap !! v = Some lv →
            ∀ w, w ∈ default [] (succs !! v) →
                 ∃ lw, levelMap !! w = Some lw ∧ (Number.fadd lv 1 ≤ lw)%Z.
Proof.
  induction fuel as [|fuel IH]; intros [lm queue] levelMap Hinv Hrun.
  - destruct queue; [|discriminate]. injection Hrun as <-.
    intros v lv Hv. apply (Hinv v lv Hv). cbn. apply not_elem_of_nil.
  - destruct queue as [|v queue].
    { injection Hrun as <-.
      intros v lv Hv. apply (Hinv v lv Hv). cbn. apply not_elem_of_nil. }
    apply relax_step_some in Hrun as [Hrun _].
    apply (IH _ _) with (2 := Hrun).
    destruct (relaxEdge_fold (default 0%Z (lm !! v))
                (default [] (succs !! v)) lm queue)
      as ((pushed & Hq & Hch) & Hmono & Hall).
    intros u lu Hu Hnq w Hw. rewrite Hq in Hnq.
    apply not_elem_of_app in Hnq as [Hnq Hnp].
    assert (Hsame : lm !! u = Some lu).
    { destruct (decide ((fold_left (relaxEdge (default 0%Z (lm !! v)))
                           (default [] (succs !! v)) (lm, queue)).1 !! u
                        = lm !! u)) as [E | E]; [congruence|].
      exfalso. now apply Hnp, Hch. }
    destruct (decide (u = v)) as [-> | Hne].
    + assert (Hlv : default 0%Z (lm !! v) = lu) by now rewrite Hsame.
      destruct (Hall w Hw) as (l' & Hw' & Hle). rewrite Hlv in Hle.
      exists l'. split; [assumption | lia].
    + destruct (Hinv u lu Hsame) with (w := w) as (lw & Hlw & Hlt);
        [cbn; intros H; apply elem_of_cons in H as [? | ?]; tauto
        | assumption |].
      destruct (Hmono w lw Hlw) as (l' & Hw' & Hle).
      exists l'. split; [assumption | lia].
Qed.

(** Every element given a level before the loop is queued. *)
Lemma seed_queued (preds : gmap string (list string)) (universe : list Elem) :
  ∀ st, (∀ v, is_Some (st.1 !! v) → v ∈ st.2) →
        ∀ v, is_Some ((fold_left (seedMinimal preds) universe st).1 !! v) →
             v ∈ (fold_left (seedMinimal preds) universe st).2.
Proof.
  induction universe as [|u universe IH]; intros st Hst; [exact Hst|].
  cbn [fold_left]. apply IH. unfold seedMinimal.
  destruct (length (default [] (preds !! u)) =? 0)%nat; [|exact Hst].
  cbn [fst snd]. intros v Hv. apply elem_of_app.
  destruct (decide (v = u)) as [-> | Hne].
  - right. now left.
  - left. apply Hst. now rewrite lookup_insert_ne in Hv.
Qed.

Lemma initial_settled (succs preds : gmap string (list string))
    (universe : list Elem) :
  Settled succs (initialLevels universe preds).
Proof.
  assert (Hq : ∀ v, is_Some ((initialLevels universe preds).1 !! v) →
                    v ∈ (initialLevels universe preds).2).
  { unfold initialLevels.
    pose proof (seed_queued preds universe (∅, [])) as Hseed.
    destruct (fold_left (seedMinimal preds) universe (∅, [])) as [lm q] eqn:E.
    cbn [fst snd] in *.
    assert (Hlm : ∀ v, is_Some (lm !! v) → v ∈ q).
    { apply Hseed. intros v [x Hx]. now rewrite lookup_empty in Hx. }
    destruct q as [|q0 q]; [|exact Hlm].
    destruct universe as [|u0 universe]; [exact Hlm|].
    cbn [fst snd]. intros v Hv.
    destruct (decide (v = u0)) as [-> | Hne]; [now left|].
    rewrite lookup_insert_ne in Hv by congruence.
    apply Hlm in Hv. inversion Hv. }
  intros v lv Hv Hnq. exfalso. apply Hnq, Hq. eauto.
Qed.

(** The successor sets hold every cover pair inside the universe. *)
Lemma emptySets_lookup (universe : list Elem) (u : Elem) :
  u ∈ universe → is_Some (emptySets universe !! u).
Proof.
  unfold emptySets.
  assert (Hgen : ∀ m : gmap string (list string),
             u ∈ universe ∨ is_Some (m !! u) →
             is_Some (fold_left (λ m u, <[u := []]> m) universe m !! u)).
  { induction universe as [|x universe IH]; intros m H; cbn [fold_left].
    - destruct H as [H | H]; [inversion H | exact H].
    - apply IH. destruct (decide (u = x)) as [-> | Hne].
      + right. rewrite lookup_insert_eq. eauto.
      + destruct H as [H | H].
        * apply elem_of_cons in H as [? | H]; [contradiction | now left].
        * right. now rewrite lookup_insert_ne. }
  intros Hu. apply Hgen. now left.
Qed.

Lemma elem_of_setAdd (x y : Elem) (s : list Elem) :
  y ∈ setAdd x s ↔ y = x ∨ y ∈ s.
Proof.
  unfold setAdd. case_decide as Hx.
  - split; [tauto | intros [-> | ?]; assumption].
  - rewrite elem_of_app, list_elem_of_singleton. tauto.
Qed.

Lemma linkCover_fold_succs (universe : list Elem) (covers : list Pair) :
  ∀ ps a b,
    is_Some (ps.2 !! a) →
    (b ∈ default [] (ps.2 !! a) ∨
     ((a, b) ∈ covers ∧ a ∈ universe ∧ b ∈ universe)) →
    b ∈ default [] ((fold_left (linkCover universe) covers ps).2 !! a).
Proof.
  induction covers as [|p covers IH]; intros ps a b Ha Hb; cbn [fold_left].
  - destruct Hb as [Hb | [Hb _]]; [exact Hb | inversion Hb].
  - apply IH.
    + unfold linkCover.
      destruct (negb (bool_decide (p.1 ∈ universe))
                || negb (bool_decide (p.2 ∈ universe))); [exact Ha|].
      cbn [snd]. destruct Ha as [l Hl].
      destruct (decide (p.1 = a)) as [-> | Hne].
      * rewrite lookup_alter_eq, Hl. cbn. eauto.
      * rewrite lookup_alter_ne by assumption. eauto.
    + unfold linkCover.
      destruct (bool_decide (p.1 ∈ universe)) eqn:E1;
        destruct (bool_decide (p.2 ∈ universe)) eqn:E2; cbn [negb orb snd].
      * destruct Ha as [l Hl]. destruct (decide (p.1 = a)) as [<- | Hne].
        -- rewrite lookup_alter_eq, Hl. cbn. rewrite Hl in Hb. cbn in Hb.
           rewrite elem_of_setAdd.
           destruct Hb as [Hb | [Hb Hu]]; [tauto|].
           apply elem_of_cons in Hb as [Hb | Hb]; [|tauto].
           left. left. destruct p. cbn in *. congruence.
        -- rewrite lookup_alter_ne by assumption.
           destruct Hb as [Hb | [Hb Hu]]; [tauto|].
           apply elem_of_cons in Hb as [Hb | Hb]; [|tauto].
           destruct p. cbn in *. congruence.
      * destruct Hb as [Hb | [Hb [Hu1 Hu2]]]; [tauto|].
        apply elem_of_cons in Hb as [Hb | Hb]; [|tauto].
        apply bool_decide_eq_false_1 in E2. destruct p. cbn in *.
        exfalso. apply E2. congruence.
      * destruct Hb as [Hb | [Hb [Hu1 Hu2]]]; [tauto|].
        apply elem_of_cons in Hb as [Hb | Hb]; [|tauto].
        apply bool_decide_eq_false_1 in E1. destruct p. cbn in *.
        exfalso. apply E1. congruence.
      * destruct Hb as [Hb | [Hb [Hu1 Hu2]]]; [tauto|].
        apply elem_of_cons in Hb as [Hb | Hb]; [|tauto].
        apply bool_decide_eq_false_1 in E1. destruct p. cbn in *.
        exfalso. apply E1. congruence.
Qed.

Lemma succs_cover (universe : list Elem) (covers : list Pair) (a b : Elem) :
  (a, b) ∈ covers → a ∈ universe → b ∈ universe →
  b ∈ default [] ((buildPredsSuccs universe covers).2 !! a).
Proof.
  intros Hab Ha Hb. unfold buildPredsSuccs.
  apply linkCover_fold_succs; [now apply emptySets_lookup | tauto].
Qed.

Lemma fillMissing_keeps (universe : list Elem) :
  ∀ (levelMap : gmap string Z) v l,
    levelMap !! v = Some l → fillMissing universe levelMap !! v = Some l.
Proof.
  unfold fillMissing.
  induction universe as [|u universe IH]; intros levelMap v l Hv;
    [exact Hv|].
  cbn [fold_left]. apply IH.
  destruct (levelMap !! u) eqn:E; [exact Hv|].
  rewrite lookup_insert_ne by congruence. exact Hv.
Qed.

(** Levels, once given, are kept (and only raised) by the loop. *)
Lemma relax_keeps (succs : gmap string (list string)) (fuel : nat) :
  ∀ st levelMap u l,
    st.1 !! u = Some l → relax fuel succs st = Some levelMap →
    ∃ l', levelMap !! u = Some l' ∧ (l ≤ l')%Z.
Proof.
  induction fuel as [|fuel IH]; intros [lm queue] levelMap u l Hu Hrun.
  - destruct queue; [|discriminate]. injection Hrun as <-.
    exists l. split; [exact Hu | lia].
  - destruct queue as [|v queue].
    { injection Hrun as <-. exists l. split; [exact Hu | lia]. }
    apply relax_step_some in Hrun as [Hrun _].
    destruct (relaxEdge_fold (default 0%Z (lm !! v))
                (default [] (succs !! v)) lm queue) as (_ & Hmono & _).
    destruct (Hmono u l Hu) as (l1 & Hu1 & Hle1).
    destruct (IH _ levelMap u l1 Hu1 Hrun) as (l' & Hu' & Hle').
    exists l'. split; [assumption | lia].
Qed.

Lemma seed_keeps (preds : gmap string (list string)) (universe : list Elem) :
  ∀ st u, is_Some (st.1 !! u) →
          is_Some ((fold_left (seedMinimal preds) universe st).1 !! u).
Proof.
  induction universe as [|x universe IH]; intros st u Hu; [exact Hu|].
  cbn [fold_left]. apply IH. unfold seedMinimal.
  destruct (length (default [] (preds !! x)) =? 0)%nat; [|exact Hu].
  cbn [fst]. destruct (decide (u = x)) as [-> | Hne].
  - rewrite lookup_insert_eq. eauto.
  - now rewrite lookup_insert_ne.
Qed.

Lemma seed_minimal (preds : gmap string (list string)) (universe : list Elem)
    (u : Elem) :
  u ∈ universe → default [] (preds !! u) = [] →
  ∀ st, is_Some ((fold_left (seedMinimal preds) universe st).1 !! u).
Proof.
  intros Hu Hp. induction universe as [|x universe IH]; intros st;
    [inversion Hu|].
  cbn [fold_left]. destruct (decide (u = x)) as [<- | Hne].
  - apply seed_keeps. unfold seedMinimal. rewrite Hp. cbn.
    rewrite lookup_insert_eq. eauto.
  - apply IH. apply elem_of_cons in Hu as [? | Hu]; [contradiction | exact Hu].
Qed.

Lemma initial_minimal (preds : gmap string (list string))
    (universe : list Elem) (u : Elem) :
  u ∈ universe → default [] (preds !! u) = [] →
  is_Some ((initialLevels universe preds).1 !! u).
Proof.
  intros Hu Hp. unfold initialLevels.
  pose proof (seed_minimal preds universe u Hu Hp (∅, [])) as Hseed.
  destruct (fold_left (seedMinimal preds) universe (∅, [])) as [lm q].
  cbn [fst snd] in *.
  destruct q; [|exact Hseed]. destruct universe as [|u0 universe];
    [exact Hseed|]. cbn [fst].
  destruct (decide (u = u0)) as [-> | Hne].
  - rewrite lookup_insert_eq. eauto.
  - now rewrite lookup_insert_ne.
Qed.

Lemma linkCover_fold_preds (universe : list Elem) (covers : list Pair) :
  ∀ ps a b,
    a ∈ default [] ((fold_left (linkCover universe) covers ps).1 !! b) →
    a ∈ default [] (ps.1 !! b) ∨
    ((a, b) ∈ covers ∧ a ∈ universe ∧ b ∈ universe).
Proof.
  induction covers as [|p covers IH]; intros ps a b Hab; cbn [fold_left] in Hab.
  - now left.
  - apply IH in Hab as [Hab | (Hab & Ha & Hb)].
    2: { right. split; [now right | tauto]. }
    unfold linkCover in Hab.
    destruct (bool_decide (p.1 ∈ universe)) eqn:E1;
      destruct (bool_decide (p.2 ∈ universe)) eqn:E2;
      cbn [negb orb fst] in Hab; try (now left).
    apply bool_decide_eq_true_1 in E1, E2.
    destruct (decide (p.2 = b)) as [<- | Hne].
    + rewrite lookup_alter_eq in Hab.
      destruct (ps.1 !! p.2) as [l|] eqn:El; cbn in Hab.
      * apply elem_of_setAdd in Hab as [-> | Hab].
        -- right. split; [|tauto]. destruct p. now left.
        -- left. exact Hab.
      * inversion Hab.
    + rewrite lookup_alter_ne in Hab by assumption. now left.
Qed.

Lemma emptySets_default (universe : list Elem) (u : Elem) :
  default [] (emptySets universe !! u) = [].
Proof.
  unfold emptySets.
  assert (Hgen : ∀ m : gmap string (list string),
             default [] (m !! u) = [] →
             default [] (fold_left (λ m u, <[u := []]> m) universe m !! u) = []).
  { induction universe as [|x universe IH]; intros m H; cbn [fold_left];
      [exact H|].
    apply IH. destruct (decide (u = x)) as [-> | Hne].
    - now rewrite lookup_insert_eq.
    - now rewrite lookup_insert_ne. }
  apply Hgen. now rewrite lookup_empty.
Qed.

(** What "reached" covers: when the loop ends, every element of the
    universe without a predecessor in the universe is reached, and the
    target of a cover pair inside the universe is reached with its
    source. *)
Lemma reached_minimal (fuel : nat) (universe : list Elem)
    (covers : list Pair) (u : Elem) :
  is_Some (relaxedLevels fuel universe covers) →
  u ∈ universe →
  (∀ x, (x, u) ∈ covers → x ∉ universe) →
  reached fuel universe covers u.
Proof.
  intros [lm Hrun] Hu Hnopred. exists lm. split; [exact Hrun|].
  unfold relaxedLevels in Hrun. cbn zeta in Hrun.
  assert (Hp : default [] ((buildPredsSuccs universe covers).1 !! u) = []).
  { destruct (default [] ((buildPredsSuccs universe covers).1 !! u))
      as [|x l] eqn:E; [reflexivity|]. exfalso.
    assert (Hx : x ∈ default [] ((buildPredsSuccs universe covers).1 !! u))
      by (rewrite E; now left).
    unfold buildPredsSuccs in Hx.
    apply linkCover_fold_preds in Hx as [Hx | (Hx & Hxu & _)].
    - cbn [fst] in Hx. rewrite emptySets_default in Hx. inversion Hx.
    - exact (Hnopred x Hx Hxu). }
  destruct (initial_minimal _ universe u Hu Hp) as [l Hl].
  destruct (relax_keeps _ fuel _ lm u l Hl Hrun) as (l' & Hl' & _). eauto.
Qed.

Lemma reached_successor (fuel : nat) (universe : list Elem)
    (covers : list Pair) (a b : Elem) :
  reached fuel universe covers a →
  (a, b) ∈ covers → a ∈ universe → b ∈ universe →
  reached fuel universe covers b.
Proof.
  intros (lm & Hrun & [la Hla]) Hab Ha Hb. exists lm. split; [exact Hrun|].
  unfold relaxedLevels in Hrun. cbn zeta in Hrun.
  destruct (relax_settled _ fuel _ lm
              (initial_settled _ _ universe) Hrun a la Hla b
              (succs_cover universe covers a b Hab Ha Hb))
    as (lb & Hlb & _).
  eauto.
Qed.

(** C8, as stated, fails on a cycle that the relaxation never reaches:
    with the universe {"a", "b", "r"} and the cover pairs ("a", "b"),
    ("b", "a"), only "r" has no predecessor; the loop ends at once, "a"
    and "b" both receive the default level 0, and the pair ("a", "b")
    is drawn sideways. *)
Lemma layout_unreached_cycle_is_flat :
  ("a", "b") ∈ [("a", "b"); ("b", "a")] ∧
  "a" ∈ ["a"; "b"; "r"] ∧ "b" ∈ ["a"; "b"; "r"] ∧
  ∃ levelMap,
    layoutHasseLevels 1 ["a"; "b"; "r"] [("a", "b"); ("b", "a")]
      = Some levelMap ∧
    levelMap !! "a" = Some 0%Z ∧ levelMap !! "b" = Some 0%Z.
Proof.
  split; [now left|]. split; [now left|]. split; [right; now left|].
  eexists. split; [vm_compute; reflexivity|].
  split; vm_compute; reflexivity.
Qed.


(** *** The symmetry, antisymmetry and transitivity scans *)

(** A scan that stops at the first bad element either finds none or
    splits the list at the first one. *)
Lemma find_first {A} (bad : A → bool) (l : list A) :
  match find bad l with
  | None => ∀ x, x ∈ l → bad x = false
  | Some p => ∃ pre post, l = pre ++ p :: post ∧
                          (∀ x, x ∈ pre → bad x = false) ∧ bad p = true
  end.
Proof.
  induction l as [|x l IH]; cbn.
  - intros x Hx. inversion Hx.
  - destruct (bad x) eqn:Hb.
    + exists [], l. split; [reflexivity|]. split; [|assumption].
      intros y Hy. inversion Hy.
    + destruct (find bad l) as [p|].
      * destruct IH as (pre & post & -> & Hpre & Hp).
        exists (x :: pre), post. split; [reflexivity|]. split; [|assumption].
        intros y Hy. apply elem_of_cons in Hy as [->|Hy]; auto.
      * intros y Hy. apply elem_of_cons in Hy as [->|Hy]; auto.
Qed.

Lemma symmetricCheck_find (relSet : gset string) (pairs : list Pair) :
  symmetricCheck relSet pairs =
  match find (λ p, negb (bool_decide (pairKey p.2 p.1 ∈ relSet))) pairs with
  | Some p => (false, Some p)
  | None => (true, None)
  end.
Proof.
  induction pairs as [|p pairs IH]; [reflexivity|]. cbn.
  destruct (bool_decide (pairKey p.2 p.1 ∈ relSet)); [exact IH | reflexivity].
Qed.

Lemma antisymmetricCheck_find (relSet : gset string) (pairs : list Pair) :
  antisymmetricCheck relSet pairs =
  match find (λ p, negb (bool_decide (p.1 = p.2))
                   && bool_decide (pairKey p.2 p.1 ∈ relSet)) pairs with
  | Some p => (false, Some p)
  | None => (true, None)
  end.
Proof.
  induction pairs as [|p pairs IH]; [reflexivity|]. cbn.
  destruct (negb (bool_decide (p.1 = p.2))
            && bool_decide (pairKey p.2 p.1 ∈ relSet));
    [reflexivity | exact IH].
Qed.

Lemma transitiveInner_find (relSet : gset string) (ab : Pair)
    (pairs : list Pair) :
  transitiveInner relSet ab pairs =
  (λ cd : Pair, (ab, cd, (ab.1, cd.2))) <$>
  find (λ cd, bool_decide (ab.2 = cd.1)
              && negb (bool_decide (pairKey ab.1 cd.2 ∈ relSet))) pairs.
Proof.
  induction pairs as [|cd pairs IH]; [reflexivity|]. cbn.
  destruct (bool_decide (ab.2 = cd.1)
            && negb (bool_decide (pairKey ab.1 cd.2 ∈ relSet)));
    [reflexivity | exact IH].
Qed.

Lemma transitiveCheck_find (relSet : gset string) (all pairs : list Pair) :
  transitiveCheck relSet all pairs =
  match find (λ ab, bool_decide (is_Some (transitiveInner relSet ab all)))
             pairs with
  | Some ab => (false, transitiveInner relSet ab all)
  | None => (true, None)
  end.
Proof.
  induction pairs as [|ab pairs IH]; [reflexivity|]. cbn.
  destruct (transitiveInner relSet ab all) as [w|] eqn:E.
  - rewrite bool_decide_eq_true_2 by eauto. now rewrite E.
  - rewrite bool_decide_eq_false_2 by (intros [? ?]; discriminate).
    exact IH.
Qed.

Lemma pairsBarFree_elem (R : list Pair) (a b : Elem) :
  pairsBarFree R = true → (a, b) ∈ R → barFree a = true ∧ barFree b = true.
Proof.
  unfold pairsBarFree. rewrite forallb_forall. intros HR Hab.
  apply list_elem_of_In in Hab. apply HR in Hab. cbn in Hab.
  now apply andb_prop in Hab.
Qed.

Lemma relationSet_rev (R : list Pair) (a b : Elem) :
  pairsBarFree R = true → (a, b) ∈ R →
  pairKey b a ∈ relationSet R ↔ (b, a) ∈ R.
Proof.
  intros HR Hab. destruct (pairsBarFree_elem R a b HR Hab).
  now apply relationSet_pair.
Qed.

Lemma symmetric_flag_iff (U : list Elem) (R : list Pair) :
  pairsBarFree R = true →
  symmetric (relationProps U R (relationSet R)) = true ↔ SymmetricRel R.
Proof.
  intros HR. unfold relationProps. cbn [symmetric].
  rewrite symmetricCheck_find.
  pose proof (find_first
    (λ p : Pair, negb (bool_decide (pairKey p.2 p.1 ∈ relationSet R))) R)
    as Hfind.
  destruct (find _ R) as [[a0 b0]|]; cbn [fst].
  - destruct Hfind as (pre & post & HRsplit & _ & Hbad).
    cbn in Hbad. apply negb_true_iff, bool_decide_eq_false_1 in Hbad.
    assert (Hin : (a0, b0) ∈ R).
    { rewrite HRsplit. apply elem_of_app. right. now left. }
    rewrite relationSet_rev in Hbad by assumption.
    split; [discriminate|]. intros Hsym. exfalso. apply Hbad. now apply Hsym.
  - split; [|reflexivity].
    intros _ a b Hab. specialize (Hfind (a, b) Hab). cbn in Hfind.
    apply negb_false_iff, bool_decide_eq_true_1 in Hfind.
    now apply (relationSet_rev R a b).
Qed.

Lemma antisymmetric_flag_iff (U : list Elem) (R : list Pair) :
  pairsBarFree R = true →
  antisymmetric (relationProps U R (relationSet R)) = true
  ↔ AntisymmetricRel R.
Proof.
  intros HR. unfold relationProps. cbn [antisymmetric].
  rewrite antisymmetricCheck_find.
  pose proof (find_first
    (λ p : Pair, negb (bool_decide (p.1 = p.2))
                 && bool_decide (pairKey p.2 p.1 ∈ relationSet R)) R)
    as Hfind.
  destruct (find _ R) as [[a0 b0]|]; cbn [fst].
  - destruct Hfind as (pre & post & HRsplit & _ & Hbad).
    cbn in Hbad. apply andb_prop in Hbad as [Hne Hrev].
    apply negb_true_iff, bool_decide_eq_false_1 in Hne.
    apply bool_decide_eq_true_1 in Hrev.
    assert (Hin : (a0, b0) ∈ R).
    { rewrite HRsplit. apply elem_of_app. right. now left. }
    rewrite relationSet_rev in Hrev by assumption.
    split; [discriminate|]. intros Hanti. exfalso.
    apply Hne. now apply Hanti.
  - split; [|reflexivity].
    intros _ a b Hab Hba. specialize (Hfind (a, b) Hab). cbn in Hfind.
    destruct (decide (a = b)) as [?|Hne]; [assumption|]. exfalso.
    rewrite bool_decide_eq_false_2 in Hfind by assumption. cbn in Hfind.
    apply bool_decide_eq_false_1 in Hfind. apply Hfind.
    now apply (relationSet_rev R a b).
Qed.

Lemma relationSet_composite (R : list Pair) (a b c d : Elem) :
  pairsBarFree R = true → (a, b) ∈ R → (c, d) ∈ R →
  pairKey a d ∈ relationSet R ↔ (a, d) ∈ R.
Proof.
  intros HR Hab Hcd.
  destruct (pairsBarFree_elem R a b HR Hab).
  destruct (pairsBarFree_elem R c d HR Hcd).
  now apply relationSet_pair.
Qed.

Lemma transitive_flag_iff (U : list Elem) (R : list Pair) :
  pairsBarFree R = true →
  transitive (relationProps U R (relationSet R)) = true ↔ TransitiveRel R.
Proof.
  intros HR. unfold relationProps. cbn [transitive].
  rewrite transitiveCheck_find.
  pose proof (find_first
    (λ ab, bool_decide (is_Some (transitiveInner (relationSet R) ab R))) R)
    as Hfind.
  destruct (find _ R) as [[a0 b0]|]; cbn [fst].
  - destruct Hfind as (pre & post & HRsplit & _ & Hbad).
    apply bool_decide_eq_true_1 in Hbad as [w Hw].
    assert (Hin : (a0, b0) ∈ R).
    { rewrite HRsplit. apply elem_of_app. right. now left. }
    rewrite transitiveInner_find in Hw.
    pose proof (find_first
      (λ cd : Pair, bool_decide ((a0, b0).2 = cd.1)
         && negb (bool_decide (pairKey (a0, b0).1 cd.2 ∈ relationSet R))) R)
      as Hinner.
    destruct (find _ R) as [[c0 d0]|]; [|discriminate].
    destruct Hinner as (pre' & post' & HRsplit' & _ & Hbad').
    cbn in Hbad'. apply andb_prop in Hbad' as [Hbc Hmiss].
    apply bool_decide_eq_true_1 in Hbc.
    apply negb_true_iff, bool_decide_eq_false_1 in Hmiss.
    assert (Hin' : (c0, d0) ∈ R).
    { rewrite HRsplit'. apply elem_of_app. right. now left. }
    rewrite (relationSet_composite R a0 b0 c0 d0) in Hmiss by assumption.
    split; [discriminate|]. intros Htrans. exfalso. apply Hmiss.
    apply (Htrans a0 b0 d0); [assumption|]. now subst.
  - split; [|reflexivity].
    intros _ a b c Hab Hbc. specialize (Hfind (a, b) Hab). cbn in Hfind.
    apply bool_decide_eq_false_1 in Hfind.
    rewrite transitiveInner_find in Hfind.
    pose proof (find_first
      (λ cd : Pair, bool_decide ((a, b).2 = cd.1)
         && negb (bool_decide (pairKey (a, b).1 cd.2 ∈ relationSet R))) R)
      as Hinner.
    destruct (find _ R) as [cd|].
    { exfalso. apply Hfind. cbn. eauto. }
    specialize (Hinner (b, c) Hbc). cbn in Hinner.
    rewrite bool_decide_eq_true_2 in Hinner by reflexivity. cbn in Hinner.
    apply negb_false_iff, bool_decide_eq_true_1 in Hinner.
    now apply (relationSet_composite R a b b c).
Qed.

(** X10. Over pairs without [|] characters the symmetry flag is true
    exactly when every pair of [R] has its reverse in [R]; a reported
    witness is the first pair of [R], in list order, whose reverse is
    missing. *)
Theorem symmetric_check_spec (U : list Elem) (R : list Pair) :
  pairsBarFree R = true →
  (symmetric (relationProps U R (relationSet R)) = true ↔ SymmetricRel R) ∧
  (∀ a b, symmetricWitness (relationProps U R (relationSet R)) = Some (a, b) →
          symmetric (relationProps U R (relationSet R)) = false ∧
          ((b, a) ∉ R) ∧
          ∃ pre post, R = pre ++ (a, b) :: post ∧
                      ∀ c d, (c, d) ∈ pre → (d, c) ∈ R).
Proof.
  intros HR. split; [now apply symmetric_flag_iff|].
  unfold relationProps. cbn [symmetric symmetricWitness].
  rewrite symmetricCheck_find.
  pose proof (find_first
    (λ p : Pair, negb (bool_decide (pairKey p.2 p.1 ∈ relationSet R))) R)
    as Hfind.
  destruct (find _ R) as [[a0 b0]|]; cbn [fst snd]; [|discriminate].
  destruct Hfind as (pre & post & HRsplit & Hpre & Hbad).
  cbn in Hbad. apply negb_true_iff, bool_decide_eq_false_1 in Hbad.
  assert (Hin : (a0, b0) ∈ R).
  { rewrite HRsplit. apply elem_of_app. right. now left. }
  rewrite relationSet_rev in Hbad by assumption.
  intros a b E. injection E as <- <-. split; [reflexivity|].
  split; [assumption|]. exists pre, post. split; [assumption|].
  intros c d Hcd. specialize (Hpre (c, d) Hcd). cbn in Hpre.
  apply negb_false_iff, bool_decide_eq_true_1 in Hpre.
  apply (relationSet_rev R c d); [assumption | | assumption].
  rewrite HRsplit. apply elem_of_app. now left.
Qed.

Lemma symmetric_check_spec_witness :
  (symmetric (relationProps ["1"; "2"] [("1", "2"); ("2", "2")]
                (relationSet [("1", "2"); ("2", "2")])) = true
   ↔ SymmetricRel [("1", "2"); ("2", "2")]) ∧
  (∀ a b, symmetricWitness
            (relationProps ["1"; "2"] [("1", "2"); ("2", "2")]
               (relationSet [("1", "2"); ("2", "2")])) = Some (a, b) →
          symmetric (relationProps ["1"; "2"] [("1", "2"); ("2", "2")]
                       (relationSet [("1", "2"); ("2", "2")])) = false ∧
          ((b, a) ∉ [("1", "2"); ("2", "2")]) ∧
          ∃ pre post, [("1", "2"); ("2", "2")] = pre ++ (a, b) :: post ∧
                      ∀ c d, (c, d) ∈ pre → (d, c) ∈ [("1", "2"); ("2", "2")]).
Proof.
  apply (symmetric_check_spec ["1"; "2"] [("1", "2"); ("2", "2")]).
  reflexivity.
Defined.

(** X11. Over pairs without [|] characters the antisymmetry flag is
    true exactly when no two distinct elements are related both ways; a
    reported witness (a, b) has [a <> b] with both (a, b) and (b, a)
    in [R], and no earlier pair of [R] is such a pair. *)
Theorem antisymmetric_check_spec (U : list Elem) (R : list Pair) :
  pairsBarFree R = true →
  (antisymmetric (relationProps U R (relationSet R)) = true
   ↔ AntisymmetricRel R) ∧
  (∀ a b, antisymmetricWitness (relationProps U R (relationSet R))
          = Some (a, b) →
          antisymmetric (relationProps U R (relationSet R)) = false ∧
          a ≠ b ∧ (b, a) ∈ R ∧
          ∃ pre post, R = pre ++ (a, b) :: post ∧
                      ∀ c d, (c, d) ∈ pre → (d, c) ∈ R → c = d).
Proof.
  intros HR. split; [now apply antisymmetric_flag_iff|].
  unfold relationProps. cbn [antisymmetric antisymmetricWitness].
  rewrite antisymmetricCheck_find.
  pose proof (find_first
    (λ p : Pair, negb (bool_decide (p.1 = p.2))
                 && bool_decide (pairKey p.2 p.1 ∈ relationSet R)) R)
    as Hfind.
  destruct (find _ R) as [[a0 b0]|]; cbn [fst snd]; [|discriminate].
  destruct Hfind as (pre & post & HRsplit & Hpre & Hbad).
  cbn in Hbad. apply andb_prop in Hbad as [Hne Hrev].
  apply negb_true_iff, bool_decide_eq_false_1 in Hne.
  apply bool_decide_eq_true_1 in Hrev.
  assert (Hin : (a0, b0) ∈ R).
  { rewrite HRsplit. apply elem_of_app. right. now left. }
  rewrite relationSet_rev in Hrev by assumption.
  intros a b E. injection E as <- <-. split; [reflexivity|].
  split; [assumption|]. split; [assumption|].
  exists pre, post. split; [assumption|].
  intros c d Hcd Hdc. specialize (Hpre (c, d) Hcd). cbn in Hpre.
  destruct (decide (c = d)) as [?|Hcd']; [assumption|]. exfalso.
  rewrite bool_decide_eq_false_2 in Hpre by assumption. cbn in Hpre.
  apply bool_decide_eq_false_1 in Hpre. apply Hpre.
  apply (relationSet_rev R c d); [assumption | | assumption].
  rewrite HRsplit. apply elem_of_app. now left.
Qed.

Lemma antisymmetric_check_spec_witness :
  (antisymmetric (relationProps ["1"; "2"] [("1", "2"); ("2", "1")]
                    (relationSet [("1", "2"); ("2", "1")])) = true
   ↔ AntisymmetricRel [("1", "2"); ("2", "1")]) ∧
  (∀ a b, antisymmetricWitness
            (relationProps ["1"; "2"] [("1", "2"); ("2", "1")]
               (relationSet [("1", "2"); ("2", "1")])) = Some (a, b) →
          antisymmetric (relationProps ["1"; "2"] [("1", "2"); ("2", "1")]
                           (relationSet [("1", "2"); ("2", "1")])) = false ∧
          a ≠ b ∧ (b, a) ∈ [("1", "2"); ("2", "1")] ∧
          ∃ pre post, [("1", "2"); ("2", "1")] = pre ++ (a, b) :: post ∧
                      ∀ c d, (c, d) ∈ pre →
                             (d, c) ∈ [("1", "2"); ("2", "1")] → c = d).
Proof.
  apply (antisymmetric_check_spec ["1"; "2"] [("1", "2"); ("2", "1")]).
  reflexivity.
Defined.

(** X12. Over pairs without [|] characters the transitivity flag is
    true exactly when [R] is transitive; a reported witness consists of
    two pairs (a, b) and (b, d) of [R] and the composite (a, d), which
    is missing from [R]. *)
Theorem transitive_check_spec (U : list Elem) (R : list Pair) :
  pairsBarFree R = true →
  (transitive (relationProps U R (relationSet R)) = true ↔ TransitiveRel R) ∧
  (∀ ab bc ac, transitiveWitness (relationProps U R (relationSet R))
               = Some (ab, bc, ac) →
               transitive (relationProps U R (relationSet R)) = false ∧
               ab ∈ R ∧ bc ∈ R ∧ ab.2 = bc.1 ∧
               ac = (ab.1, bc.2) ∧ ac ∉ R).
Proof.
  intros HR. split; [now apply transitive_flag_iff|].
  unfold relationProps. cbn [transitive transitiveWitness].
  rewrite transitiveCheck_find.
  pose proof (find_first
    (λ ab, bool_decide (is_Some (transitiveInner (relationSet R) ab R))) R)
    as Hfind.
  destruct (find _ R) as [[a0 b0]|]; cbn [fst snd]; [|discriminate].
  destruct Hfind as (pre & post & HRsplit & _ & Hbad).
  apply bool_decide_eq_true_1 in Hbad as [w Hw].
  assert (Hin : (a0, b0) ∈ R).
  { rewrite HRsplit. apply elem_of_app. right. now left. }
  rewrite Hw. rewrite transitiveInner_find in Hw.
  pose proof (find_first
    (λ cd : Pair, bool_decide ((a0, b0).2 = cd.1)
       && negb (bool_decide (pairKey (a0, b0).1 cd.2 ∈ relationSet R))) R)
    as Hinner.
  destruct (find _ R) as [[c0 d0]|]; [|discriminate].
  cbn in Hw. injection Hw as <-.
  destruct Hinner as (pre' & post' & HRsplit' & _ & Hbad').
  cbn in Hbad'. apply andb_prop in Hbad' as [Hbc Hmiss].
  apply bool_decide_eq_true_1 in Hbc.
  apply negb_true_iff, bool_decide_eq_false_1 in Hmiss.
  assert (Hin' : (c0, d0) ∈ R).
  { rewrite HRsplit'. apply elem_of_app. right. now left. }
  rewrite (relationSet_composite R a0 b0 c0 d0) in Hmiss by assumption.
  intros ab bc ac E. injection E as <- <- <-. cbn. tauto.
Qed.

Lemma transitive_check_spec_witness :
  (transitive (relationProps ["1"; "2"; "3"] [("1", "2"); ("2", "3")]
                 (relationSet [("1", "2"); ("2", "3")])) = true
   ↔ TransitiveRel [("1", "2"); ("2", "3")]) ∧
  (∀ ab bc ac,
      transitiveWitness
        (relationProps ["1"; "2"; "3"] [("1", "2"); ("2", "3")]
           (relationSet [("1", "2"); ("2", "3")])) = Some (ab, bc, ac) →
      transitive (relationProps ["1"; "2"; "3"] [("1", "2"); ("2", "3")]
                    (relationSet [("1", "2"); ("2", "3")])) = false ∧
      ab ∈ [("1", "2"); ("2", "3")] ∧ bc ∈ [("1", "2"); ("2", "3")] ∧
      ab.2 = bc.1 ∧ ac = (ab.1, bc.2) ∧ (ac ∉ [("1", "2"); ("2", "3")])).
Proof.
  apply (transitive_check_spec ["1"; "2"; "3"] [("1", "2"); ("2", "3")]).
  reflexivity.
Defined.

(** X13. Over elements and pairs without [|] characters the
    classification is exact: [isPartialOrder] holds exactly for the
    relations that are reflexive on [U], antisymmetric and transitive,
    and [isEquivalence] exactly for those that are reflexive on [U],
    symmetric and transitive. *)
Theorem classification_spec (U : list Elem) (R : list Pair) :
  forallb barFree U = true → pairsBarFree R = true →
  (isPartialOrder (relationProps U R (relationSet R)) = true
   ↔ ReflexiveOn U R ∧ AntisymmetricRel R ∧ TransitiveRel R) ∧
  (isEquivalence (relationProps U R (relationSet R)) = true
   ↔ ReflexiveOn U R ∧ SymmetricRel R ∧ TransitiveRel R).
Proof.
  intros HU HR.
  pose proof (symmetric_flag_iff U R HR) as Hs.
  pose proof (antisymmetric_flag_iff U R HR) as Ha.
  pose proof (transitive_flag_iff U R HR) as Ht.
  assert (Hr : reflexive (relationProps U R (relationSet R)) = true
               ↔ ReflexiveOn U R).
  { unfold relationProps. cbn [reflexive]. rewrite reflexiveCheck_true.
    unfold ReflexiveOn. split; intros H x Hx;
      pose proof (forallb_barFree U x HU Hx);
      apply relationSet_pair; auto. }
  unfold isPartialOrder, isEquivalence.
  rewrite !andb_true_iff. rewrite Hr, Hs, Ha, Ht. tauto.
Qed.

Lemma classification_spec_witness :
  (isPartialOrder (relationProps ["1"; "2"] [("1", "1"); ("2", "2"); ("1", "2")]
                     (relationSet [("1", "1"); ("2", "2"); ("1", "2")])) = true
   ↔ ReflexiveOn ["1"; "2"] [("1", "1"); ("2", "2"); ("1", "2")] ∧
     AntisymmetricRel [("1", "1"); ("2", "2"); ("1", "2")] ∧
     TransitiveRel [("1", "1"); ("2", "2"); ("1", "2")]) ∧
  (isEquivalence (relationProps ["1"; "2"] [("1", "1"); ("2", "2"); ("1", "2")]
                    (relationSet [("1", "1"); ("2", "2"); ("1", "2")])) = true
   ↔ ReflexiveOn ["1"; "2"] [("1", "1"); ("2", "2"); ("1", "2")] ∧
     SymmetricRel [("1", "1"); ("2", "2"); ("1", "2")] ∧
     TransitiveRel [("1", "1"); ("2", "2"); ("1", "2")]).
Proof.
  apply (classification_spec ["1"; "2"] [("1", "1"); ("2", "2"); ("1", "2")]);
    reflexivity.
Defined.


(** *** Further properties of the closure *)

(** A property of the accumulators kept by [addPair] is kept by the
    whole closure. *)
Lemma search_preserves (P : ClosureState → Prop) (a : Elem)
    (adj : gmap string (list string)) (fuel : nat) :
  (∀ v st, P st → P (addPair a v st)) →
  ∀ visited stack st st',
    P st → search fuel adj a visited stack st = Some st' → P st'.
Proof.
  intros Hadd. induction fuel as [|fuel IH]; intros visited stack st st' HP Hrun.
  - destruct stack; [|discriminate]. now injection Hrun as <-.
  - destruct stack as [|v stack]; [now injection Hrun as <-|].
    cbn in Hrun. case_decide as Hv; eauto.
Qed.

Lemma closure_fold_preserves (P : ClosureState → Prop)
    (adj : gmap string (list string)) (fuel : nat) (Us : list Elem) :
  (∀ a v st, P st → P (addPair a v st)) →
  ∀ st st', P st →
            fold_left (closureFrom fuel adj) Us (Some st) = Some st' → P st'.
Proof.
  intros Hadd. induction Us as [|a Us IH]; intros st st' HP Hrun.
  - now injection Hrun as <-.
  - cbn [fold_left closureFrom] in Hrun.
    destruct (search fuel adj a ∅ (rev (default [] (adj !! a)))
                (addPair a a st)) as [st1|] eqn:Hs.
    + apply (IH st1 st'); [|assumption].
      apply (search_preserves P a adj fuel (Hadd a) _ _ _ _ (Hadd a a st HP) Hs).
    + exfalso. clear -Hrun. induction Us; cbn in Hrun; [discriminate | auto].
Qed.

Lemma addPair_keys_nodup (a b : Elem) (st : ClosureState) :
  KeysDistinct st → KeysDistinct (addPair a b st).
Proof.
  intros [Hseen Hnd]. unfold addPair. case_decide as Hk; [now split|].
  split; cbn.
  - intros k. rewrite elem_of_union, elem_of_singleton, Hseen.
    rewrite fmap_app, elem_of_app. cbn. rewrite list_elem_of_singleton. tauto.
  - rewrite fmap_app. apply NoDup_app. split; [assumption|]. split.
    + intros k Hin Hk'. cbn in Hk'. apply list_elem_of_singleton in Hk'.
      subst k. apply Hk, Hseen, Hin.
    + cbn. apply NoDup_singleton.
Qed.

(** X14. The closure never lists a pair twice, whatever the universe
    and the cover list: even the keys of the listed pairs are pairwise
    distinct. *)
Theorem closure_no_duplicates (U : list Elem) (H R : list Pair) :
  transitiveClosureFromCovers U H = Some R →
  NoDup R ∧ NoDup ((λ p : Pair, pairKey p.1 p.2) <$> R).
Proof.
  unfold transitiveClosureFromCovers, closureWithFuel. intros Hrun.
  destruct (fold_left _ U _) as [st|] eqn:Hfold; [|discriminate].
  injection Hrun as <-.
  assert (Hk : KeysDistinct st).
  { apply (closure_fold_preserves KeysDistinct _ _ U
             (λ a v s, addPair_keys_nodup a v s) _ st) in Hfold;
      [assumption|].
    split; cbn; [|apply NoDup_nil_2].
    intros k. split; intros Hin; [now apply not_elem_of_empty in Hin|].
    inversion Hin. }
  destruct Hk as [_ Hnd]. split; [|assumption].
  eapply NoDup_fmap_1. exact Hnd.
Qed.

Lemma closure_no_duplicates_witness :
  NoDup [("1", "1"); ("1", "2"); ("2", "2")] ∧
  NoDup ((λ p : Pair, pairKey p.1 p.2)
           <$> [("1", "1"); ("1", "2"); ("2", "2")]).
Proof.
  apply (closure_no_duplicates ["1"; "2"] [("1", "2"); ("1", "2")]).
  vm_compute. reflexivity.
Defined.

(** X15. Over a universe without [|] characters the closure is exactly
    reachability from the elements of U: it returns a relation that
    holds (a, b) if and only if [a] is in U and either [b = a] or a
    path of one or more cover pairs leads from [a] to [b]. *)
Theorem closure_exact (U : list Elem) (H : list Pair) :
  forallb barFree U = true →
  ∃ R, transitiveClosureFromCovers U H = Some R ∧
       ∀ a b, (a, b) ∈ R ↔ a ∈ U ∧ (a = b ∨ tc (edge H) a b).
Proof.
  intros HU.
  destruct (transitiveClosureFromCovers_total U H) as [R HR].
  exists R. split; [assumption|]. intros a b. split.
  - now apply (closure_sound U H R HR).
  - intros [Ha [<- | Htc]].
    + exact (proj1 (closure_complete U H R HU HR a Ha)).
    + exact (proj2 (closure_complete U H R HU HR a Ha) b Htc).
Qed.

Lemma closure_exact_witness :
  ∃ R, transitiveClosureFromCovers ["1"; "2"] [("1", "2"); ("2", "3")]
       = Some R ∧
       ∀ a b, (a, b) ∈ R
              ↔ a ∈ ["1"; "2"] ∧
                (a = b ∨ tc (edge [("1", "2"); ("2", "3")]) a b).
Proof.
  apply (closure_exact ["1"; "2"] [("1", "2"); ("2", "3")]). reflexivity.
Defined.

Lemma tc_target_in (U : list Elem) (H : list Pair) (a b : Elem) :
  (∀ x y, (x, y) ∈ H → x ∈ U ∧ y ∈ U) → tc (edge H) a b → b ∈ U.
Proof.
  intros Hdom Htc. induction Htc as [x y Hxy | x z y _ _ IH];
    [exact (proj2 (Hdom x y Hxy)) | exact IH].
Qed.

(** X16. The relation generated from cover pairs inside a universe
    without [|] characters is classified by [relationProps] as
    reflexive and transitive, and as a partial order when the cover
    pairs have no cycle. *)
Theorem closure_classified (U : list Elem) (H : list Pair) :
  forallb barFree U = true →
  (∀ a b, (a, b) ∈ H → a ∈ U ∧ b ∈ U) →
  ∃ R, transitiveClosureFromCovers U H = Some R ∧
       reflexive (relationProps U R (relationSet R)) = true ∧
       transitive (relationProps U R (relationSet R)) = true ∧
       (Acyclic H → isPartialOrder (relationProps U R (relationSet R)) = true).
Proof.
  intros HU Hdom.
  destruct (transitiveClosureFromCovers_total U H) as [R HR].
  exists R. split; [assumption|].
  pose proof (closure_sound U H R HR) as Hsound.
  pose proof (closure_complete U H R HU HR) as Hcomplete.
  assert (Hin : ∀ a b, (a, b) ∈ R → a ∈ U ∧ b ∈ U).
  { intros a b Hab. destruct (Hsound a b Hab) as [Ha [<- | Htc]];
      [tauto|]. split; [assumption|]. now apply (tc_target_in U H a b). }
  assert (HRfree : pairsBarFree R = true).
  { unfold pairsBarFree. apply forallb_forall. intros [a b] Hab.
    apply list_elem_of_In in Hab. destruct (Hin a b Hab) as [Ha Hb]. cbn.
    rewrite (forallb_barFree U a HU Ha), (forallb_barFree U b HU Hb).
    reflexivity. }
  assert (Hrefl : reflexive (relationProps U R (relationSet R)) = true).
  { unfold relationProps. cbn [reflexive]. apply reflexiveCheck_true.
    intros x Hx. apply relationSet_pair; eauto using forallb_barFree.
    exact (proj1 (Hcomplete x Hx)). }
  assert (Htrans : TransitiveRel R).
  { intros a b c Hab Hbc.
    destruct (Hsound a b Hab) as [Ha [<- | Hab']]; [assumption|].
    destruct (Hsound b c Hbc) as [_ [<- | Hbc']]; [assumption|].
    apply (Hcomplete a Ha). eapply tc_transitive; eassumption. }
  apply (transitive_flag_iff U R HRfree) in Htrans.
  split; [assumption|]. split; [assumption|].
  intros Hacyc. unfold isPartialOrder. rewrite Hrefl, Htrans. cbn.
  apply (antisymmetric_flag_iff U R HRfree).
  intros a b Hab Hba.
  destruct (Hsound a b Hab) as [_ [? | Hab']]; [assumption|].
  destruct (Hsound b a Hba) as [_ [? | Hba']]; [congruence|].
  exfalso. apply (Hacyc a). eapply tc_transitive; eassumption.
Qed.

Lemma closure_classified_witness :
  ∃ R, transitiveClosureFromCovers ["1"; "2"; "3"] [("1", "2"); ("2", "3")]
       = Some R ∧
       reflexive (relationProps ["1"; "2"; "3"] R (relationSet R)) = true ∧
       transitive (relationProps ["1"; "2"; "3"] R (relationSet R)) = true ∧
       (Acyclic [("1", "2"); ("2", "3")] →
        isPartialOrder (relationProps ["1"; "2"; "3"] R (relationSet R))
        = true).
Proof.
  apply (closure_classified ["1"; "2"; "3"] [("1", "2"); ("2", "3")]).
  - reflexivity.
  - intros a b Hab.
    repeat (apply elem_of_cons in Hab as [Hab | Hab];
            [injection Hab as -> ->; split; set_solver|]).
    inversion Hab.
Defined.


(** *** layoutHasse on ranked (acyclic) input *)

Lemma linkCover_fold_succs_inv (universe : list Elem) (covers : list Pair) :
  ∀ ps a b,
    b ∈ default [] ((fold_left (linkCover universe) covers ps).2 !! a) →
    b ∈ default [] (ps.2 !! a) ∨
    ((a, b) ∈ covers ∧ a ∈ universe ∧ b ∈ universe).
Proof.
  induction covers as [|p covers IH]; intros ps a b Hab; cbn [fold_left] in Hab.
  - now left.
  - apply IH in Hab as [Hab | (Hab & Ha & Hb)].
    2: { right. split; [now right | tauto]. }
    unfold linkCover in Hab.
    destruct (bool_decide (p.1 ∈ universe)) eqn:E1;
      destruct (bool_decide (p.2 ∈ universe)) eqn:E2;
      cbn [negb orb snd] in Hab; try (now left).
    apply bool_decide_eq_true_1 in E1, E2.
    destruct (decide (p.1 = a)) as [<- | Hne].
    + rewrite lookup_alter_eq in Hab.
      destruct (ps.2 !! p.1) as [l|] eqn:El; cbn in Hab.
      * apply elem_of_setAdd in Hab as [-> | Hab].
        -- right. split; [|tauto]. destruct p. now left.
        -- left. exact Hab.
      * inversion Hab.
    + rewrite lookup_alter_ne in Hab by assumption. now left.
Qed.

(** The successor sets hold nothing but cover pairs inside the
    universe. *)
Lemma succs_only_covers (universe : list Elem) (covers : list Pair)
    (a b : Elem) :
  b ∈ default [] ((buildPredsSuccs universe covers).2 !! a) →
  (a, b) ∈ covers ∧ a ∈ universe ∧ b ∈ universe.
Proof.
  intros Hab. unfold buildPredsSuccs in Hab.
  apply linkCover_fold_succs_inv in Hab as [Hab | Hab]; [|exact Hab].
  cbn [snd] in Hab. rewrite emptySets_default in Hab. inversion Hab.
Qed.

Lemma room_cons (N : Z) (u : Elem) (l : list Elem)
    (levelMap : gmap string Z) :
  room N (u :: l) levelMap
  = (N + 1 - levelOr levelMap u + room N l levelMap)%Z.
Proof. reflexivity. Qed.

Lemma room_insert_le (N : Z) (l : list Elem) (levelMap : gmap string Z)
    (w : Elem) (c : Z) :
  (levelOr levelMap w ≤ c)%Z →
  (room N l (<[w := c]> levelMap) ≤ room N l levelMap)%Z.
Proof.
  intros Hc. induction l as [|u l IH]; [cbn; lia|].
  rewrite !room_cons.
  unfold levelOr. destruct (decide (u = w)) as [->|Hne].
  - rewrite lookup_insert_eq. cbn [default from_option id].
    unfold levelOr in Hc. lia.
  - rewrite lookup_insert_ne by congruence. lia.
Qed.

Lemma room_insert_lt (N : Z) (l : list Elem) (levelMap : gmap string Z)
    (w : Elem) (c : Z) :
  w ∈ l → (levelOr levelMap w < c)%Z →
  (room N l (<[w := c]> levelMap) + 1 ≤ room N l levelMap)%Z.
Proof.
  intros Hw Hc. induction l as [|u l IH]; [inversion Hw|].
  rewrite !room_cons.
  unfold levelOr. destruct (decide (u = w)) as [->|Hne].
  - rewrite lookup_insert_eq. cbn [default from_option id].
    pose proof (room_insert_le N l levelMap w c ltac:(lia)).
    unfold levelOr in Hc. lia.
  - rewrite lookup_insert_ne by congruence.
    apply elem_of_cons in Hw as [?|Hw]; [congruence|].
    specialize (IH Hw). lia.
Qed.

Lemma room_bounds (N : Z) (l : list Elem) (levelMap : gmap string Z) :
  (∀ u, u ∈ l → (0 ≤ N)%Z) →
  (∀ u x, levelMap !! u = Some x → (0 ≤ x ≤ N)%Z) →
  (0 ≤ room N l levelMap ≤ Z.of_nat (length l) * (N + 2))%Z.
Proof.
  intros HN Hb. induction l as [|u l IH]; [cbn; lia|].
  rewrite room_cons. cbn [length].
  pose proof (HN u ltac:(now left)) as HN0.
  specialize (IH (λ x Hx, HN x ltac:(now right))).
  assert (-1 ≤ levelOr levelMap u ≤ N)%Z.
  { unfold levelOr. destruct (levelMap !! u) as [x|] eqn:E; cbn.
    - specialize (Hb u x E). lia.
    - lia. }
  lia.
Qed.

Lemma initialLevels_cases (universe : list Elem)
    (preds : gmap string (list string)) :
  initialLevels universe preds
  = fold_left (seedMinimal preds) universe (∅, []) ∨
  ∃ u0, u0 ∈ universe ∧
        initialLevels universe preds
        = (<[u0 := 0%Z]>
             (fold_left (seedMinimal preds) universe (∅, [])).1, [u0]).
Proof.
  unfold initialLevels. cbn zeta.
  destruct (fold_left (seedMinimal preds) universe (∅, [])) as [lm q].
  cbn [fst snd]. destruct q as [|q0 q]; [|now left].
  destruct universe as [|u0 us]; [now left|].
  right. exists u0. split; [now left | reflexivity].
Qed.

Section Ranked.
Variable universe : list Elem.
Variable covers : list Pair.
Variable rank : Elem → Z.
Variable N : Z.
Hypothesis rank_step :
  ∀ a b lv, (a, b) ∈ covers → a ∈ universe → b ∈ universe →
            (0 ≤ lv ≤ rank a)%Z → (Number.fadd lv 1 ≤ rank b)%Z.
Hypothesis rank_bound : ∀ u, u ∈ universe → (0 ≤ rank u ≤ N)%Z.

Lemma relaxEdge_ranked (lv : Z) (st : LevelState) (w : Elem) :
  RankedInv universe rank st → w ∈ universe → (0 ≤ lv)%Z →
  (Number.fadd lv 1 ≤ rank w)%Z →
  RankedInv universe rank (relaxEdge lv st w) ∧
  (budgetOf N universe (relaxEdge lv st w) ≤ budgetOf N universe st)%Z.
Proof.
  intros [I1 I2] Hw Hlv Hrank. destruct st as [lm q].
  unfold relaxEdge, budgetOf. cbn [fst snd] in *.
  assert (Hpos : (0 ≤ Number.fadd lv 1)%Z)
    by (apply NumberFacts.rnd_nonneg; lia).
  set (c := Number.fadd lv 1) in *.
  assert (Hpush :
            RankedInv universe rank (<[w := c]> lm, q ++ [w]) ∧
                  ((levelOr lm w < c)%Z →
                   (2 * room N universe (<[w := c]> lm)
                    + Z.of_nat (length (q ++ [w]))
                    ≤ 2 * room N universe lm + Z.of_nat (length q))%Z)).
  { split.
    - split; cbn [fst snd].
      + intros u l. destruct (decide (u = w)) as [->|Hne].
        * rewrite lookup_insert_eq. intros E. injection E as <-.
          split; [assumption | lia].
        * rewrite lookup_insert_ne by congruence. apply I1.
      + intros v Hv. destruct (decide (v = w)) as [->|Hne].
        * rewrite lookup_insert_eq. eauto.
        * rewrite lookup_insert_ne by congruence. apply I2.
          apply elem_of_app in Hv as [Hv|Hv]; [assumption|].
          apply list_elem_of_singleton in Hv. contradiction.
    - intros Hlt. rewrite length_app. cbn [length].
      pose proof (room_insert_lt N universe lm w c Hw Hlt). lia. }
  destruct (lm !! w) as [cur|] eqn:E.
  - rewrite Z.gtb_ltb. destruct (Z.ltb_spec cur c) as [Hlt|Hge].
    + split; [apply Hpush|]. apply Hpush. unfold levelOr. now rewrite E.
    + split; [now split | cbn [fst snd]; lia].
  - split; [apply Hpush|]. apply Hpush. unfold levelOr. rewrite E. cbn. lia.
Qed.

Lemma relaxEdge_fold_ranked (lv : Z) (ws : list Elem) :
  (0 ≤ lv)%Z →
  (∀ w, w ∈ ws → w ∈ universe ∧ (Number.fadd lv 1 ≤ rank w)%Z) →
  ∀ st, RankedInv universe rank st →
        RankedInv universe rank (fold_left (relaxEdge lv) ws st) ∧
        (budgetOf N universe (fold_left (relaxEdge lv) ws st)
         ≤ budgetOf N universe st)%Z.
Proof.
  intros Hlv. induction ws as [|w ws IH]; intros Hws st Hinv; cbn [fold_left].
  - split; [assumption | lia].
  - destruct (Hws w ltac:(now left)) as [Hw Hr].
    destruct (relaxEdge_ranked lv st w Hinv Hw Hlv Hr) as [Hinv1 Hb1].
    destruct (IH (λ x Hx, Hws x ltac:(now right)) _ Hinv1) as [Hinv2 Hb2].
    split; [assumption | lia].
Qed.

Lemma budget_nonneg (st : LevelState) :
  RankedInv universe rank st → (0 ≤ budgetOf N universe st)%Z.
Proof.
  intros [I1 _]. unfold budgetOf.
  assert (Hb : ∀ u x, st.1 !! u = Some x → (0 ≤ x ≤ N)%Z).
  { intros u x Hx. destruct (I1 u x Hx) as [Hu Hl].
    pose proof (rank_bound u Hu). lia. }
  assert (HN : ∀ u, u ∈ universe → (0 ≤ N)%Z).
  { intros u Hu. pose proof (rank_bound u Hu). lia. }
  pose proof (room_bounds N universe st.1 HN Hb). lia.
Qed.

(** The queue is never longer than the budget that is left. *)
Lemma queue_within_budget (st : LevelState) :
  RankedInv universe rank st →
  (Z.of_nat (length st.2) ≤ budgetOf N universe st)%Z.
Proof.
  intros [I1 _]. unfold budgetOf.
  assert (Hb : ∀ u x, st.1 !! u = Some x → (0 ≤ x ≤ N)%Z).
  { intros u x Hx. destruct (I1 u x Hx) as [Hu Hl].
    pose proof (rank_bound u Hu). lia. }
  assert (HN : ∀ u, u ∈ universe → (0 ≤ N)%Z).
  { intros u Hu. pose proof (rank_bound u Hu). lia. }
  pose proof (room_bounds N universe st.1 HN Hb). lia.
Qed.

Lemma relax_ranked (fuel : nat) :
  ∀ st, RankedInv universe rank st →
        (budgetOf N universe st < Z.of_nat fuel)%Z →
        (budgetOf N universe st ≤ Number.maxArrayLength)%Z →
        ∃ levelMap,
          relax fuel (buildPredsSuccs universe covers).2 st = Some levelMap ∧
          ∀ u l, levelMap !! u = Some l → u ∈ universe ∧ (0 ≤ l ≤ rank u)%Z.
Proof.
  induction fuel as [|fuel IH]; intros [lm q] Hinv Hlt Hfits.
  - pose proof (budget_nonneg _ Hinv). lia.
  - destruct q as [|v q]; [exists lm; split; [reflexivity | apply Hinv]|].
    rewrite relax_step. cbn zeta.
    destruct Hinv as [I1 I2]. cbn [fst snd] in I1, I2.
    destruct (I2 v ltac:(now left)) as [lv Hv].
    destruct (I1 v lv Hv) as [Hvu Hlv].
    rewrite Hv. cbn [default from_option id].
    assert (Hinv0 : RankedInv universe rank (lm, q)).
    { split; [exact I1|]. intros x Hx. apply I2. now right. }
    destruct (relaxEdge_fold_ranked lv
                (default [] ((buildPredsSuccs universe covers).2 !! v))
                ltac:(lia)) with (st := (lm, q)) as [Hinv1 Hb1];
      [|exact Hinv0|].
    + intros w Hw. apply succs_only_covers in Hw as (Hvw & _ & Hwu).
      split; [assumption|]. exact (rank_step v w lv Hvw Hvu Hwu Hlv).
    + pose proof (queue_within_budget _ Hinv1) as Hq.
      assert (Hless : (budgetOf N universe
                         (fold_left (relaxEdge lv)
                            (default [] ((buildPredsSuccs universe covers).2
                                           !! v)) (lm, q))
                       < budgetOf N universe (lm, v :: q))%Z).
      { unfold budgetOf in *. cbn [fst snd length] in *. lia. }
      destruct (Z.ltb_spec Number.maxArrayLength
                  (Z.of_nat (length (fold_left (relaxEdge lv)
                     (default [] ((buildPredsSuccs universe covers).2 !! v))
                     (lm, q)).2))); [lia|].
      apply IH; [assumption | lia | lia].
Qed.

Lemma seed_ranked (preds : gmap string (list string)) (us : list Elem) :
  (∀ u, u ∈ us → u ∈ universe) →
  ∀ st, RankedInv universe rank st →
        (∀ u l, st.1 !! u = Some l → l = 0%Z) →
        RankedInv universe rank (fold_left (seedMinimal preds) us st) ∧
        (∀ u l, (fold_left (seedMinimal preds) us st).1 !! u = Some l
                → l = 0%Z) ∧
        length (fold_left (seedMinimal preds) us st).2
        ≤ length st.2 + length us.
Proof.
  induction us as [|x us IH]; intros Hus st Hinv Hzero; cbn [fold_left].
  - split; [assumption|]. split; [assumption | lia].
  - assert (Hx : x ∈ universe) by (apply Hus; now left).
    assert (Hus' : ∀ u, u ∈ us → u ∈ universe)
      by (intros u Hu; apply Hus; now right).
    destruct Hinv as [I1 I2]. unfold seedMinimal at 2 4 6.
    destruct (length (default [] (preds !! x)) =? 0)%nat.
    + destruct (IH Hus' (<[x := 0%Z]> st.1, st.2 ++ [x])) as (Hi & Hz & Hl).
      * split; cbn [fst snd].
        -- intros u l. destruct (decide (u = x)) as [->|Hne].
           ++ rewrite lookup_insert_eq. intros E. injection E as <-.
              pose proof (rank_bound x Hx). split; [assumption | lia].
           ++ rewrite lookup_insert_ne by congruence. apply I1.
        -- intros v Hv. destruct (decide (v = x)) as [->|Hne].
           ++ rewrite lookup_insert_eq. eauto.
           ++ rewrite lookup_insert_ne by congruence. apply I2.
              apply elem_of_app in Hv as [Hv|Hv]; [assumption|].
              apply list_elem_of_singleton in Hv. contradiction.
      * cbn [fst]. intros u l. destruct (decide (u = x)) as [->|Hne].
        -- rewrite lookup_insert_eq. congruence.
        -- rewrite lookup_insert_ne by congruence. apply Hzero.
      * split; [assumption|]. split; [assumption|].
        cbn [snd length] in Hl. rewrite length_app in Hl. cbn in *. lia.
    + destruct (IH Hus' st (conj I1 I2) Hzero) as (Hi & Hz & Hl).
      split; [assumption|]. split; [assumption|]. cbn. lia.
Qed.

Lemma initial_ranked :
  RankedInv universe rank
    (initialLevels universe (buildPredsSuccs universe covers).1) ∧
  (budgetOf N universe
     (initialLevels universe (buildPredsSuccs universe covers).1)
   < Z.of_nat (rankedBudget N universe))%Z.
Proof.
  set (preds := (buildPredsSuccs universe covers).1).
  assert (Hempty : RankedInv universe rank (∅, [])).
  { split; cbn.
    - intros u l Hl. now rewrite lookup_empty in Hl.
    - intros v Hv. inversion Hv. }
  destruct (seed_ranked preds universe (λ u Hu, Hu) (∅, []) Hempty)
    as (Hinv & Hzero & Hlen).
  { intros u l Hl. cbn in Hl. now rewrite lookup_empty in Hl. }
  assert (Hfinal : RankedInv universe rank (initialLevels universe preds) ∧
            length (initialLevels universe preds).2 ≤ length universe + 1).
  { destruct (initialLevels_cases universe preds) as [-> | (u0 & Hu0 & ->)].
    - split; [assumption | cbn in Hlen; lia].
    - split; [|cbn; lia].
      destruct Hinv as [I1 I2]. split; cbn [fst snd].
      + intros u l. destruct (decide (u = u0)) as [->|Hne].
        * rewrite lookup_insert_eq. intros E. injection E as <-.
          pose proof (rank_bound u0 Hu0). split; [assumption | lia].
        * rewrite lookup_insert_ne by congruence. apply I1.
      + intros v Hv. apply list_elem_of_singleton in Hv. subst v.
        rewrite lookup_insert_eq. eauto. }
  destruct Hfinal as [Hinv' Hlen']. split; [assumption|].
  unfold budgetOf, rankedBudget.
  assert (Hb : ∀ u x, (initialLevels universe preds).1 !! u = Some x →
                      (0 ≤ x ≤ N)%Z).
  { intros u x Hx. destruct Hinv' as [I1 _]. destruct (I1 u x Hx) as [Hu Hl].
    pose proof (rank_bound u Hu). lia. }
  assert (HN : ∀ u, u ∈ universe → (0 ≤ N)%Z).
  { intros u Hu. pose proof (rank_bound u Hu). lia. }
  pose proof (room_bounds N universe _ HN Hb) as Hroom.
  assert (0 ≤ Z.of_nat (length universe) * (N + 2))%Z by lia.
  rewrite Z2Nat.id by lia. lia.
Qed.
End Ranked.

Lemma fillMissing_lookup (universe : list Elem) :
  ∀ (levelMap : gmap string Z) u,
    fillMissing universe levelMap !! u =
    match levelMap !! u with
    | Some l => Some l
    | None => if decide (u ∈ universe) then Some 0%Z else None
    end.
Proof.
  unfold fillMissing.
  induction universe as [|x universe IH]; intros levelMap u; cbn [fold_left].
  - destruct (levelMap !! u); [reflexivity|].
    rewrite decide_False; [reflexivity | apply not_elem_of_nil].
  - rewrite IH. destruct (levelMap !! x) as [lx|] eqn:Ex.
    + destruct (levelMap !! u) as [l|] eqn:Eu; [reflexivity|].
      destruct (decide (u ∈ universe)) as [Hin|Hnin].
      * rewrite decide_True by now right. reflexivity.
      * rewrite decide_False; [reflexivity|].
        intros Hin. apply elem_of_cons in Hin as [->|Hin]; [congruence | tauto].
    + destruct (decide (u = x)) as [->|Hne].
      * rewrite lookup_insert_eq, Ex.
        rewrite decide_True by now left. reflexivity.
      * rewrite lookup_insert_ne by congruence.
        destruct (levelMap !! u) as [l|] eqn:Eu; [reflexivity|].
        destruct (decide (u ∈ universe)) as [Hin|Hnin].
        -- rewrite decide_True by now right. reflexivity.
        -- rewrite decide_False; [reflexivity|].
           intros Hin. apply elem_of_cons in Hin as [->|Hin]; tauto.
Qed.

(** X17. [layoutHasse] terminates on ranked input. If some rank
    function with values in [0, N] increases strictly along every cover
    pair inside the universe (as on every acyclic cover relation), and
    an array can hold [2 * |U| * (N + 2) + |U| + 2] entries, the
    worklist loop ends within that many rounds, and every element of
    the universe gets a level between 0 and its rank. *)
Theorem layout_terminates_on_ranked (universe : list Elem)
    (covers : list Pair) (rank : Elem → Z) (N : Z) :
  (∀ a b, (a, b) ∈ covers → a ∈ universe → b ∈ universe →
          (rank a < rank b)%Z) →
  (∀ u, u ∈ universe → (0 ≤ rank u ≤ N)%Z) →
  (Z.of_nat (rankedBudget N universe) ≤ Number.maxArrayLength)%Z →
  ∃ levelMap,
    (∀ fuel, rankedBudget N universe ≤ fuel →
             layoutHasseLevels fuel universe covers = Some levelMap) ∧
    (∀ u, u ∈ universe →
          ∃ l, levelMap !! u = Some l ∧ (0 ≤ l ≤ rank u)%Z).
Proof.
  intros Hcover Hbound Hfits.
  set (rank' := λ u, Z.min (rank u) (2 ^ 53)).
  assert (Hbound' : ∀ u, u ∈ universe → (0 ≤ rank' u ≤ N)%Z).
  { intros u Hu. pose proof (Hbound u Hu). unfold rank'. lia. }
  assert (Hstep : ∀ a b lv, (a, b) ∈ covers → a ∈ universe → b ∈ universe →
                            (0 ≤ lv ≤ rank' a)%Z →
                            (Number.fadd lv 1 ≤ rank' b)%Z).
  { intros a b lv Hab Ha Hb Hlv. pose proof (Hcover a b Hab Ha Hb).
    unfold rank' in *. rewrite NumberFacts.fadd_level by lia. lia. }
  destruct (initial_ranked universe covers rank' N Hbound') as [Hinv Hlt].
  destruct (relax_ranked universe covers rank' N Hstep Hbound' _ _ Hinv Hlt)
    as (lm & Hrun & Hlm); [lia|].
  exists (fillMissing universe lm). split.
  - intros fuel Hfuel. unfold layoutHasseLevels, relaxedLevels. cbn zeta.
    replace fuel with (rankedBudget N universe
                       + (fuel - rankedBudget N universe)) by lia.
    rewrite (relax_more_fuel _ _ _ _ lm Hrun). reflexivity.
  - intros u Hu. rewrite fillMissing_lookup.
    destruct (lm !! u) as [l|] eqn:E.
    + exists l. split; [reflexivity|].
      pose proof (proj2 (Hlm u l E)) as Hl. unfold rank' in Hl. lia.
    + rewrite decide_True by assumption. exists 0%Z.
      split; [reflexivity|]. pose proof (Hbound u Hu). lia.
Qed.

Lemma layout_terminates_on_ranked_witness :
  ∃ levelMap,
    (∀ fuel, rankedBudget 2 ["1"; "2"; "3"] ≤ fuel →
             layoutHasseLevels fuel ["1"; "2"; "3"]
               [("1", "2"); ("2", "3"); ("1", "3")] = Some levelMap) ∧
    (∀ u, u ∈ ["1"; "2"; "3"] →
          ∃ l, levelMap !! u = Some l ∧
               (0 ≤ l ≤ if String.eqb u "1" then 0
                        else if String.eqb u "2" then 1 else 2)%Z).
Proof.
  apply (layout_terminates_on_ranked ["1"; "2"; "3"]
           [("1", "2"); ("2", "3"); ("1", "3")]
           (λ u, if String.eqb u "1" then 0
                 else if String.eqb u "2" then 1 else 2)%Z 2).
  - intros a b Hab _ _.
    repeat (apply elem_of_cons in Hab as [Hab | Hab];
            [injection Hab as -> ->; vm_compute; reflexivity|]).
    inversion Hab.
  - intros u Hu.
    repeat (apply elem_of_cons in Hu as [-> | Hu];
            [vm_compute; split; discriminate|]).
    inversion Hu.
  - vm_compute. discriminate.
Defined.


(** *** The shape of every level map *)

Lemma levelsOk_insert (universe : list Elem) (covers : list Pair)
    (levelMap : gmap string Z) (w : Elem) (c : Z) :
  LevelsOk universe covers levelMap →
  w ∈ universe → (0 ≤ c)%Z → (MinimalIn universe covers w → c = 0%Z) →
  LevelsOk universe covers (<[w := c]> levelMap).
Proof.
  intros Hok Hw Hc Hmin u l. destruct (decide (u = w)) as [->|Hne].
  - rewrite lookup_insert_eq. intros E. injection E as <-. tauto.
  - rewrite lookup_insert_ne by congruence. apply Hok.
Qed.

Lemma relaxEdge_fold_ok (universe : list Elem) (covers : list Pair)
    (v : Elem) (lv : Z) (ws : list Elem) :
  (0 ≤ lv)%Z → v ∈ universe →
  (∀ w, w ∈ ws → (v, w) ∈ covers ∧ w ∈ universe) →
  ∀ st, LevelsOk universe covers st.1 →
        LevelsOk universe covers (fold_left (relaxEdge lv) ws st).1.
Proof.
  intros Hlv Hv. induction ws as [|w ws IH]; intros Hws st Hok;
    cbn [fold_left]; [assumption|].
  apply IH; [intros x Hx; apply Hws; now right|].
  destruct (Hws w ltac:(now left)) as [Hvw Hw].
  assert (Hpos : (0 ≤ Number.fadd lv 1)%Z)
    by (apply NumberFacts.rnd_nonneg; lia).
  assert (Hins : LevelsOk universe covers (<[w := Number.fadd lv 1]> st.1)).
  { apply levelsOk_insert; [assumption | assumption | assumption |].
    intros Hmin. destruct (Hmin v Hv Hvw). }
  unfold relaxEdge. destruct (st.1 !! w) as [cur|]; [|exact Hins].
  destruct (Number.fadd lv 1 >? cur)%Z; [exact Hins | exact Hok].
Qed.

Lemma relax_ok (universe : list Elem) (covers : list Pair) (fuel : nat) :
  ∀ st levelMap,
    relax fuel (buildPredsSuccs universe covers).2 st = Some levelMap →
    LevelsOk universe covers st.1 →
    LevelsOk universe covers levelMap.
Proof.
  induction fuel as [|fuel IH]; intros [lm q] levelMap Hrun Hok;
    (destruct q as [|v q]; [cbn in Hrun; now injection Hrun as <-|]);
    [discriminate Hrun|].
  apply relax_step_some in Hrun as [Hrun _].
  apply IH in Hrun; [assumption|].
  cbn [fst] in Hok.
  destruct (default [] ((buildPredsSuccs universe covers).2 !! v))
    as [|w0 ws] eqn:Ews; [exact Hok|].
  assert (Hv : v ∈ universe).
  { apply (succs_only_covers universe covers v w0). rewrite Ews. now left. }
  apply (relaxEdge_fold_ok universe covers v); [| assumption | | exact Hok].
  - destruct (lm !! v) as [lv|] eqn:Elv; cbn; [|lia].
    apply (Hok v lv Elv).
  - intros w Hw. rewrite <- Ews in Hw.
    apply succs_only_covers in Hw. tauto.
Qed.

Lemma seed_ok (universe : list Elem) (covers : list Pair)
    (preds : gmap string (list string)) (us : list Elem) :
  (∀ u, u ∈ us → u ∈ universe) →
  ∀ st, LevelsOk universe covers st.1 →
        LevelsOk universe covers (fold_left (seedMinimal preds) us st).1.
Proof.
  induction us as [|x us IH]; intros Hus st Hok; cbn [fold_left];
    [assumption|].
  apply IH; [intros u Hu; apply Hus; now right|].
  unfold seedMinimal. destruct (length (default [] (preds !! x)) =? 0)%nat;
    [|exact Hok].
  apply levelsOk_insert; [assumption | apply Hus; now left | lia | reflexivity].
Qed.

Lemma initial_ok (universe : list Elem) (covers : list Pair)
    (preds : gmap string (list string)) :
  LevelsOk universe covers (initialLevels universe preds).1.
Proof.
  assert (Hseed : LevelsOk universe covers
                    (fold_left (seedMinimal preds) universe (∅, [])).1).
  { apply seed_ok; [tauto|]. intros u l Hl. cbn in Hl.
    now rewrite lookup_empty in Hl. }
  destruct (initialLevels_cases universe preds) as [-> | (u0 & Hu0 & ->)];
    [assumption|].
  apply levelsOk_insert; [assumption | assumption | lia | reflexivity].
Qed.

(** X18. Whenever [layoutHasse] produces a result, exactly the elements
    of the universe have a level, no level is negative, and every
    element that no element of the universe covers from below sits at
    level 0. *)
Theorem layout_levels_shape (fuel : nat) (universe : list Elem)
    (covers : list Pair) (levelMap : gmap string Z) :
  layoutHasseLevels fuel universe covers = Some levelMap →
  (∀ u, u ∈ universe ↔ is_Some (levelMap !! u)) ∧
  (∀ u l, levelMap !! u = Some l → (0 ≤ l)%Z) ∧
  (∀ u, u ∈ universe → MinimalIn universe covers u →
        levelMap !! u = Some 0%Z).
Proof.
  unfold layoutHasseLevels, relaxedLevels. cbn zeta.
  destruct (relax fuel _ _) as [lm|] eqn:Hrun; [|discriminate].
  cbn. intros E. injection E as <-.
  pose proof (relax_ok universe covers fuel _ lm Hrun
                (initial_ok universe covers _)) as Hok.
  split; [|split].
  - intros u. rewrite fillMissing_lookup.
    destruct (lm !! u) as [l|] eqn:El.
    + split; [eauto | intros _; apply (Hok u l El)].
    + destruct (decide (u ∈ universe)) as [Hin|Hnin].
      * split; eauto.
      * split; [tauto | intros [? ?]; discriminate].
  - intros u l. rewrite fillMissing_lookup.
    destruct (lm !! u) as [l'|] eqn:El.
    + intros E. injection E as <-. apply (Hok u l' El).
    + destruct (decide (u ∈ universe)); [|discriminate].
      intros E. injection E as <-. lia.
  - intros u Hu Hmin. rewrite fillMissing_lookup.
    destruct (lm !! u) as [l|] eqn:El.
    + f_equal. now apply (Hok u l El).
    + now rewrite decide_True.
Qed.

Lemma layout_levels_shape_witness :
  (∀ u, u ∈ ["1"; "2"; "3"] ↔
        is_Some (({[ "1" := 0; "2" := 1; "3" := 2 ]} : gmap string Z) !! u))%Z ∧
  (∀ u l, ({[ "1" := 0; "2" := 1; "3" := 2 ]} : gmap string Z)%Z !! u = Some l
          → (0 ≤ l)%Z) ∧
  (∀ u, u ∈ ["1"; "2"; "3"] →
        MinimalIn ["1"; "2"; "3"] [("1", "2"); ("2", "3"); ("1", "3")] u →
        ({[ "1" := 0; "2" := 1; "3" := 2 ]} : gmap string Z)%Z !! u
        = Some 0%Z).
Proof.
  apply (layout_levels_shape 10 ["1"; "2"; "3"]
           [("1", "2"); ("2", "3"); ("1", "3")]).
  vm_compute. reflexivity.
Defined.


(** A minimal element of the universe ends at level 0. *)
Lemma layout_minimal_zero (fuel : nat) (universe : list Elem)
    (covers : list Pair) (levelMap : gmap string Z) (u : Elem) :
  layoutHasseLevels fuel universe covers = Some levelMap →
  u ∈ universe → MinimalIn universe covers u →
  levelMap !! u = Some 0%Z.
Proof.
  unfold layoutHasseLevels, relaxedLevels. cbn zeta.
  destruct (relax fuel _ _) as [lm|] eqn:Hrun; [|discriminate].
  cbn. intros E Hu Hmin. injection E as <-.
  pose proof (relax_ok universe covers fuel _ lm Hrun
                (initial_ok universe covers _)) as Hok.
  rewrite fillMissing_lookup.
  destruct (lm !! u) as [l|] eqn:El.
  - f_equal. now apply (Hok u l El).
  - now rewrite decide_True.
Qed.

(** *** layoutHasse: a cycle that overflows the queue *)

(** A successor whose level is below the candidate is raised and
    queued. *)
Lemma relaxEdge_fold_push (lv : Z) (ws : list Elem) :
  NoDup ws →
  ∀ (levelMap : gmap string Z) (queue : list Elem),
    (∀ w l, w ∈ ws → levelMap !! w = Some l → (l < Number.fadd lv 1)%Z) →
    fold_left (relaxEdge lv) ws (levelMap, queue)
    = (fold_left (λ m w, <[w := Number.fadd lv 1]> m) ws levelMap,
       queue ++ ws).
Proof.
  induction 1 as [|w ws Hw _ IH]; intros lm q Hlow; cbn [fold_left].
  - now rewrite app_nil_r.
  - assert (Hpush : relaxEdge lv (lm, q) w
                    = (<[w := Number.fadd lv 1]> lm, q ++ [w])).
    { unfold relaxEdge. cbn [fst snd].
      destruct (lm !! w) as [cur|] eqn:E; [|reflexivity].
      pose proof (Hlow w cur ltac:(now left) E).
      destruct (Z.gtb_spec (Number.fadd lv 1) cur); [reflexivity | lia]. }
    rewrite Hpush, IH, <- app_assoc; [reflexivity|].
    intros x l Hx. rewrite lookup_insert_ne by (intros ->; contradiction).
    apply Hlow. now right.
Qed.

Lemma raise_all_lookup (c : Z) (ws : list Elem) (u : Elem) :
  ∀ levelMap : gmap string Z,
    fold_left (λ m w, <[w := c]> m) ws levelMap !! u
    = if decide (u ∈ ws) then Some c else levelMap !! u.
Proof.
  induction ws as [|w ws IH]; intros lm; cbn [fold_left].
  - rewrite decide_False by apply not_elem_of_nil. reflexivity.
  - rewrite IH. destruct (decide (u ∈ ws)) as [Hin | Hnot].
    + rewrite decide_True by now right. reflexivity.
    + destruct (decide (u = w)) as [-> | Hne].
      * rewrite decide_True by now left. now rewrite lookup_insert_eq.
      * rewrite decide_False
          by (intros H; apply elem_of_cons in H as [? | ?]; contradiction).
        now rewrite lookup_insert_ne.
Qed.

Lemma chained_app (l1 l2 : list Elem) :
  chained l1 → chained l2 →
  (∀ y z, last l1 = Some y → head l2 = Some z → y ≠ z) →
  chained (l1 ++ l2).
Proof.
  induction l1 as [|y l1 IH]; intros H1 H2 Hj; [exact H2|].
  destruct H1 as [Hy H1]. cbn [app chained]. split.
  - destruct l1 as [|z l1]; cbn [app].
    + destruct l2 as [|z l2]; [exact I|]. now apply Hj.
    + exact Hy.
  - apply IH; [exact H1 | exact H2|].
    intros a b Ha Hb. apply Hj; [|exact Hb].
    destruct l1; [discriminate Ha | exact Ha].
Qed.

Local Abbreviation four := ["a"; "b"; "c"; "d"].
Local Abbreviation complete :=
  [("a", "b"); ("a", "c"); ("a", "d"); ("b", "a"); ("b", "c"); ("b", "d");
   ("c", "a"); ("c", "b"); ("c", "d"); ("d", "a"); ("d", "b"); ("d", "c")].

Lemma four_distinct : NoDup four.
Proof.
  repeat (apply NoDup_cons; split;
          [let H := fresh in
           intros H;
           repeat (apply elem_of_cons in H as [H|H]; [discriminate|]);
           inversion H|]).
  apply NoDup_nil_2.
Qed.

(** The successors of an element of the complete digraph on four
    elements: the other three, in the order of the universe. *)
Lemma complete_succs (x : Elem) :
  x ∈ four →
  default [] ((buildPredsSuccs four complete).2 !! x)
  = filter (λ u, u ≠ x) four.
Proof.
  intros Hx.
  repeat (apply elem_of_cons in Hx as [-> | Hx]; [vm_compute; reflexivity|]).
  inversion Hx.
Qed.

Lemma others_shape (x : Elem) :
  x ∈ four →
  ∃ w1 w2 w3, filter (λ u, u ≠ x) four = [w1; w2; w3] ∧
              (w1 = "a" ∨ w1 = "b") ∧ (w3 = "c" ∨ w3 = "d").
Proof.
  intros Hx.
  repeat (apply elem_of_cons in Hx as [-> | Hx];
          [eexists _, _, _; split; [vm_compute; reflexivity|];
           split; [(now left) || (now right) | (now left) || (now right)]|]).
  inversion Hx.
Qed.

(** The state of the worklist loop on the complete digraph, before
    every round: the front of the queue holds the highest level [M], no
    entry is followed by itself, and the queue has [2 * M + 1]
    entries. *)
Lemma complete_round (fuel : nat) :
  ∀ (levelMap : gmap string Z) (x : Elem) (rest : list Elem) (M : Z),
    (0 ≤ M)%Z →
    Z.of_nat (length (x :: rest)) = (2 * M + 1)%Z →
    (Z.of_nat (length (x :: rest)) ≤ Number.maxArrayLength)%Z →
    levelMap !! x = Some M →
    (∀ u l, levelMap !! u = Some l → (l ≤ M)%Z) →
    (∀ u, u ∈ x :: rest → u ∈ four) →
    chained (x :: rest) →
    (∀ z, rest ≠ [] → last rest = Some z → z = "c" ∨ z = "d") →
    relax fuel (buildPredsSuccs four complete).2 (levelMap, x :: rest) = None.
Proof.
  induction fuel as [|fuel IH];
    intros lm x rest M HM Hlen Hfits Hx Hmax Hin Hch Hlast; [reflexivity|].
  rewrite relax_step. cbn zeta. rewrite Hx. cbn [default from_option id].
  assert (Hx4 : x ∈ four) by (apply Hin; now left).
  rewrite (complete_succs x Hx4).
  assert (Hnext : Number.fadd M 1 = (M + 1)%Z).
  { apply NumberFacts.fadd_exact. unfold Number.maxArrayLength in Hfits.
    lia. }
  rewrite relaxEdge_fold_push; cycle 1.
  { apply NoDup_filter.
    exact four_distinct. }
  { intros w l _ Hl. apply Hmax in Hl. lia. }
  rewrite Hnext. cbn [snd].
  destruct (Z.ltb_spec Number.maxArrayLength
              (Z.of_nat (length (rest ++ filter (λ u, u ≠ x) four))));
    [reflexivity|].
  destruct (others_shape x Hx4) as (w1 & w2 & w3 & Hws & Hw1 & Hw3).
  assert (Hothers : ∀ u, u ∈ filter (λ u, u ≠ x) four ↔ u ≠ x ∧ u ∈ four)
    by (intros u; apply (list_elem_of_filter (λ u, u ≠ x))).
  assert (Hlevel : ∀ u, u ∈ four → u ≠ x →
            fold_left (λ m w, <[w := (M + 1)%Z]> m)
                      (filter (λ u, u ≠ x) four) lm !! u = Some (M + 1)%Z).
  { intros u Hu Hne. rewrite raise_all_lookup.
    rewrite decide_True by (apply Hothers; now split). reflexivity. }
  assert (Hch' : chained (rest ++ filter (λ u, u ≠ x) four)).
  { apply chained_app.
    - apply Hch.
    - assert (Hnd : NoDup [w1; w2; w3]).
      { rewrite <- Hws. apply NoDup_filter.
        exact four_distinct. }
      rewrite Hws. apply NoDup_cons in Hnd as [H1 Hnd].
      apply NoDup_cons in Hnd as [H2 _].
      cbn. split; [|split; [|tauto]].
      + intros ->. apply H1. now left.
      + intros ->. apply H2. now left.
    - intros y z Hy Hz. rewrite Hws in Hz. injection Hz as <-.
      destruct rest as [|r rest']; [discriminate Hy|].
      destruct (Hlast y ltac:(discriminate) Hy) as [-> | ->];
        destruct Hw1 as [-> | ->]; discriminate. }
  assert (Hin' : ∀ u, u ∈ rest ++ filter (λ u, u ≠ x) four → u ∈ four).
  { intros u Hu. apply elem_of_app in Hu as [Hu | Hu].
    - apply Hin. now right.
    - now apply Hothers in Hu. }
  assert (Hlen' : Z.of_nat (length (rest ++ filter (λ u, u ≠ x) four))
                  = (2 * (M + 1) + 1)%Z).
  { rewrite length_app, Hws. cbn [length] in *. lia. }
  destruct (rest ++ filter (λ u, u ≠ x) four) as [|y rest'] eqn:Eq.
  { rewrite Hws in Eq. destruct rest; discriminate Eq. }
  assert (Hy : y ≠ x).
  { destruct rest as [|r rest0].
    - rewrite Hws in Eq. injection Eq as <- _.
      assert (Hm : w1 ∈ filter (λ u, u ≠ x) four) by (rewrite Hws; now left).
      now apply Hothers in Hm.
    - injection Eq as <- _. destruct Hch as [Hxr _]. congruence. }
  apply (IH _ y rest' (M + 1)%Z); try assumption; try lia.
  - apply Hlevel; [apply Hin'; now left | exact Hy].
  - intros u l. rewrite raise_all_lookup.
    destruct (decide _); [intros E; injection E as <-; lia|].
    intros Hl. apply Hmax in Hl. lia.
  - intros z Hne Hz.
    assert (Hl : last (y :: rest') = Some z).
    { destruct rest'; [contradiction | exact Hz]. }
    rewrite <- Eq, Hws in Hl.
    replace (rest ++ [w1; w2; w3]) with ((rest ++ [w1; w2]) ++ [w3]) in Hl
      by (rewrite <- app_assoc; reflexivity).
    rewrite last_snoc in Hl. injection Hl as <-. exact Hw3.
Qed.

(** C2 (defect): on the complete digraph on four elements the call
    gives no level map. Every element has a predecessor, so "a" is
    forced to level 0. From then on the entry at the front of the queue
    holds the highest level, and its round raises and queues the three
    other elements: after [n] rounds the queue holds [2 * n + 1]
    entries. The levels are then far below 2^53, where they would stop
    rising, when the queue reaches the longest length an array can have
    and [queue.push] raises a RangeError. Whatever the iteration budget
    is, no level map is returned. *)
Theorem layout_complete_digraph_overflows (fuel : nat) :
  layoutHasseLevels fuel ["a"; "b"; "c"; "d"]
    [("a", "b"); ("a", "c"); ("a", "d"); ("b", "a"); ("b", "c"); ("b", "d");
     ("c", "a"); ("c", "b"); ("c", "d"); ("d", "a"); ("d", "b"); ("d", "c")]
  = None.
Proof.
  unfold layoutHasseLevels, relaxedLevels. cbn zeta.
  replace (initialLevels four (buildPredsSuccs four complete).1)
    with (<["a" := 0%Z]> (∅ : gmap string Z), ["a"])
    by (vm_compute; reflexivity).
  rewrite (complete_round fuel _ "a" [] 0%Z); [reflexivity | lia | reflexivity
    | vm_compute; discriminate | apply lookup_insert_eq | | | exact (conj I I)
    | intros z Hne; contradiction].
  - intros u l. destruct (decide (u = "a")) as [-> | Hne].
    + rewrite lookup_insert_eq. intros E. injection E as <-. lia.
    + rewrite lookup_insert_ne by congruence. now rewrite lookup_empty.
  - intros u Hu. apply list_elem_of_singleton in Hu as ->. now left.
Qed.

(** *** layoutHasse: acyclic covers are drawn upward *)

Lemma tc_flip {A} (R : relation A) (x y : A) : tc (flip R) x y → tc R y x.
Proof.
  induction 1 as [x y Hxy | x z y Hxz _ IH].
  - now apply tc_once.
  - eapply tc_r; eassumption.
Qed.

(** A walk along an acyclic relation on the universe visits distinct
    elements, so it is shorter than the universe. *)
Lemma walk_distinct (universe : list Elem) (R : relation Elem)
    (n : nat) (x y : Elem) :
  (∀ a b, R a b → b ∈ universe) →
  (∀ v, ¬ tc R v v) →
  nsteps R n x y →
  ∃ l, length l = n ∧ NoDup (x :: l) ∧
       ∀ z, z ∈ l → tc R x z ∧ z ∈ universe.
Proof.
  intros Hin Hacyc. induction 1 as [x | n x y z Hxy _ IH].
  - exists []. split; [reflexivity|]. split.
    + apply NoDup_singleton.
    + intros z Hz. inversion Hz.
  - destruct IH as (l & Hlen & Hnd & Hl). exists (y :: l).
    split; [cbn; lia|]. split.
    + apply NoDup_cons. split; [|exact Hnd].
      intros Hx. apply elem_of_cons in Hx as [-> | Hx].
      * exact (Hacyc y (tc_once _ _ _ Hxy)).
      * apply (Hacyc x). eapply tc_l; [exact Hxy | apply Hl, Hx].
    + intros w Hw. apply elem_of_cons in Hw as [-> | Hw].
      * split; [now apply tc_once | eapply Hin, Hxy].
      * split; [eapply tc_l; [exact Hxy | apply Hl, Hw] | apply Hl, Hw].
Qed.

Lemma walk_short (universe : list Elem) (R : relation Elem)
    (n : nat) (x y : Elem) :
  (∀ a b, R a b → b ∈ universe) →
  (∀ v, ¬ tc R v v) →
  x ∈ universe → nsteps R n x y → n < length universe.
Proof.
  intros Hin Hacyc Hx Hwalk.
  destruct (walk_distinct universe R n x y Hin Hacyc Hwalk)
    as (l & Hlen & Hnd & Hl).
  assert (Hsub : x :: l ⊆+ universe).
  { apply NoDup_submseteq; [exact Hnd|].
    intros z Hz. apply elem_of_cons in Hz as [-> | Hz];
      [exact Hx | apply Hl, Hz]. }
  apply submseteq_length in Hsub. cbn in Hsub. lia.
Qed.

(** The start of a walk that ends in the universe is in the universe. *)
Lemma walk_start (universe : list Elem) (covers : list Pair)
    (n : nat) (x y : Elem) :
  nsteps (insideCover universe covers) n x y → y ∈ universe → x ∈ universe.
Proof.
  intros Hwalk Hy. destruct Hwalk as [|n x z y (_ & Hx & _) _];
    [exact Hy | exact Hx].
Qed.

Section Upward.
Variable universe : list Elem.
Variable covers : list Pair.
Hypothesis acyclic : ∀ v, ¬ tc (insideCover universe covers) v v.
Hypothesis fits : (Z.of_nat (length universe) ≤ Number.maxArrayLength)%Z.

(** On acyclic covers a level that is the length of a walk is below the
    size of the universe, and counting up from it is exact. *)
Lemma walk_level_small (u : Elem) (n : nat) (v0 : Elem) :
  u ∈ universe → nsteps (insideCover universe covers) n v0 u →
  n < length universe.
Proof.
  intros Hu Hwalk.
  apply (walk_short universe (insideCover universe covers) n v0 u);
    [intros a b Hab; apply Hab | exact acyclic | | exact Hwalk].
  exact (walk_start universe covers n v0 u Hwalk Hu).
Qed.

Lemma walk_level_next (n : nat) :
  n < length universe → Number.fadd (Z.of_nat n) 1 = Z.of_nat (S n).
Proof.
  intros Hn. unfold Number.maxArrayLength in fits.
  rewrite NumberFacts.fadd_exact by lia. lia.
Qed.

Lemma relaxEdge_fold_walk (v : Elem) (n : nat) (v0 : Elem) (ws : list Elem) :
  v ∈ universe → nsteps (insideCover universe covers) n v0 v →
  (∀ w, w ∈ ws → (v, w) ∈ covers ∧ w ∈ universe) →
  ∀ st, WalkLevels universe covers st.1 →
        WalkLevels universe covers
          (fold_left (relaxEdge (Z.of_nat n)) ws st).1.
Proof.
  intros Hv Hwalk. induction ws as [|w ws IH]; intros Hws st Hok;
    cbn [fold_left]; [assumption|].
  apply IH; [intros x Hx; apply Hws; now right|].
  destruct (Hws w ltac:(now left)) as [Hvw Hw].
  assert (Hins : WalkLevels universe covers
                   (<[w := Number.fadd (Z.of_nat n) 1]> st.1)).
  { intros u l. destruct (decide (u = w)) as [-> | Hne].
    - rewrite lookup_insert_eq. intros E. injection E as <-.
      split; [exact Hw|]. exists (S n), v0. split.
      + apply walk_level_next. exact (walk_level_small v n v0 Hv Hwalk).
      + eapply nsteps_r; [exact Hwalk|]. now split.
    - rewrite lookup_insert_ne by congruence. apply Hok. }
  unfold relaxEdge. destruct (st.1 !! w) as [cur|]; [|exact Hins].
  destruct (Number.fadd (Z.of_nat n) 1 >? cur)%Z; [exact Hins | exact Hok].
Qed.

Lemma relax_walk (fuel : nat) :
  ∀ st levelMap,
    relax fuel (buildPredsSuccs universe covers).2 st = Some levelMap →
    WalkLevels universe covers st.1 →
    WalkLevels universe covers levelMap.
Proof.
  induction fuel as [|fuel IH]; intros [lm q] levelMap Hrun Hok;
    (destruct q as [|v q]; [cbn in Hrun; now injection Hrun as <-|]);
    [discriminate Hrun|].
  apply relax_step_some in Hrun as [Hrun _].
  apply IH in Hrun; [assumption|].
  cbn [fst] in Hok.
  destruct (default [] ((buildPredsSuccs universe covers).2 !! v))
    as [|w0 ws] eqn:Ews; [exact Hok|].
  assert (Hv : v ∈ universe).
  { apply (succs_only_covers universe covers v w0). rewrite Ews. now left. }
  assert (Hlv : ∃ n v0, default 0%Z (lm !! v) = Z.of_nat n ∧
                        nsteps (insideCover universe covers) n v0 v).
  { destruct (lm !! v) as [l|] eqn:E.
    - destruct (Hok v l E) as (_ & n & v0 & -> & Hwalk). eauto.
    - exists 0, v. split; [reflexivity | constructor]. }
  destruct Hlv as (n & v0 & -> & Hwalk).
  apply (relaxEdge_fold_walk v n v0); [assumption | assumption | | exact Hok].
  intros w Hw. rewrite <- Ews in Hw.
  apply succs_only_covers in Hw as (Hvw & _ & Hwu). now split.
Qed.

Lemma initial_walk :
  WalkLevels universe covers
    (initialLevels universe (buildPredsSuccs universe covers).1).1.
Proof.
  destruct (initial_ranked universe covers (λ _, 0%Z) 0%Z) as [[I1 _] _];
    [intros; lia|].
  intros u l Hl. destruct (I1 u l Hl) as [Hu Hl0]. split; [exact Hu|].
  exists 0, u. split; [lia | constructor].
Qed.

(** On acyclic covers the loop, when it ends, has reached every element
    of the universe. *)
Lemma acyclic_all_reached (fuel : nat) (levelMap : gmap string Z) :
  relaxedLevels fuel universe covers = Some levelMap →
  ∀ u, u ∈ universe → is_Some (levelMap !! u).
Proof.
  intros Hrun u.
  assert (Hsn : Acc (insideCover universe covers) u).
  { apply (tc_finite_sn (R := flip (insideCover universe covers))).
    - intros v Hv. apply tc_flip in Hv. exact (acyclic v Hv).
    - exists universe. intros y Hy.
      induction Hy as [x y Hxy | x z y _ _ IH]; [apply Hxy | exact IH]. }
  induction Hsn as [u _ IH]. intros Hu.
  assert (Hreach : reached fuel universe covers u).
  { destruct (decide (Exists (λ x, (x, u) ∈ covers) universe)) as [Hex | Hno].
    - apply Exists_exists in Hex as (x & Hx & Hxu).
      apply (reached_successor fuel universe covers x u);
        [|assumption | assumption | assumption].
      exists levelMap. split; [exact Hrun|].
      apply IH; [now split | exact Hx].
    - apply reached_minimal; [rewrite Hrun; eauto | exact Hu |].
      intros x Hxu Hx. apply Hno. apply Exists_exists. eauto. }
  destruct Hreach as (lm' & Hrun' & Hsome). congruence.
Qed.

End Upward.

(** Levels that rise along every linked cover pair leave no room for a
    cycle: acyclicity is what the upward drawing needs. *)
Lemma upward_levels_acyclic (universe : list Elem) (covers : list Pair)
    (levelMap : gmap string Z) :
  (∀ a b, (a, b) ∈ covers → a ∈ universe → b ∈ universe →
          ∃ la lb, levelMap !! a = Some la ∧ levelMap !! b = Some lb ∧
                   (la < lb)%Z) →
  ∀ v, ¬ tc (insideCover universe covers) v v.
Proof.
  intros Hup v Hv.
  assert (Hlt : ∀ x y, tc (insideCover universe covers) x y →
                       ∃ lx ly, levelMap !! x = Some lx ∧
                                levelMap !! y = Some ly ∧ (lx < ly)%Z).
  { intros x y Htc. induction Htc as [x y (Hxy & Hx & Hy) | x z y Hxz _ IH].
    - now apply Hup.
    - destruct Hxz as (Hxz & Hx & Hz).
      destruct (Hup x z Hxz Hx Hz) as (lx & lz & Ex & Ez & Hlt).
      destruct IH as (lz' & ly & Ez' & Ey & Hlt').
      exists lx, ly. split; [assumption|]. split; [assumption|].
      rewrite Ez in Ez'. injection Ez' as <-. lia. }
  destruct (Hlt v v Hv) as (l & l' & E & E' & Hll).
  rewrite E in E'. injection E' as <-. lia.
Qed.

(** A rank that increases along every linked cover pair excludes
    cycles. *)
Lemma inside_acyclic_by_rank (universe : list Elem) (covers : list Pair)
    (rank : Elem → nat) :
  (∀ a b, (a, b) ∈ covers → a ∈ universe → b ∈ universe →
          rank a < rank b) →
  ∀ v, ¬ tc (insideCover universe covers) v v.
Proof.
  intros Hrank v Hv.
  assert (Hlt : ∀ x y, tc (insideCover universe covers) x y →
                       rank x < rank y).
  { intros x y Htc. induction Htc as [x y (Hxy & Hx & Hy) | x z y Hxz _ IH].
    - now apply Hrank.
    - destruct Hxz as (Hxz & Hx & Hz). pose proof (Hrank x z Hxz Hx Hz). lia. }
  apply Hlt in Hv. lia.
Qed.

(** C8 (amended): when the cover pairs inside the universe form no
    directed cycle and [layoutHasse] produces a result, every cover pair
    (a, b) with both endpoints in the universe has a final level of [b]
    strictly greater than the final level of [a]. The universe is an
    array, so it has at most [maxArrayLength] elements. *)
Theorem layout_levels_upward (fuel : nat) (universe : list Elem)
    (covers : list Pair) (levelMap : gmap string Z) :
  (∀ v, ¬ tc (insideCover universe covers) v v) →
  (Z.of_nat (length universe) ≤ Number.maxArrayLength)%Z →
  layoutHasseLevels fuel universe covers = Some levelMap →
  ∀ a b, (a, b) ∈ covers → a ∈ universe → b ∈ universe →
         ∃ la lb, levelMap !! a = Some la ∧ levelMap !! b = Some lb ∧
                  (la < lb)%Z.
Proof.
  intros Hacyc Hfits Hlayout a b Hab Ha Hb.
  unfold layoutHasseLevels in Hlayout.
  destruct (relaxedLevels fuel universe covers) as [lm|] eqn:Hrun;
    [|discriminate].
  cbn in Hlayout. injection Hlayout as <-.
  destruct (acyclic_all_reached universe covers Hacyc fuel lm Hrun a Ha)
    as [la Hla].
  pose proof Hrun as Hrelax. unfold relaxedLevels in Hrelax.
  cbn zeta in Hrelax.
  destruct (relax_settled _ fuel _ lm
              (initial_settled _ _ universe) Hrelax a la Hla b
              (succs_cover universe covers a b Hab Ha Hb))
    as (lb & Hlb & Hle).
  destruct (relax_walk universe covers Hacyc Hfits fuel _ lm Hrelax
              (initial_walk universe covers) a la Hla)
    as (_ & n & v0 & -> & Hwalk).
  rewrite (walk_level_next universe Hfits n) in Hle
    by exact (walk_level_small universe covers Hacyc a n v0 Ha Hwalk).
  exists (Z.of_nat n), lb.
  split; [now apply fillMissing_keeps|].
  split; [now apply fillMissing_keeps | lia].
Qed.

Lemma layout_levels_upward_witness :
  ∃ levelMap,
    layoutHasseLevels 10 ["1"; "2"; "3"] [("1", "2"); ("2", "3"); ("1", "3")]
      = Some levelMap ∧
    ∀ a b, (a, b) ∈ [("1", "2"); ("2", "3"); ("1", "3")] →
           a ∈ ["1"; "2"; "3"] → b ∈ ["1"; "2"; "3"] →
           ∃ la lb, levelMap !! a = Some la ∧ levelMap !! b = Some lb ∧
                    (la < lb)%Z.
Proof.
  eexists. split; [vm_compute; reflexivity|].
  apply (layout_levels_upward 10 ["1"; "2"; "3"]
           [("1", "2"); ("2", "3"); ("1", "3")]).
  - apply (inside_acyclic_by_rank _ _
             (λ s, match s with String c _ => nat_of_ascii c | _ => 0 end)).
    intros a b Hab _ _.
    repeat (apply elem_of_cons in Hab as [Hab | Hab];
            [injection Hab as -> ->; vm_compute; lia|]).
    inversion Hab.
  - vm_compute. discriminate.
  - vm_compute. reflexivity.
Defined.

End RelationFacts.

(** * Facts about the matrices *)

Module MatrixFacts.
Import Relations Matrix.

Lemma indexMap_snoc (l : list Elem) (x : Elem) :
  indexMap (l ++ [x]) = <[x := length l]> (indexMap l).
Proof.
  unfold indexMap. rewrite imap_app, fold_left_app. cbn.
  now rewrite Nat.add_0_r.
Qed.

(** The index map sends an element to its last position. *)
Lemma indexMap_spec (Uarr : list Elem) (e : Elem) (i : nat) :
  indexMap Uarr !! e = Some i ↔
  Uarr !! i = Some e ∧ ∀ k, i < k → Uarr !! k ≠ Some e.
Proof.
  revert i. induction Uarr as [|x l IH] using rev_ind; intros i.
  - unfold indexMap. cbn. rewrite lookup_empty. split; [discriminate|].
    intros [H _]. discriminate.
  - rewrite indexMap_snoc. destruct (decide (e = x)) as [->|Hne].
    + rewrite lookup_insert_eq. split.
      * intros E. injection E as <-. split.
        -- rewrite lookup_app_r by lia. now rewrite Nat.sub_diag.
        -- intros k Hk. rewrite lookup_ge_None_2; [discriminate|].
           rewrite length_app. cbn. lia.
      * intros [Hi Hlast]. f_equal.
        destruct (Nat.lt_trichotomy i (length l)) as [Hlt|[->|Hgt]];
          [|reflexivity|].
        -- destruct (Hlast (length l) Hlt).
           rewrite lookup_app_r by lia. now rewrite Nat.sub_diag.
        -- rewrite lookup_ge_None_2 in Hi; [discriminate|].
           rewrite length_app. cbn. lia.
    + rewrite lookup_insert_ne by congruence. rewrite IH. split.
      * intros [Hi Hlast]. pose proof (lookup_lt_Some _ _ _ Hi) as Hlt.
        split; [now rewrite lookup_app_l by lia|].
        intros k Hk. destruct (decide (k < length l)) as [Hkl|Hkl].
        -- rewrite lookup_app_l by lia. now apply Hlast.
        -- rewrite lookup_app_r by lia.
           destruct (k - length l) as [|d]; cbn; [congruence | discriminate].
      * intros [Hi Hlast].
        assert (Hlt : i < length l).
        { pose proof (lookup_lt_Some _ _ _ Hi) as Hlt.
          rewrite length_app in Hlt. cbn in Hlt.
          destruct (decide (i = length l)) as [->|]; [|lia].
          rewrite lookup_app_r in Hi by lia.
          rewrite Nat.sub_diag in Hi. cbn in Hi. congruence. }
        rewrite lookup_app_l in Hi by lia. split; [assumption|].
        intros k Hk Hke. apply (Hlast k Hk).
        pose proof (lookup_lt_Some _ _ _ Hke).
        now rewrite lookup_app_l by lia.
Qed.

Lemma indexMap_lt (Uarr : list Elem) (e : Elem) (i : nat) :
  indexMap Uarr !! e = Some i → i < length Uarr.
Proof.
  intros H. apply indexMap_spec in H as [H _].
  exact (lookup_lt_Some _ _ _ H).
Qed.

Lemma indexMap_NoDup (Uarr : list Elem) (e : Elem) (i : nat) :
  NoDup Uarr → indexMap Uarr !! e = Some i ↔ Uarr !! i = Some e.
Proof.
  intros Hnd. rewrite indexMap_spec. split; [tauto|].
  intros Hi. split; [assumption|]. intros k Hk Hke.
  pose proof (NoDup_lookup _ _ _ _ Hnd Hi Hke). lia.
Qed.

Lemma marks_iff (n : nat) (P Q : nat → nat → Prop) (M : list (list Z)) :
  (∀ i j, P i j ↔ Q i j) → Marks n P M → Marks n Q M.
Proof.
  intros HPQ [Hrect Hcells]. split; [assumption|].
  intros i j Hi Hj. specialize (HPQ i j).
  destruct (Hcells i j Hi Hj) as [[? ?]|[? ?]]; [left | right]; tauto.
Qed.

Lemma markPair_marks (n : nat) (idx : gmap string nat)
    (P : nat → nat → Prop) (M : list (list Z)) (p : Pair) :
  (∀ e i, idx !! e = Some i → i < n) →
  Marks n P M →
  Marks n (λ i j, P i j ∨ Hit idx [p] i j) (markPair idx M p).
Proof.
  intros Hidx [Hrect Hcells]. unfold markPair.
  assert (Hhit : ∀ i j, Hit idx [p] i j ↔
                        idx !! p.1 = Some i ∧ idx !! p.2 = Some j).
  { intros i j. split.
    - intros (a & b & Hab & Ha & Hb).
      apply list_elem_of_singleton in Hab. subst p. tauto.
    - intros [Ha Hb]. exists p.1, p.2. split; [|tauto].
      destruct p. now left. }
  destruct (idx !! p.1) as [i0|] eqn:E1.
  2: { apply (marks_iff n P); [|now split].
       intros i j. rewrite Hhit. split; [tauto|].
       intros [?|[? _]]; [assumption | discriminate]. }
  destruct (idx !! p.2) as [j0|] eqn:E2.
  2: { apply (marks_iff n P); [|now split].
       intros i j. rewrite Hhit. split; [tauto|].
       intros [?|[_ ?]]; [assumption | discriminate]. }
  pose proof (Hidx _ _ E1) as Hi0. pose proof (Hidx _ _ E2) as Hj0.
  split; [now apply ModularFacts.setEntry_rect|].
  intros i j Hi Hj.
  rewrite (ModularFacts.entry_setEntry n) by assumption.
  destruct (decide (i = i0 ∧ j = j0)) as [[-> ->]|Hne].
  - left. split; [reflexivity|]. right. now apply Hhit.
  - destruct (Hcells i j Hi Hj) as [[? ?]|[? HnP]]; [left; tauto|].
    right. split; [assumption|].
    intros [?|Hh]; [tauto|]. apply Hhit in Hh as [Ha Hb].
    apply Hne. split; congruence.
Qed.

Lemma markPair_fold (n : nat) (idx : gmap string nat) (pairs : list Pair) :
  (∀ e i, idx !! e = Some i → i < n) →
  ∀ P M, Marks n P M →
         Marks n (λ i j, P i j ∨ Hit idx pairs i j)
               (fold_left (markPair idx) pairs M).
Proof.
  intros Hidx. induction pairs as [|p pairs IH]; intros P M HM;
    cbn [fold_left].
  - apply (marks_iff n P); [|assumption].
    intros i j. split; [tauto|].
    intros [?|(a & b & Hab & _)]; [assumption | inversion Hab].
  - apply (marks_iff n (λ i j, (P i j ∨ Hit idx [p] i j)
                               ∨ Hit idx pairs i j)).
    + intros i j. split.
      * intros [[?|(a & b & Hab & Ha & Hb)]|(a & b & Hab & Ha & Hb)].
        -- now left.
        -- right. exists a, b. apply list_elem_of_singleton in Hab.
           subst p. split; [now left | tauto].
        -- right. exists a, b. split; [now right | tauto].
      * intros [?|(a & b & Hab & Ha & Hb)]; [now left; left|].
        apply elem_of_cons in Hab as [<-|Hab].
        -- left. right. exists a, b. split; [now left | tauto].
        -- right. exists a, b. tauto.
    + apply IH. now apply markPair_marks.
Qed.

Lemma zero_marks (n : nat) :
  Marks n (λ _ _, False) (replicate n (replicate n 0%Z)).
Proof.
  split; [apply ModularFacts.rect_zero|].
  intros i j Hi Hj. right. split; [|tauto].
  unfold Modular.entry. rewrite lookup_replicate_2 by assumption. cbn.
  now rewrite lookup_replicate_2.
Qed.

(** The matrix has 1 exactly in the cells hit by a pair. *)
Lemma matrix_marks (Uarr : list Elem) (pairs : list Pair) :
  Marks (length Uarr) (Hit (indexMap Uarr) pairs)
        (buildRelationMatrix Uarr pairs).
Proof.
  unfold buildRelationMatrix. cbn zeta.
  apply (marks_iff _ (λ i j, False ∨ Hit (indexMap Uarr) pairs i j));
    [intros i j; tauto|].
  apply markPair_fold; [apply indexMap_lt | apply zero_marks].
Qed.

(** X19. For a label list without repetition, both matrix builders
    return an n x n array whose cell (i, j) is 1 when the pair
    (Uarr[i], Uarr[j]) is in the list and 0 otherwise; pairs with an
    endpoint outside the labels leave no mark. *)
Theorem matrix_entries (Uarr : list Elem) (pairs : list Pair) :
  NoDup Uarr →
  Modular.Rect (length Uarr) (buildRelationMatrix Uarr pairs) ∧
  buildAdjacencyMatrix Uarr pairs = buildRelationMatrix Uarr pairs ∧
  ∀ i j a b,
    Uarr !! i = Some a → Uarr !! j = Some b →
    Modular.entry (buildRelationMatrix Uarr pairs) i j
    = Some (if decide ((a, b) ∈ pairs) then 1%Z else 0%Z).
Proof.
  intros Hnd. destruct (matrix_marks Uarr pairs) as [Hrect Hcells].
  split; [assumption|]. split; [reflexivity|].
  intros i j a b Ha Hb.
  pose proof (lookup_lt_Some _ _ _ Ha) as Hi.
  pose proof (lookup_lt_Some _ _ _ Hb) as Hj.
  destruct (Hcells i j Hi Hj) as [[-> Hhit]|[-> Hnhit]].
  - destruct Hhit as (a' & b' & Hab & Ha' & Hb').
    apply indexMap_NoDup in Ha', Hb'; try assumption.
    rewrite Ha in Ha'. rewrite Hb in Hb'.
    injection Ha' as ->. injection Hb' as ->.
    now rewrite decide_True.
  - rewrite decide_False; [reflexivity|].
    intros Hab. apply Hnhit. exists a, b.
    split; [assumption|]. split; now apply indexMap_NoDup.
Qed.

Lemma matrix_entries_witness :
  Modular.Rect (length ["a"; "b"])
    (buildRelationMatrix ["a"; "b"] [("a", "b"); ("b", "c")]) ∧
  buildAdjacencyMatrix ["a"; "b"] [("a", "b"); ("b", "c")]
  = buildRelationMatrix ["a"; "b"] [("a", "b"); ("b", "c")] ∧
  ∀ i j a b,
    ["a"; "b"] !! i = Some a → ["a"; "b"] !! j = Some b →
    Modular.entry (buildRelationMatrix ["a"; "b"] [("a", "b"); ("b", "c")])
                  i j
    = Some (if decide ((a, b) ∈ [("a", "b"); ("b", "c")])
            then 1%Z else 0%Z).
Proof.
  apply (matrix_entries ["a"; "b"] [("a", "b"); ("b", "c")]).
  apply NoDup_cons. split; [|apply NoDup_singleton].
  intros H. apply list_elem_of_singleton in H. discriminate.
Defined.

(** X20. When a label is repeated, the index map keeps its last
    position only: the row and the column of every earlier occurrence
    stay all zero, whatever the pairs are. *)
Theorem matrix_repeated_label_blank (Uarr : list Elem) (pairs : list Pair)
    (e : Elem) (i k : nat) :
  Uarr !! i = Some e → Uarr !! k = Some e → i < k →
  ∀ j, j < length Uarr →
       Modular.entry (buildRelationMatrix Uarr pairs) i j = Some 0%Z ∧
       Modular.entry (buildRelationMatrix Uarr pairs) j i = Some 0%Z.
Proof.
  intros Hi Hk Hik j Hj.
  destruct (matrix_marks Uarr pairs) as [_ Hcells].
  pose proof (lookup_lt_Some _ _ _ Hi) as Hin.
  assert (Hnone : ∀ x, indexMap Uarr !! x ≠ Some i).
  { intros x Hx. apply indexMap_spec in Hx as [Hx Hlast].
    assert (x = e) by congruence. subst x. exact (Hlast k Hik Hk). }
  split.
  - destruct (Hcells i j Hin Hj) as [[_ Hhit]|[-> _]]; [|reflexivity].
    destruct Hhit as (a & b & _ & Ha & _). destruct (Hnone a Ha).
  - destruct (Hcells j i Hj Hin) as [[_ Hhit]|[-> _]]; [|reflexivity].
    destruct Hhit as (a & b & _ & _ & Hb). destruct (Hnone b Hb).
Qed.

Lemma matrix_repeated_label_blank_witness :
  ["a"; "b"; "a"] !! 0 = Some "a" ∧ ["a"; "b"; "a"] !! 2 = Some "a" ∧
  ∀ j, j < length ["a"; "b"; "a"] →
       Modular.entry
         (buildRelationMatrix ["a"; "b"; "a"] [("a", "b"); ("b", "a")]) 0 j
       = Some 0%Z ∧
       Modular.entry
         (buildRelationMatrix ["a"; "b"; "a"] [("a", "b"); ("b", "a")]) j 0
       = Some 0%Z.
Proof.
  split; [reflexivity|]. split; [reflexivity|].
  apply (matrix_repeated_label_blank ["a"; "b"; "a"]
           [("a", "b"); ("b", "a")] "a" 0 2); [reflexivity | reflexivity | lia].
Defined.

End MatrixFacts.

(** * Facts about the extrema *)

Module ExtremaFacts.
Import Relations Extrema.

Lemma hasSmaller_false (relSet : gset string) (arr : list Elem) (x : Elem) :
  hasSmaller relSet arr x = false ↔
  ∀ y, y ∈ arr → y ≠ x → pairKey y x ∉ relSet.
Proof.
  unfold hasSmaller. induction arr as [|z arr IH]; cbn [existsb].
  - split; [intros _ y Hy; inversion Hy | reflexivity].
  - rewrite orb_false_iff, IH. unfold leq. split.
    + intros [Hz Hrest] y Hy Hne.
      apply elem_of_cons in Hy as [->|Hy]; [|now apply Hrest].
      apply andb_false_iff in Hz as [Hz|Hz].
      * apply negb_false_iff, String.eqb_eq in Hz. contradiction.
      * now apply bool_decide_eq_false_1 in Hz.
    + intros Hall. split.
      * destruct (String.eqb_spec z x) as [->|Hne]; [reflexivity|]. cbn.
        apply bool_decide_eq_false_2. apply Hall; [now left | assumption].
      * intros y Hy. apply Hall. now right.
Qed.

Lemma hasGreater_false (relSet : gset string) (arr : list Elem) (x : Elem) :
  hasGreater relSet arr x = false ↔
  ∀ y, y ∈ arr → y ≠ x → pairKey x y ∉ relSet.
Proof.
  unfold hasGreater. induction arr as [|z arr IH]; cbn [existsb].
  - split; [intros _ y Hy; inversion Hy | reflexivity].
  - rewrite orb_false_iff, IH. unfold leq. split.
    + intros [Hz Hrest] y Hy Hne.
      apply elem_of_cons in Hy as [->|Hy]; [|now apply Hrest].
      apply andb_false_iff in Hz as [Hz|Hz].
      * apply negb_false_iff, String.eqb_eq in Hz. contradiction.
      * now apply bool_decide_eq_false_1 in Hz.
    + intros Hall. split.
      * destruct (String.eqb_spec z x) as [->|Hne]; [reflexivity|]. cbn.
        apply bool_decide_eq_false_2. apply Hall; [now left | assumption].
      * intros y Hy. apply Hall. now right.
Qed.

(** The loop computes two filters of the array. *)
Lemma classify_fold (relSet : gset string) (arr l : list Elem) :
  ∀ st,
    fold_left (classify relSet arr) l st
    = (st.1 ++ filter (λ x, hasSmaller relSet arr x = false) l,
       st.2 ++ filter (λ x, hasGreater relSet arr x = false) l).
Proof.
  induction l as [|x l IH]; intros [mins maxs]; cbn [fold_left fst snd].
  - now rewrite !app_nil_r.
  - rewrite IH. unfold classify. cbn [fst snd]. rewrite !filter_cons.
    destruct (hasSmaller relSet arr x); destruct (hasGreater relSet arr x);
      cbn [negb];
      repeat (rewrite decide_True by reflexivity);
      repeat (rewrite decide_False by discriminate);
      now rewrite <- ?app_assoc.
Qed.

Lemma minimals_spec (U : list Elem) (relSet : gset string) (x : Elem) :
  x ∈ minimals (computeExtremaByR U relSet) ↔
  x ∈ U ∧ ∀ y, y ∈ U → y ≠ x → pairKey y x ∉ relSet.
Proof.
  unfold computeExtremaByR. cbn [minimals]. rewrite classify_fold.
  cbn [fst app]. rewrite list_elem_of_filter, hasSmaller_false. tauto.
Qed.

Lemma maximals_spec (U : list Elem) (relSet : gset string) (x : Elem) :
  x ∈ maximals (computeExtremaByR U relSet) ↔
  x ∈ U ∧ ∀ y, y ∈ U → y ≠ x → pairKey x y ∉ relSet.
Proof.
  unfold computeExtremaByR. cbn [maximals]. rewrite classify_fold.
  cbn [snd app]. rewrite list_elem_of_filter, hasGreater_false. tauto.
Qed.

Lemma forallb_leq_l (relSet : gset string) (arr : list Elem) (m : Elem) :
  forallb (λ y, leq relSet m y) arr = true ↔
  ∀ y, y ∈ arr → pairKey m y ∈ relSet.
Proof.
  rewrite forallb_forall. unfold leq. split.
  - intros H y Hy. apply list_elem_of_In in Hy. apply H in Hy.
    now apply bool_decide_eq_true_1 in Hy.
  - intros H y Hy. apply list_elem_of_In in Hy.
    apply bool_decide_eq_true_2. now apply H.
Qed.

Lemma forallb_leq_r (relSet : gset string) (arr : list Elem) (m : Elem) :
  forallb (λ y, leq relSet y m) arr = true ↔
  ∀ y, y ∈ arr → pairKey y m ∈ relSet.
Proof.
  rewrite forallb_forall. unfold leq. split.
  - intros H y Hy. apply list_elem_of_In in Hy. apply H in Hy.
    now apply bool_decide_eq_true_1 in Hy.
  - intros H y Hy. apply list_elem_of_In in Hy.
    apply bool_decide_eq_true_2. now apply H.
Qed.

Lemma find_Some_elem {A} (f : A → bool) (l : list A) (x : A) :
  find f l = Some x → x ∈ l ∧ f x = true.
Proof.
  intros H. apply find_some in H as [Hin Hf].
  split; [now apply list_elem_of_In | assumption].
Qed.

Lemma find_None_elem {A} (f : A → bool) (l : list A) (x : A) :
  find f l = None → x ∈ l → f x = false.
Proof.
  intros H Hx. apply (find_none f l H). now apply list_elem_of_In.
Qed.

Lemma minimum_eq (U : list Elem) (relSet : gset string) :
  minimum (computeExtremaByR U relSet)
  = find (λ m, forallb (λ y, leq relSet m y) U)
         (minimals (computeExtremaByR U relSet)).
Proof. reflexivity. Qed.

Lemma maximum_eq (U : list Elem) (relSet : gset string) :
  maximum (computeExtremaByR U relSet)
  = find (λ M, forallb (λ y, leq relSet y M) U)
         (maximals (computeExtremaByR U relSet)).
Proof. reflexivity. Qed.

(** A list without repetition whose elements all equal [m], and which
    contains [m], is [[m]]. *)
Lemma nodup_only (l : list Elem) (m : Elem) :
  NoDup l → m ∈ l → (∀ x, x ∈ l → x = m) → l = [m].
Proof.
  intros Hnd Hm Hall. destruct l as [|a l]; [inversion Hm|].
  assert (a = m) by (apply Hall; now left). subst a.
  destruct l as [|b l]; [reflexivity|].
  assert (b = m) by (apply Hall; right; now left). subst b.
  apply NoDup_cons in Hnd as [Hnin _]. destruct Hnin. now left.
Qed.

(** The lists of minimal and maximal elements computed from a
    relation key set: [x] is listed as minimal exactly when it is in [U]
    and no other element of [U] is related to it, and as maximal exactly
    when it is related to no other element of [U]; both lists keep the
    order of [U], and [computeExtremaByClosure] computes the same. *)
Lemma extrema_as_filters (U : list Elem) (relSet : gset string) :
  computeExtremaByClosure U relSet = computeExtremaByR U relSet ∧
  minimals (computeExtremaByR U relSet)
  = filter (λ x, Forall (λ y, y ≠ x → pairKey y x ∉ relSet) U) U ∧
  maximals (computeExtremaByR U relSet)
  = filter (λ x, Forall (λ y, y ≠ x → pairKey x y ∉ relSet) U) U.
Proof.
  split; [reflexivity|].
  unfold computeExtremaByR. cbn [minimals maximals]. rewrite classify_fold.
  cbn [fst snd app]. split.
  - apply list_filter_iff. intros x.
    rewrite hasSmaller_false, Forall_forall. reflexivity.
  - apply list_filter_iff. intros x.
    rewrite hasGreater_false, Forall_forall. reflexivity.
Qed.

(** X21. A least element found by [computeExtremaByR] is the only
    minimal element, and a greatest element the only maximal one: when
    [minimum] is not null the list [minimals] is exactly [[minimum]], and
    the minimum is related to every element of [U]; dually for
    [maximum]. *)
Theorem extrema_minimum_unique (U : list Elem) (relSet : gset string) :
  NoDup U →
  (∀ m, minimum (computeExtremaByR U relSet) = Some m →
        minimals (computeExtremaByR U relSet) = [m] ∧
        ∀ y, y ∈ U → pairKey m y ∈ relSet) ∧
  (∀ M, maximum (computeExtremaByR U relSet) = Some M →
        maximals (computeExtremaByR U relSet) = [M] ∧
        ∀ y, y ∈ U → pairKey y M ∈ relSet).
Proof.
  intros Hnd.
  assert (Hmins : NoDup (minimals (computeExtremaByR U relSet))).
  { unfold computeExtremaByR. cbn [minimals]. rewrite classify_fold.
    cbn [fst app]. now apply NoDup_filter. }
  assert (Hmaxs : NoDup (maximals (computeExtremaByR U relSet))).
  { unfold computeExtremaByR. cbn [maximals]. rewrite classify_fold.
    cbn [snd app]. now apply NoDup_filter. }
  split.
  - intros m Hm. unfold computeExtremaByR in Hm. cbn [minimum] in Hm.
    apply find_Some_elem in Hm as [Hin Hleast].
    fold (minimals (computeExtremaByR U relSet)) in Hin.
    rewrite forallb_leq_l in Hleast. split; [|assumption].
    apply nodup_only; [assumption | assumption |].
    intros x Hx. apply minimals_spec in Hx as [HxU Hx].
    apply minimals_spec in Hin as [HmU _].
    destruct (decide (x = m)) as [|Hne]; [assumption|].
    destruct (Hx m HmU ltac:(congruence)). now apply Hleast.
  - intros M HM. unfold computeExtremaByR in HM. cbn [maximum] in HM.
    apply find_Some_elem in HM as [Hin Hgreatest].
    fold (maximals (computeExtremaByR U relSet)) in Hin.
    rewrite forallb_leq_r in Hgreatest. split; [|assumption].
    apply nodup_only; [assumption | assumption |].
    intros x Hx. apply maximals_spec in Hx as [HxU Hx].
    apply maximals_spec in Hin as [HMU _].
    destruct (decide (x = M)) as [|Hne]; [assumption|].
    destruct (Hx M HMU ltac:(congruence)). now apply Hgreatest.
Qed.

Lemma extrema_minimum_unique_witness :
  (∀ m, minimum (computeExtremaByR ["1"; "2"; "3"]
                   (relationSet [("1", "1"); ("2", "2"); ("3", "3");
                                 ("1", "2"); ("1", "3")])) = Some m →
        minimals (computeExtremaByR ["1"; "2"; "3"]
                   (relationSet [("1", "1"); ("2", "2"); ("3", "3");
                                 ("1", "2"); ("1", "3")])) = [m] ∧
        ∀ y, y ∈ ["1"; "2"; "3"] →
             pairKey m y ∈ relationSet [("1", "1"); ("2", "2"); ("3", "3");
                                        ("1", "2"); ("1", "3")]) ∧
  (∀ M, maximum (computeExtremaByR ["1"; "2"; "3"]
                   (relationSet [("1", "1"); ("2", "2"); ("3", "3");
                                 ("1", "2"); ("1", "3")])) = Some M →
        maximals (computeExtremaByR ["1"; "2"; "3"]
                   (relationSet [("1", "1"); ("2", "2"); ("3", "3");
                                 ("1", "2"); ("1", "3")])) = [M] ∧
        ∀ y, y ∈ ["1"; "2"; "3"] →
             pairKey y M ∈ relationSet [("1", "1"); ("2", "2"); ("3", "3");
                                        ("1", "2"); ("1", "3")]).
Proof.
  apply (extrema_minimum_unique ["1"; "2"; "3"]
           (relationSet [("1", "1"); ("2", "2"); ("3", "3");
                         ("1", "2"); ("1", "3")])).
  repeat (apply NoDup_cons; split;
          [intros H; repeat (apply elem_of_cons in H as [H|H];
                             [discriminate|]); inversion H|]).
  apply NoDup_nil. exact I.
Defined.

(** X22. When the key relation is antisymmetric on [U], the reported
    minimum is exactly the least element: [minimum] is [m] if and only
    if [m] is in [U] and is related to every element of [U]; dually for
    the maximum. *)
Theorem extrema_minimum_iff_least (U : list Elem) (relSet : gset string) :
  (∀ a b, a ∈ U → b ∈ U →
          pairKey a b ∈ relSet → pairKey b a ∈ relSet → a = b) →
  (∀ m, minimum (computeExtremaByR U relSet) = Some m ↔
        m ∈ U ∧ ∀ y, y ∈ U → pairKey m y ∈ relSet) ∧
  (∀ M, maximum (computeExtremaByR U relSet) = Some M ↔
        M ∈ U ∧ ∀ y, y ∈ U → pairKey y M ∈ relSet).
Proof.
  intros Hanti. split.
  - intros m. split.
    + intros Hm. rewrite minimum_eq in Hm.
      apply find_Some_elem in Hm as [Hin Hleast].
      apply minimals_spec in Hin as [HmU _].
      rewrite forallb_leq_l in Hleast. tauto.
    + intros [HmU Hleast].
      assert (Hmin : m ∈ minimals (computeExtremaByR U relSet)).
      { apply minimals_spec. split; [assumption|].
        intros y Hy Hne Hym. apply Hne.
        apply (Hanti y m Hy HmU Hym). now apply Hleast. }
      rewrite minimum_eq.
      destruct (find (λ m0, forallb (λ y, leq relSet m0 y) U)
                     (minimals (computeExtremaByR U relSet)))
        as [m'|] eqn:Ef.
      * apply find_Some_elem in Ef as [Hin' Hleast'].
        apply minimals_spec in Hin' as [Hm'U _].
        rewrite forallb_leq_l in Hleast'. f_equal.
        apply (Hanti m' m Hm'U HmU); [now apply Hleast' | now apply Hleast].
      * apply (find_None_elem _ _ m) in Ef; [|assumption]. cbn beta in Ef.
        pose proof (proj2 (forallb_leq_l relSet U m) Hleast). congruence.
  - intros M. split.
    + intros HM. rewrite maximum_eq in HM.
      apply find_Some_elem in HM as [Hin Hgreatest].
      apply maximals_spec in Hin as [HMU _].
      rewrite forallb_leq_r in Hgreatest. tauto.
    + intros [HMU Hgreatest].
      assert (Hmax : M ∈ maximals (computeExtremaByR U relSet)).
      { apply maximals_spec. split; [assumption|].
        intros y Hy Hne HMy. apply Hne.
        apply (Hanti y M Hy HMU); [now apply Hgreatest | assumption]. }
      rewrite maximum_eq.
      destruct (find (λ M0, forallb (λ y, leq relSet y M0) U)
                     (maximals (computeExtremaByR U relSet)))
        as [M'|] eqn:Ef.
      * apply find_Some_elem in Ef as [Hin' Hgreatest'].
        apply maximals_spec in Hin' as [HM'U _].
        rewrite forallb_leq_r in Hgreatest'. f_equal.
        apply (Hanti M' M HM'U HMU); [now apply Hgreatest | now apply Hgreatest'].
      * apply (find_None_elem _ _ M) in Ef; [|assumption]. cbn beta in Ef.
        pose proof (proj2 (forallb_leq_r relSet U M) Hgreatest). congruence.
Qed.

Lemma extrema_minimum_iff_least_witness :
  (∀ m, minimum (computeExtremaByR ["1"; "2"]
                   (relationSet [("1", "1"); ("2", "2"); ("1", "2")]))
        = Some m ↔
        m ∈ ["1"; "2"] ∧
        ∀ y, y ∈ ["1"; "2"] →
             pairKey m y ∈ relationSet [("1", "1"); ("2", "2"); ("1", "2")]) ∧
  (∀ M, maximum (computeExtremaByR ["1"; "2"]
                   (relationSet [("1", "1"); ("2", "2"); ("1", "2")]))
        = Some M ↔
        M ∈ ["1"; "2"] ∧
        ∀ y, y ∈ ["1"; "2"] →
             pairKey y M ∈ relationSet [("1", "1"); ("2", "2"); ("1", "2")]).
Proof.
  apply (extrema_minimum_iff_least ["1"; "2"]
           (relationSet [("1", "1"); ("2", "2"); ("1", "2")])).
  intros a b Ha Hb Hab Hba.
  apply elem_of_cons in Ha as [->|Ha];
    [|apply list_elem_of_singleton in Ha; subst a];
    (apply elem_of_cons in Hb as [->|Hb];
     [|apply list_elem_of_singleton in Hb; subst b]);
    try reflexivity; exfalso.
  - assert (Hf : bool_decide
                   (pairKey "2" "1"
                    ∈ relationSet [("1", "1"); ("2", "2"); ("1", "2")])
                 = false) by (vm_compute; reflexivity).
    apply bool_decide_eq_false_1 in Hf. contradiction.
  - assert (Hf : bool_decide
                   (pairKey "2" "1"
                    ∈ relationSet [("1", "1"); ("2", "2"); ("1", "2")])
                 = false) by (vm_compute; reflexivity).
    apply bool_decide_eq_false_1 in Hf. contradiction.
Defined.

(** *** computeMinMaxByHasse *)

Lemma linkCover_swap (universe : list Elem)
    (ps : gmap string (list string) * gmap string (list string)) (p : Pair) :
  linkCover universe (prod_swap ps) (prod_swap p)
  = prod_swap (linkCover universe ps p).
Proof.
  unfold linkCover. destruct ps as [m1 m2], p as [a b]. cbn [prod_swap fst snd].
  rewrite orb_comm.
  now destruct (negb (bool_decide (a ∈ universe))
                || negb (bool_decide (b ∈ universe))).
Qed.

Lemma linkCover_fold_swap (universe : list Elem) (covers : list Pair) :
  ∀ ps, fold_left (linkCover universe) (prod_swap <$> covers) (prod_swap ps)
        = prod_swap (fold_left (linkCover universe) covers ps).
Proof.
  induction covers as [|p covers IH]; intros ps; [reflexivity|].
  cbn [fmap list_fmap fold_left]. now rewrite linkCover_swap, IH.
Qed.

(** The predecessor sets are the successor sets of the reversed
    pairs. *)
Lemma preds_as_succs (universe : list Elem) (covers : list Pair) :
  (buildPredsSuccs universe covers).1
  = (buildPredsSuccs universe (prod_swap <$> covers)).2.
Proof.
  unfold buildPredsSuccs.
  change (emptySets universe, emptySets universe)
    with (prod_swap (emptySets universe, emptySets universe)) at 2.
  rewrite linkCover_fold_swap.
  now destruct (fold_left (linkCover universe) covers _).
Qed.

Lemma elem_of_succs (universe : list Elem) (covers : list Pair) (a b : Elem) :
  b ∈ default [] ((buildPredsSuccs universe covers).2 !! a) ↔
  (a, b) ∈ covers ∧ a ∈ universe ∧ b ∈ universe.
Proof.
  split; [apply RelationFacts.succs_only_covers|].
  intros (Hab & Ha & Hb). now apply RelationFacts.succs_cover.
Qed.

Lemma elem_of_preds (universe : list Elem) (covers : list Pair) (a b : Elem) :
  a ∈ default [] ((buildPredsSuccs universe covers).1 !! b) ↔
  (a, b) ∈ covers ∧ a ∈ universe ∧ b ∈ universe.
Proof.
  rewrite preds_as_succs, elem_of_succs, list_elem_of_fmap. split.
  - intros ((p & Hp & Hin) & Hb & Ha). destruct p as [x y].
    injection Hp as -> ->. tauto.
  - intros (Hab & Ha & Hb). split; [|tauto]. now exists (a, b).
Qed.

Lemma emptySets_dom (universe : list Elem) (u : Elem) :
  is_Some (emptySets universe !! u) ↔ u ∈ universe.
Proof.
  split; [|apply RelationFacts.emptySets_lookup].
  unfold emptySets.
  assert (Hgen : ∀ m : gmap string (list string),
             is_Some (fold_left (λ m u, <[u := []]> m) universe m !! u) →
             u ∈ universe ∨ is_Some (m !! u)).
  { induction universe as [|x universe IH]; intros m H; cbn [fold_left] in H;
      [now right|].
    apply IH in H as [H|H]; [left; now right|].
    destruct (decide (u = x)) as [->|Hne]; [left; now left|].
    rewrite lookup_insert_ne in H by congruence. now right. }
  intros H. apply Hgen in H as [H|H]; [assumption|].
  rewrite lookup_empty in H. now destruct H.
Qed.

(** The key guard of [computeMinMaxByHasse] is the membership guard of
    [layoutHasse]: the maps keep the universe as their key set. *)
Lemma linkCoverKeys_fold (universe : list Elem) (covers : list Pair) :
  ∀ ps,
    (∀ u, is_Some (ps.1 !! u) ↔ u ∈ universe) →
    (∀ u, is_Some (ps.2 !! u) ↔ u ∈ universe) →
    fold_left linkCoverKeys covers ps
    = fold_left (linkCover universe) covers ps.
Proof.
  induction covers as [|p covers IH]; intros ps H1 H2; [reflexivity|].
  cbn [fold_left].
  assert (Hstep : linkCoverKeys ps p = linkCover universe ps p).
  { unfold linkCoverKeys, linkCover.
    rewrite (bool_decide_ext _ _ (H1 p.2)), (bool_decide_ext _ _ (H2 p.1)).
    now rewrite orb_comm. }
  rewrite Hstep. apply IH.
  - intros u. rewrite <- H1. unfold linkCover.
    destruct (_ || _); [reflexivity|]. cbn [fst].
    destruct (decide (p.2 = u)) as [->|Hne].
    + rewrite lookup_alter_eq. apply fmap_is_Some.
    + now rewrite lookup_alter_ne.
  - intros u. rewrite <- H2. unfold linkCover.
    destruct (_ || _); [reflexivity|]. cbn [snd].
    destruct (decide (p.1 = u)) as [->|Hne].
    + rewrite lookup_alter_eq. apply fmap_is_Some.
    + now rewrite lookup_alter_ne.
Qed.

Lemma classifyByDegree_fold
    (ps : gmap string (list string) * gmap string (list string))
    (l : list Elem) :
  ∀ st,
    fold_left (classifyByDegree ps) l st
    = (st.1 ++ filter (λ u, default [] (ps.1 !! u) = []) l,
       st.2 ++ filter (λ u, default [] (ps.2 !! u) = []) l).
Proof.
  induction l as [|x l IH]; intros [mins maxs]; cbn [fold_left fst snd].
  - now rewrite !app_nil_r.
  - rewrite IH. unfold classifyByDegree. cbn [fst snd]. rewrite !filter_cons.
    destruct (default [] (ps.1 !! x)) as [|? ?];
      destruct (default [] (ps.2 !! x)) as [|? ?]; cbn [length Nat.eqb];
      repeat (rewrite decide_True by reflexivity);
      repeat (rewrite decide_False by discriminate);
      now rewrite <- ?app_assoc.
Qed.

Lemma nil_iff_no_elem {A} (l : list A) : l = [] ↔ ∀ x, x ∉ l.
Proof.
  split; [intros -> x Hx; inversion Hx|].
  destruct l as [|a l]; [reflexivity|]. intros H. destruct (H a). now left.
Qed.

Lemma filter_ext_elem {A} (P Q : A → Prop) `{!∀ x, Decision (P x)}
    `{!∀ x, Decision (Q x)} (l : list A) :
  (∀ x, x ∈ l → P x ↔ Q x) → filter P l = filter Q l.
Proof.
  induction l as [|a l IH]; intros Hext; [reflexivity|].
  rewrite !filter_cons.
  rewrite IH by (intros x Hx; apply Hext; now right).
  pose proof (Hext a ltac:(now left)) as Ha.
  destruct (decide (P a)); destruct (decide (Q a)); tauto.
Qed.

Lemma minmax_filters (universe : list Elem) (covers : list Pair) :
  (computeMinMaxByHasse universe covers).1
  = filter (λ u, Forall (λ x, (x, u) ∉ covers) universe) universe ∧
  (computeMinMaxByHasse universe covers).2
  = filter (λ u, Forall (λ x, (u, x) ∉ covers) universe) universe.
Proof.
  unfold computeMinMaxByHasse. cbn zeta.
  rewrite (linkCoverKeys_fold universe)
    by (intros u; cbn [fst snd]; apply emptySets_dom).
  fold (buildPredsSuccs universe covers).
  rewrite classifyByDegree_fold. cbn [fst snd app]. split.
  - apply filter_ext_elem. intros u Hu.
    rewrite nil_iff_no_elem, Forall_forall. split.
    + intros H x Hx Hxu. apply (H x). apply elem_of_preds. tauto.
    + intros H x Hx. apply elem_of_preds in Hx as (Hxu & Hx & _).
      now apply (H x).
  - apply filter_ext_elem. intros u Hu.
    rewrite nil_iff_no_elem, Forall_forall. split.
    + intros H x Hx Hux. apply (H x). apply elem_of_succs. tauto.
    + intros H x Hx. apply elem_of_succs in Hx as (Hux & _ & Hx).
      now apply (H x).
Qed.

(** X23. [computeMinMaxByHasse] lists, in the order of the universe,
    the elements that no element of the universe covers from below (the
    minimals) and those that cover no element of the universe (the
    maximals); cover pairs with an endpoint outside the universe are
    ignored. *)
Theorem minmax_by_hasse_spec (universe : list Elem) (covers : list Pair) :
  (computeMinMaxByHasse universe covers).1
  = filter (λ u, Forall (λ x, (x, u) ∉ covers) universe) universe ∧
  (computeMinMaxByHasse universe covers).2
  = filter (λ u, Forall (λ x, (u, x) ∉ covers) universe) universe.
Proof. exact (minmax_filters universe covers). Qed.

(** X24. The minimal elements reported by [computeMinMaxByHasse] are
    drawn on the bottom row: whenever [layoutHasse] produces a result,
    every one of them has level 0. *)
Theorem minimals_on_bottom_level (fuel : nat) (universe : list Elem)
    (covers : list Pair) (levelMap : gmap string Z) :
  layoutHasseLevels fuel universe covers = Some levelMap →
  ∀ u, u ∈ (computeMinMaxByHasse universe covers).1 →
       levelMap !! u = Some 0%Z.
Proof.
  intros Hrun u Hu.
  rewrite (proj1 (minmax_filters universe covers)) in Hu.
  apply list_elem_of_filter in Hu as [Hmin Hu].
  rewrite Forall_forall in Hmin.
  now apply (RelationFacts.layout_minimal_zero fuel universe covers).
Qed.

Lemma minimals_on_bottom_level_witness :
  layoutHasseLevels 10 ["1"; "2"; "3"] [("1", "2"); ("2", "3"); ("1", "3")]
  = Some ({[ "1" := 0; "2" := 1; "3" := 2 ]} : gmap string Z)%Z ∧
  ∀ u, u ∈ (computeMinMaxByHasse ["1"; "2"; "3"]
              [("1", "2"); ("2", "3"); ("1", "3")]).1 →
       ({[ "1" := 0; "2" := 1; "3" := 2 ]} : gmap string Z)%Z !! u
       = Some 0%Z.
Proof.
  split; [vm_compute; reflexivity|].
  apply (minimals_on_bottom_level 10 ["1"; "2"; "3"]
           [("1", "2"); ("2", "3"); ("1", "3")]).
  vm_compute. reflexivity.
Defined.

(** *** closureFromRelation *)

Lemma seen_addPair (a v : Elem) (st : ClosureState) :
  seen (addPair a v st) = {[pairKey a v]} ∪ seen st.
Proof.
  unfold addPair. cbn zeta.
  destruct (decide (pairKey a v ∈ seen st)); cbn [seen]; [|reflexivity].
  symmetry. apply subseteq_union_1_L. now apply singleton_subseteq_l.
Qed.

(** The key set built by [closureFromRelation] is the [seen] set of the
    search of [transitiveClosureFromCovers] on the same adjacency. *)
Lemma reachFrom_search (adj : gmap string (list string)) (a : Elem)
    (fuel : nat) :
  ∀ visited stack st,
    reachFrom fuel adj a visited stack (seen st)
    = seen <$> search fuel adj a visited stack st.
Proof.
  induction fuel as [|fuel IH]; intros visited stack st;
    destruct stack as [|v stack]; cbn [reachFrom search]; try reflexivity.
  destruct (decide (v ∈ visited)); [apply IH|].
  rewrite <- seen_addPair. apply IH.
Qed.

(** The search reads the adjacency map through its lookups only. *)
Lemma search_ext (adj1 adj2 : gmap string (list string)) (a : Elem)
    (fuel : nat) :
  (∀ v, default [] (adj1 !! v) = default [] (adj2 !! v)) →
  ∀ visited stack st,
    search fuel adj1 a visited stack st = search fuel adj2 a visited stack st.
Proof.
  intros Hext. induction fuel as [|fuel IH]; intros visited stack st;
    destruct stack as [|v stack]; cbn [search]; try reflexivity.
  destruct (decide (v ∈ visited)); [apply IH|].
  rewrite Hext. apply IH.
Qed.

Lemma filter_source_pairs (u v : Elem) (l : list Elem) :
  (filter (λ p : Pair, p.1 = v) ((λ w, (u, w)) <$> l)).*2
  = if decide (u = v) then l else [].
Proof.
  induction l as [|w l IH]; cbn [fmap list_fmap].
  - now destruct (decide (u = v)).
  - rewrite filter_cons. cbn [fst]. fold (fmap (M := list) (λ w, (u, w)) l).
    destruct (decide (u = v)) as [Heq|Hne].
    + cbn [fmap list_fmap snd]. f_equal. exact IH.
    + exact IH.
Qed.

Lemma adjEdges_cons (u : Elem) (U : list Elem)
    (adj : gmap string (list string)) :
  adjEdges (u :: U) adj
  = ((λ w, (u, w)) <$> default [] (adj !! u)) ++ adjEdges U adj.
Proof. reflexivity. Qed.

Lemma filter_adjEdges (U : list Elem) (adj : gmap string (list string))
    (v : Elem) :
  NoDup U →
  (filter (λ p : Pair, p.1 = v) (adjEdges U adj)).*2
  = if decide (v ∈ U) then default [] (adj !! v) else [].
Proof.
  induction U as [|u U IH]; intros Hnd.
  - cbn. rewrite decide_False; [reflexivity | apply not_elem_of_nil].
  - apply NoDup_cons in Hnd as [Hu Hnd].
    rewrite adjEdges_cons, filter_app, fmap_app, filter_source_pairs,
      (IH Hnd).
    destruct (decide (u = v)) as [->|Hne].
    + rewrite decide_False by assumption.
      rewrite decide_True by now left. apply app_nil_r.
    + destruct (decide (v ∈ U)) as [Hin|Hnin].
      * rewrite decide_True by now right. reflexivity.
      * rewrite decide_False; [reflexivity|].
        intros Hin. apply elem_of_cons in Hin as [?|?]; [congruence | tauto].
Qed.

Lemma elem_of_adjEdges (U : list Elem) (adj : gmap string (list string))
    (a w : Elem) :
  (a, w) ∈ adjEdges U adj ↔ a ∈ U ∧ w ∈ default [] (adj !! a).
Proof.
  induction U as [|u U IH].
  - cbn. split; [intros H; inversion H | intros [H _]; inversion H].
  - rewrite adjEdges_cons, elem_of_app, IH, list_elem_of_fmap, elem_of_cons.
    split.
    + intros [(w' & Heq & Hw')|[? ?]]; [|tauto].
      injection Heq as -> ->. tauto.
    + intros [[->|Ha] Hw]; [|tauto]. left. now exists w.
Qed.

Lemma selfLoops_lookup (U : list Elem) (v : Elem) :
  default [] (selfLoops U !! v) = if decide (v ∈ U) then [v] else [].
Proof.
  unfold selfLoops.
  assert (Hgen : ∀ m : gmap string (list string),
             default [] (fold_left (λ m u, <[u := [u]]> m) U m !! v)
             = if decide (v ∈ U) then [v] else default [] (m !! v)).
  { induction U as [|u U IH]; intros m; cbn [fold_left].
    - rewrite decide_False; [reflexivity | apply not_elem_of_nil].
    - rewrite IH. destruct (decide (v ∈ U)) as [Hin|Hnin].
      + rewrite decide_True by now right. reflexivity.
      + destruct (decide (v = u)) as [->|Hne].
        * rewrite lookup_insert_eq, decide_True by now left. reflexivity.
        * rewrite lookup_insert_ne by congruence.
          rewrite decide_False; [reflexivity|].
          intros Hin. apply elem_of_cons in Hin as [?|?]; tauto. }
  rewrite Hgen, lookup_empty. reflexivity.
Qed.

(** One pair changes the adjacency set of its source only, by at most
    one element. *)
Lemma adjAdd_lookup (U : list Elem) (adj : gmap string (list string))
    (p : Pair) (v : Elem) :
  default [] (adjAdd U adj p !! v)
  = if decide (p.1 = v ∧ p.1 ∈ U ∧ p.2 ∈ U)
    then setAdd p.2 (default [] (adj !! v))
    else default [] (adj !! v).
Proof.
  unfold adjAdd.
  destruct (bool_decide (p.1 ∈ U)) eqn:E1;
    destruct (bool_decide (p.2 ∈ U)) eqn:E2; cbn [andb];
    first [apply bool_decide_eq_true_1 in E1
          |apply bool_decide_eq_false_1 in E1];
    first [apply bool_decide_eq_true_1 in E2
          |apply bool_decide_eq_false_1 in E2];
    try (rewrite decide_False by tauto; reflexivity).
  destruct (decide (p.1 = v)) as [<-|Hne].
  - rewrite decide_True by tauto. rewrite lookup_alter_eq.
    destruct (adj !! p.1) as [l|] eqn:El.
    + rewrite El. reflexivity.
    + rewrite lookup_insert_eq. reflexivity.
  - rewrite decide_False by tauto. rewrite lookup_alter_ne by assumption.
    destruct (adj !! p.1); [reflexivity|].
    now rewrite lookup_insert_ne.
Qed.

Lemma elem_of_adjAdd_fold (U : list Elem) (relPairs : list Pair)
    (v w : Elem) :
  ∀ adj,
    w ∈ default [] (fold_left (adjAdd U) relPairs adj !! v) ↔
    w ∈ default [] (adj !! v) ∨ inside U relPairs v w.
Proof.
  unfold inside.
  induction relPairs as [|p relPairs IH]; intros adj; cbn [fold_left].
  - split; [tauto|]. intros [?|[H _]]; [assumption | inversion H].
  - rewrite IH, adjAdd_lookup.
    assert (Hcons : (v, w) ∈ p :: relPairs ↔ p = (v, w) ∨ (v, w) ∈ relPairs).
    { rewrite elem_of_cons. split; intros [?|?]; auto. }
    rewrite Hcons. clear Hcons.
    destruct (decide (p.1 = v ∧ p.1 ∈ U ∧ p.2 ∈ U)) as [(Hv & H1 & H2)|Hn].
    + rewrite RelationFacts.elem_of_setAdd. split.
      * intros [[Hw|Hw]|Hw]; [|tauto|tauto].
        right. destruct p as [x y]. cbn [fst snd] in *. subst. tauto.
      * intros [Hw|[[Hp|Hp] HU]]; [tauto| |tauto].
        left. left. subst p. reflexivity.
    + split; [tauto|].
      intros [Hw|[[Hp|Hp] HU]]; [tauto| |tauto].
      destruct Hn. subst p. cbn [fst snd]. tauto.
Qed.

Lemma elem_of_reflexiveAdj (U : list Elem) (relPairs : list Pair)
    (v w : Elem) :
  w ∈ default [] (reflexiveAdj U relPairs !! v) ↔
  (v ∈ U ∧ w = v) ∨ inside U relPairs v w.
Proof.
  unfold reflexiveAdj. rewrite elem_of_adjAdd_fold, selfLoops_lookup.
  destruct (decide (v ∈ U)) as [Hin|Hnin].
  - rewrite list_elem_of_singleton. tauto.
  - split; [intros [H|?]; [inversion H | tauto]|].
    intros [[? _]|?]; tauto.
Qed.

Lemma adjEdges_ext (U : list Elem) (adj1 adj2 : gmap string (list string)) :
  (∀ u, u ∈ U → default [] (adj1 !! u) = default [] (adj2 !! u)) →
  adjEdges U adj1 = adjEdges U adj2.
Proof.
  induction U as [|u U IH]; intros Hext; [reflexivity|].
  rewrite !adjEdges_cons, (Hext u) by now left.
  f_equal. apply IH. intros x Hx. apply Hext. now right.
Qed.

Lemma length_setAdd (x : Elem) (s : list Elem) :
  length (setAdd x s) ≤ S (length s).
Proof.
  unfold setAdd. destruct (decide (x ∈ s)); [lia|].
  rewrite length_app. cbn. lia.
Qed.

Lemma length_adjEdges_bump (V : list Elem)
    (adj adj' : gmap string (list string)) (k : Elem) :
  NoDup V →
  (∀ u, u ≠ k → default [] (adj' !! u) = default [] (adj !! u)) →
  length (default [] (adj' !! k)) ≤ S (length (default [] (adj !! k))) →
  length (adjEdges V adj') ≤ S (length (adjEdges V adj)).
Proof.
  intros Hnd Hother Hk. induction V as [|u V IH]; [cbn; lia|].
  apply NoDup_cons in Hnd as [Hu Hnd].
  rewrite !adjEdges_cons, !length_app, !length_fmap.
  destruct (decide (u = k)) as [->|Hne].
  - rewrite (adjEdges_ext V adj' adj); [lia|].
    intros x Hx. apply Hother. congruence.
  - rewrite (Hother u Hne). specialize (IH Hnd). lia.
Qed.

Lemma length_adjEdges_fold (U : list Elem) (relPairs : list Pair) :
  NoDup U →
  ∀ adj,
    length (adjEdges U (fold_left (adjAdd U) relPairs adj))
    ≤ length (adjEdges U adj) + length relPairs.
Proof.
  intros Hnd. induction relPairs as [|p relPairs IH]; intros adj;
    cbn [fold_left length]; [lia|].
  specialize (IH (adjAdd U adj p)).
  assert (length (adjEdges U (adjAdd U adj p))
          ≤ S (length (adjEdges U adj))); [|lia].
  apply (length_adjEdges_bump U adj (adjAdd U adj p) p.1 Hnd).
  - intros u Hne. rewrite adjAdd_lookup.
    rewrite decide_False; [reflexivity|]. intros [? _]. congruence.
  - rewrite adjAdd_lookup.
    destruct (decide _); [apply length_setAdd | lia].
Qed.

Lemma length_adjEdges_small (V : list Elem)
    (adj : gmap string (list string)) :
  (∀ u, u ∈ V → length (default [] (adj !! u)) ≤ 1) →
  length (adjEdges V adj) ≤ length V.
Proof.
  induction V as [|u V IH]; intros Hsmall; [cbn; lia|].
  rewrite adjEdges_cons, length_app, length_fmap. cbn [length].
  pose proof (Hsmall u ltac:(now left)).
  specialize (IH (λ x Hx, Hsmall x ltac:(now right))). lia.
Qed.

Lemma length_adjEdges (U : list Elem) (relPairs : list Pair) :
  NoDup U →
  length (adjEdges U (reflexiveAdj U relPairs))
  ≤ length U + length relPairs.
Proof.
  intros Hnd. unfold reflexiveAdj.
  pose proof (length_adjEdges_fold U relPairs Hnd (selfLoops U)).
  assert (length (adjEdges U (selfLoops U)) ≤ length U); [|lia].
  apply length_adjEdges_small. intros u _. rewrite selfLoops_lookup.
  destruct (decide (u ∈ U)); cbn; lia.
Qed.

Section ReachClosure.
Variable U : list Elem.
Variable relPairs : list Pair.
Hypothesis U_NoDup : NoDup U.

Local Abbreviation adj := (reflexiveAdj U relPairs).
Local Abbreviation E := (adjEdges U (reflexiveAdj U relPairs)).

Lemma adj_as_buildAdj (v : Elem) :
  default [] (adj !! v) = default [] (buildAdj E !! v).
Proof.
  rewrite RelationFacts.buildAdj_lookup.
  rewrite filter_adjEdges by assumption.
  destruct (decide (v ∈ U)) as [Hin|Hnin]; [reflexivity|].
  apply nil_iff_no_elem. intros w Hw.
  apply elem_of_reflexiveAdj in Hw as [[? _]|(_ & ? & _)]; tauto.
Qed.

Lemma edge_E (x y : Elem) :
  edge E x y ↔ (x ∈ U ∧ y = x) ∨ inside U relPairs x y.
Proof.
  unfold edge. rewrite elem_of_adjEdges.
  rewrite elem_of_reflexiveAdj. unfold inside. tauto.
Qed.

Lemma tc_E_rtc (a v : Elem) :
  a ∈ U → tc (edge E) a v ↔ rtc (inside U relPairs) a v.
Proof.
  intros Ha. split.
  - intros Htc. clear Ha. induction Htc as [x y Hxy|x y z Hxy _ IH].
    + apply edge_E in Hxy as [[_ ->]|Hxy]; [reflexivity|].
      now apply rtc_once.
    + apply edge_E in Hxy as [[_ ->]|Hxy]; [assumption|].
      now apply (rtc_l _ _ y).
  - intros Hrtc. revert Ha.
    induction Hrtc as [x|x y z Hxy _ IH]; intros Hx.
    + apply tc_once, edge_E. left. tauto.
    + apply (tc_l _ _ y); [apply edge_E; now right|].
      apply IH. apply Hxy.
Qed.

Lemma reachRound_spec (fuel : nat) (a : Elem) (st : ClosureState) :
  a ∈ U → 2 * length E < fuel → StateOk U E st →
  ∃ st',
    reachRound fuel adj (Some (seen st)) a = Some (seen st') ∧
    StateOk U E st' ∧
    (∀ p, p ∈ result st → p ∈ result st') ∧
    (∀ v, tc (edge E) a v → pairKey a v ∈ seen st').
Proof.
  intros Ha Hfuel Hok. unfold reachRound.
  rewrite reachFrom_search.
  rewrite (search_ext adj (buildAdj E) a fuel adj_as_buildAdj).
  destruct (RelationFacts.search_total E a fuel ∅
              (rev (default [] (adj !! a))) st) as [st' Hrun].
  { rewrite length_rev, adj_as_buildAdj, RelationFacts.buildAdj_lookup,
      length_fmap.
    unfold pending.
    eapply Nat.le_lt_trans;
      [apply Nat.add_le_mono; apply length_filter|].
    lia. }
  exists st'. rewrite Hrun. split; [reflexivity|].
  apply (RelationFacts.search_spec U E a fuel Ha ∅
           (rev (default [] (adj !! a))) st st' Hok); [|exact Hrun].
  unfold SearchInv. split; [intros v Hv; set_solver|].
  split.
  { intros v Hv. rewrite RelationFacts.elem_of_rev in Hv.
    apply tc_once. unfold edge. apply elem_of_adjEdges. tauto. }
  split; [intros u w Hu; set_solver|].
  split.
  { intros w Hw. right. rewrite RelationFacts.elem_of_rev.
    unfold edge in Hw. apply elem_of_adjEdges in Hw. tauto. }
  intros v Hv. set_solver.
Qed.

Lemma reach_fold_spec (fuel : nat) (Us : list Elem) :
  2 * length E < fuel → (∀ a, a ∈ Us → a ∈ U) →
  ∀ st, StateOk U E st →
        ∃ st',
          fold_left (reachRound fuel adj) Us (Some (seen st))
          = Some (seen st') ∧
          StateOk U E st' ∧
          (∀ p, p ∈ result st → p ∈ result st') ∧
          (∀ a, a ∈ Us → ∀ v, tc (edge E) a v → pairKey a v ∈ seen st').
Proof.
  intros Hfuel. induction Us as [|a Us IH]; intros HUs st Hok;
    cbn [fold_left].
  - exists st. split; [reflexivity|]. split; [assumption|].
    split; [tauto|]. intros a Ha. inversion Ha.
  - destruct (reachRound_spec fuel a st (HUs a ltac:(now left)) Hfuel Hok)
      as (st1 & Hrun1 & Hok1 & Hmono1 & Hall1).
    rewrite Hrun1.
    destruct (IH (λ x Hx, HUs x ltac:(now right)) st1 Hok1)
      as (st2 & Hrun2 & Hok2 & Hmono2 & Hall2).
    exists st2. split; [assumption|]. split; [assumption|].
    split; [intros p Hp; now apply Hmono2, Hmono1|].
    intros x Hx v Hv. apply elem_of_cons in Hx as [->|Hx].
    + apply (RelationFacts.seen_mono U E st1 st2); try assumption.
      now apply Hall1.
    + now apply Hall2.
Qed.

Lemma closureFromRelation_keys :
  ∃ reach,
    closureFromRelation U relPairs = Some reach ∧
    ∀ k, k ∈ reach ↔
         ∃ a v, k = pairKey a v ∧ a ∈ U ∧ rtc (inside U relPairs) a v.
Proof.
  destruct (reach_fold_spec (S (2 * (length U + length relPairs))) U)
    with (st := {| result := []; seen := ∅ |})
    as (st' & Hrun & Hok & _ & Hall).
  { pose proof (length_adjEdges U relPairs U_NoDup). lia. }
  { tauto. }
  { apply RelationFacts.stateOk_empty. }
  exists (seen st'). split; [exact Hrun|].
  intros k. destruct Hok as [Hkeys Hres]. rewrite Hkeys. split.
  - intros ([a v] & Hp & <-). cbn [fst snd].
    destruct (Hres _ Hp) as [Ha Hav]. cbn [fst snd] in Ha, Hav.
    exists a, v. split; [reflexivity|]. split; [assumption|].
    destruct Hav as [<-|Htc]; [reflexivity|]. now apply tc_E_rtc.
  - intros (a & v & -> & Ha & Hrtc).
    apply Hkeys. apply (Hall a Ha). now apply tc_E_rtc.
Qed.
End ReachClosure.

(** X25. [closureFromRelation] always terminates, and the key set it
    returns holds exactly the keys of the pairs (a, v) with [a] in [U]
    and [v] reachable from [a] in zero or more steps along pairs of the
    relation that have both endpoints in [U]; pairs with an endpoint
    outside [U] contribute nothing. *)
Theorem closureFromRelation_spec (U : list Elem) (relPairs : list Pair) :
  NoDup U →
  ∃ reach,
    closureFromRelation U relPairs = Some reach ∧
    ∀ k, k ∈ reach ↔
         ∃ a v, k = pairKey a v ∧ a ∈ U ∧ rtc (inside U relPairs) a v.
Proof. apply closureFromRelation_keys. Qed.

Lemma closureFromRelation_spec_witness :
  ∃ reach,
    closureFromRelation ["1"; "2"] [("1", "2"); ("2", "3")] = Some reach ∧
    ∀ k, k ∈ reach ↔
         ∃ a v, k = pairKey a v ∧ a ∈ ["1"; "2"] ∧
                rtc (inside ["1"; "2"] [("1", "2"); ("2", "3")]) a v.
Proof.
  apply (closureFromRelation_spec ["1"; "2"] [("1", "2"); ("2", "3")]).
  apply NoDup_cons. split; [|apply NoDup_singleton].
  intros H. apply list_elem_of_singleton in H. discriminate.
Defined.

End ExtremaFacts.

(** * Facts about the set calculator *)

Module SetFacts.
Import Relations SetOps.

Lemma setAdd_NoDup (x : Elem) (s : list Elem) : NoDup s → NoDup (setAdd x s).
Proof.
  intros Hnd. unfold setAdd. destruct (decide (x ∈ s)) as [|Hnin];
    [assumption|].
  apply NoDup_app. split; [assumption|]. split; [|apply NoDup_singleton].
  intros y Hy Hyx. apply list_elem_of_singleton in Hyx. now subst y.
Qed.

(** Adding the elements of [l] that pass the test [f], one by one. *)
Lemma collect_spec (f : Elem → bool) (l : list Elem) :
  ∀ out,
    NoDup out →
    NoDup (fold_left (λ out x, if f x then setAdd x out else out) l out) ∧
    ∀ y, y ∈ fold_left (λ out x, if f x then setAdd x out else out) l out
         ↔ y ∈ out ∨ (y ∈ l ∧ f y = true).
Proof.
  induction l as [|x l IH]; intros out Hnd; cbn [fold_left].
  - split; [assumption|]. intros y. split; [tauto|].
    intros [?|[Hy _]]; [assumption | inversion Hy].
  - destruct (f x) eqn:Ef.
    + destruct (IH (setAdd x out) (setAdd_NoDup x out Hnd)) as [Hnd' Hin].
      split; [assumption|]. intros y. rewrite Hin.
      rewrite RelationFacts.elem_of_setAdd, elem_of_cons. split.
      * intros [[->|?]|[? ?]]; tauto.
      * intros [?|[[->|?] ?]]; tauto.
    + destruct (IH out Hnd) as [Hnd' Hin].
      split; [assumption|]. intros y. rewrite Hin, elem_of_cons. split.
      * intros [?|[? ?]]; tauto.
      * intros [?|[[->|?] ?]]; [tauto | congruence | tauto].
Qed.

(** On a source without repetition the collected elements are a filter
    of the source, in its order. *)
Lemma collect_filter (f : Elem → bool) (l : list Elem) :
  ∀ out,
    NoDup (out ++ l) →
    fold_left (λ out x, if f x then setAdd x out else out) l out
    = out ++ filter (λ x, f x = true) l.
Proof.
  induction l as [|x l IH]; intros out Hnd; cbn [fold_left].
  - now rewrite app_nil_r.
  - rewrite filter_cons.
    assert (Hx : x ∉ out).
    { apply NoDup_app in Hnd as (_ & Hdisj & _). intros Hin.
      apply (Hdisj x Hin). now left. }
    destruct (f x) eqn:Ef.
    + rewrite decide_True by reflexivity.
      unfold setAdd. rewrite decide_False by assumption.
      rewrite IH by now rewrite <- app_assoc.
      now rewrite <- app_assoc.
    + rewrite decide_False by discriminate. apply IH.
      apply NoDup_app in Hnd as (H1 & H2 & H3).
      apply NoDup_cons in H3 as [H3 H4].
      apply NoDup_app. split; [assumption|]. split; [|assumption].
      intros y Hy Hyl. apply (H2 y Hy). now right.
Qed.

Lemma has_true (s : list Elem) (x : Elem) : has s x = true ↔ x ∈ s.
Proof. unfold has. apply bool_decide_eq_true. Qed.

Lemma has_false (s : list Elem) (x : Elem) : negb (has s x) = true ↔ x ∉ s.
Proof.
  unfold has. rewrite negb_true_iff. apply bool_decide_eq_false.
Qed.

Lemma filter_all {A} (P : A → Prop) `{!∀ x, Decision (P x)} (l : list A) :
  (∀ x, x ∈ l → P x) → filter P l = l.
Proof.
  induction l as [|a l IH]; intros Hall; [reflexivity|].
  rewrite filter_cons, decide_True by (apply Hall; now left).
  f_equal. apply IH. intros x Hx. apply Hall. now right.
Qed.

(** Adding all the elements of [l]. *)
Lemma addAll_spec (l : list Elem) :
  ∀ out,
    NoDup out →
    NoDup (fold_left (λ s x, setAdd x s) l out) ∧
    ∀ y, y ∈ fold_left (λ s x, setAdd x s) l out ↔ y ∈ out ∨ y ∈ l.
Proof.
  intros out Hnd.
  destruct (collect_spec (λ _, true) l out Hnd) as [H1 H2].
  split; [exact H1|]. intros y. specialize (H2 y).
  change (y ∈ fold_left (λ s x, setAdd x s) l out
          ↔ y ∈ out ∨ (y ∈ l ∧ true = true)) in H2.
  tauto.
Qed.

Lemma addAll_filter (l : list Elem) :
  ∀ out,
    NoDup (out ++ l) →
    fold_left (λ s x, setAdd x s) l out = out ++ l.
Proof.
  intros out Hnd.
  pose proof (collect_filter (λ _, true) l out Hnd) as H.
  change (fold_left (λ s x, setAdd x s) l out
          = out ++ filter (λ _ : Elem, true = true) l) in H.
  rewrite H. f_equal. apply filter_all. reflexivity.
Qed.

Lemma toSet_spec (arr : list Elem) :
  NoDup (toSet arr) ∧ ∀ x, x ∈ toSet arr ↔ x ∈ arr.
Proof.
  unfold toSet.
  destruct (addAll_spec arr [] (NoDup_nil_2)) as [Hnd Hin].
  split; [assumption|]. intros x. rewrite Hin. split.
  - intros [H|?]; [inversion H | assumption].
  - tauto.
Qed.

Lemma toSet_NoDup (arr : list Elem) : NoDup arr → toSet arr = arr.
Proof.
  intros Hnd. unfold toSet. now rewrite addAll_filter.
Qed.

Lemma intersection_spec (a b : list Elem) :
  NoDup (intersection a b) ∧
  ∀ x, x ∈ intersection a b ↔ x ∈ a ∧ x ∈ b.
Proof.
  unfold intersection.
  destruct (collect_spec (has b) a [] (NoDup_nil_2)) as [Hnd Hin].
  split; [assumption|]. intros x. rewrite Hin, has_true. split.
  - intros [H|?]; [inversion H | assumption].
  - tauto.
Qed.

Lemma difference_spec (a b : list Elem) :
  NoDup (difference a b) ∧
  ∀ x, x ∈ difference a b ↔ x ∈ a ∧ x ∉ b.
Proof.
  unfold difference.
  destruct (collect_spec (λ x, negb (has b x)) a [] (NoDup_nil_2))
    as [Hnd Hin].
  split; [assumption|]. intros x. rewrite Hin, has_false. split.
  - intros [H|?]; [inversion H | assumption].
  - tauto.
Qed.

Lemma union_spec (a b : list Elem) :
  NoDup (union a b) ∧ ∀ x, x ∈ union a b ↔ x ∈ a ∨ x ∈ b.
Proof.
  unfold union.
  destruct (toSet_spec a) as [Hnda Hina].
  destruct (addAll_spec b (toSet a) Hnda) as [Hnd Hin].
  split; [assumption|]. intros x. rewrite Hin, Hina. tauto.
Qed.

Ltac nodup_concrete :=
  repeat (apply NoDup_cons; split;
          [let H := fresh in
           intros H;
           repeat (apply elem_of_cons in H as [H|H]; [discriminate|]);
           inversion H|]);
  apply NoDup_nil_2.

(** Adding to a set the elements of another set. *)
Lemma addAll_from (l out : list Elem) :
  NoDup out →
  fold_left (λ s x, setAdd x s) l out
  = out ++ filter (.∉ out) (toSet l).
Proof.
  intros Hout. unfold toSet.
  assert (Hgen : ∀ l acc,
             NoDup acc →
             fold_left (λ s x, setAdd x s) l (out ++ filter (.∉ out) acc)
             = out ++ filter (.∉ out)
                             (fold_left (λ s x, setAdd x s) l acc)).
  { clear l. induction l as [|x l IH]; intros acc Hacc; cbn [fold_left];
      [reflexivity|].
    rewrite <- IH by now apply setAdd_NoDup. f_equal.
    unfold setAdd.
    destruct (decide (x ∈ acc)) as [Hxa|Hxa].
    - destruct (decide (x ∈ out)) as [Hxo|Hxo].
      + rewrite decide_True by (apply elem_of_app; now left). reflexivity.
      + rewrite decide_True; [reflexivity|].
        apply elem_of_app. right. now apply list_elem_of_filter.
    - rewrite filter_app, filter_cons, filter_nil.
      destruct (decide (x ∈ out)) as [Hxo|Hxo].
      + rewrite decide_True by (apply elem_of_app; now left).
        rewrite decide_False by tauto. now rewrite app_nil_r.
      + rewrite decide_False.
        * rewrite decide_True by assumption. now rewrite app_assoc.
        * rewrite elem_of_app, list_elem_of_filter. tauto. }
  specialize (Hgen l [] (NoDup_nil_2)).
  rewrite filter_nil, app_nil_r in Hgen. exact Hgen.
Qed.

Lemma equals_iff (a b : list Elem) :
  NoDup a → NoDup b →
  equals a b = true ↔ ∀ x, x ∈ a ↔ x ∈ b.
Proof.
  intros Ha Hb. unfold equals.
  destruct (Nat.eqb_spec (length a) (length b)) as [Hlen|Hlen]; cbn [negb].
  - rewrite forallb_forall. split.
    + intros Hall.
      assert (Hab : ∀ x, x ∈ a → x ∈ b).
      { intros x Hx. apply has_true, Hall. now apply list_elem_of_In. }
      assert (Hperm : a ≡ₚ b).
      { apply submseteq_length_Permutation;
          [now apply NoDup_submseteq | lia]. }
      intros x. now rewrite Hperm.
    + intros Heq x Hx. apply has_true, Heq. now apply list_elem_of_In.
  - split; [discriminate|]. intros Heq. destruct Hlen.
    apply Permutation_length. now apply NoDup_Permutation.
Qed.

Lemma place_fold (A B C U : list Elem) :
  ∀ b,
    fold_left (place A B C) U b =
    {| outside := outside b ++ filter (λ x, (x ∉ A) ∧ (x ∉ B) ∧ (x ∉ C)) U;
       onlyA := onlyA b ++ filter (λ x, x ∈ A ∧ (x ∉ B) ∧ (x ∉ C)) U;
       onlyB := onlyB b ++ filter (λ x, (x ∉ A) ∧ x ∈ B ∧ (x ∉ C)) U;
       onlyC := onlyC b ++ filter (λ x, (x ∉ A) ∧ (x ∉ B) ∧ x ∈ C) U;
       AandB := AandB b ++ filter (λ x, x ∈ A ∧ x ∈ B ∧ (x ∉ C)) U;
       AandC := AandC b ++ filter (λ x, x ∈ A ∧ (x ∉ B) ∧ x ∈ C) U;
       BandC := BandC b ++ filter (λ x, (x ∉ A) ∧ x ∈ B ∧ x ∈ C) U;
       AandBandC := AandBandC b ++ filter (λ x, x ∈ A ∧ x ∈ B ∧ x ∈ C) U |}.
Proof.
  induction U as [|x U IH]; intros b; cbn [fold_left].
  - rewrite !filter_nil, !app_nil_r. now destruct b.
  - rewrite IH. unfold place. unfold has.
    rewrite !filter_cons.
    destruct (bool_decide (x ∈ A)) eqn:Ha;
      destruct (bool_decide (x ∈ B)) eqn:Hb;
      destruct (bool_decide (x ∈ C)) eqn:Hc;
      first [apply bool_decide_eq_true_1 in Ha
            |apply bool_decide_eq_false_1 in Ha];
      first [apply bool_decide_eq_true_1 in Hb
            |apply bool_decide_eq_false_1 in Hb];
      first [apply bool_decide_eq_true_1 in Hc
            |apply bool_decide_eq_false_1 in Hc];
      cbn [Nat.add Nat.eqb andb
           outside onlyA onlyB onlyC AandB AandC BandC AandBandC];
      repeat (match goal with
              | |- context [decide ?P] =>
                  first [rewrite (decide_True (P := P)) by tauto
                        |rewrite (decide_False (P := P)) by tauto]
              end);
      now rewrite <- ?app_assoc.
Qed.

(** X26. On sets (lists without repetition) the three operations are
    filters that keep the insertion order: the intersection and the
    difference keep the elements of [a] that are, respectively are not,
    in [b], and the union is [a] followed by the elements of [b] that are
    not in [a]. *)
Theorem set_operations_ordered (a b : list Elem) :
  NoDup a → NoDup b →
  intersection a b = filter (.∈ b) a ∧
  difference a b = filter (.∉ b) a ∧
  union a b = a ++ filter (.∉ a) b.
Proof.
  intros Ha Hb. split; [|split].
  - unfold intersection. rewrite collect_filter by assumption. cbn [app].
    apply list_filter_iff. intros x. apply has_true.
  - unfold difference.
    rewrite (collect_filter (λ x, negb (has b x))) by assumption. cbn [app].
    apply list_filter_iff. intros x. apply has_false.
  - unfold union. rewrite (toSet_NoDup a Ha).
    assert (Hgen : ∀ l out,
               NoDup out → NoDup l →
               fold_left (λ out x, setAdd x out) l out
               = out ++ filter (.∉ out) l).
    { induction l as [|x l IH]; intros out Hout Hl; cbn [fold_left].
      - now rewrite app_nil_r.
      - apply NoDup_cons in Hl as [Hx Hl].
        rewrite IH by (try apply setAdd_NoDup; assumption).
        rewrite filter_cons. unfold setAdd.
        destruct (decide (x ∈ out)) as [Hin|Hnin].
        + now rewrite decide_False by tauto.
        + rewrite decide_True by assumption. rewrite <- app_assoc.
          cbn [app]. do 2 f_equal.
          apply ExtremaFacts.filter_ext_elem. intros y Hy.
          rewrite elem_of_app, list_elem_of_singleton. split.
          * tauto.
          * intros Hyo [?| ->]; tauto. }
    now apply Hgen.
Qed.

Lemma set_operations_ordered_witness :
  intersection ["1"; "2"; "3"] ["3"; "1"; "5"] = filter (.∈ ["3"; "1"; "5"]) ["1"; "2"; "3"] ∧
  difference ["1"; "2"; "3"] ["3"; "1"; "5"] = filter (.∉ ["3"; "1"; "5"]) ["1"; "2"; "3"] ∧
  union ["1"; "2"; "3"] ["3"; "1"; "5"]
  = ["1"; "2"; "3"] ++ filter (.∉ ["1"; "2"; "3"]) ["3"; "1"; "5"].
Proof.
  apply (set_operations_ordered ["1"; "2"; "3"] ["3"; "1"; "5"]);
    nodup_concrete.
Defined.

(** X27. [new Set(arr)] (and so [uniq]) keeps exactly the elements of
    the array, each once, in the order of their first occurrence: the
    result has no repetition, has the same members, is a fixed point of
    the conversion, and extends the result for every prefix of the
    array. *)
Theorem toSet_spec_first_occurrence (arr more : list Elem) :
  NoDup (toSet arr) ∧
  (∀ x, x ∈ toSet arr ↔ x ∈ arr) ∧
  uniq (toSet arr) = toSet arr ∧
  toSet (arr ++ more) = toSet arr ++ filter (.∉ arr) (toSet more).
Proof.
  destruct (toSet_spec arr) as [Hnd Hin].
  split; [assumption|]. split; [assumption|].
  split; [now apply toSet_NoDup|].
  unfold toSet at 1. rewrite fold_left_app. fold (toSet arr).
  rewrite addAll_from by assumption.
  f_equal. apply ExtremaFacts.filter_ext_elem. intros x _.
  now rewrite Hin.
Qed.

(** X28. On sets, [equals] decides equality of the members: it returns
    true exactly when the two sets have the same elements, whatever the
    insertion orders are. *)
Theorem equals_spec (a b : list Elem) :
  NoDup a → NoDup b →
  equals a b = true ↔ ∀ x, x ∈ a ↔ x ∈ b.
Proof. apply equals_iff. Qed.

Lemma equals_spec_witness :
  equals ["1"; "2"; "3"] ["3"; "1"; "2"] = true ↔
  ∀ x, x ∈ ["1"; "2"; "3"] ↔ x ∈ ["3"; "1"; "2"].
Proof.
  apply (equals_spec ["1"; "2"; "3"] ["3"; "1"; "2"]); nodup_concrete.
Defined.

(** X29. The two De Morgan checks of the page never fail: for all
    inputs [U], [A] and [B] (with or without repetitions, inside [U] or
    not) both [demorgan1_ok] and [demorgan2_ok] are true. *)
Theorem demorgan_checks_always_true (U A B : list Elem) :
  demorgan1_ok U A B = true ∧ demorgan2_ok U A B = true.
Proof.
  unfold demorgan1_ok, demorgan2_ok. split.
  - apply equals_iff;
      [apply difference_spec | apply intersection_spec |].
    intros x.
    rewrite (proj2 (difference_spec _ _)), (proj2 (intersection_spec _ _)),
      !(proj2 (difference_spec _ _)), (proj2 (union_spec _ _)).
    tauto.
  - apply equals_iff; [apply difference_spec | apply union_spec |].
    intros x.
    rewrite (proj2 (difference_spec _ _)), (proj2 (union_spec _ _)),
      !(proj2 (difference_spec _ _)), (proj2 (intersection_spec _ _)).
    destruct (decide (x ∈ A)); destruct (decide (x ∈ B)); tauto.
Qed.

(** X30. [bucketize] splits the universe into the eight regions of the
    Venn diagram: every bucket is the filter of [U], in order, by
    membership in [A], [B] and [C], so every element of [U] lands in
    exactly one bucket and the last branch of the chain is never
    missed. *)
Theorem bucketize_regions (U A B C : list Elem) :
  bucketize U A B C =
  {| outside := filter (λ x, (x ∉ A) ∧ (x ∉ B) ∧ (x ∉ C)) U;
     onlyA := filter (λ x, x ∈ A ∧ (x ∉ B) ∧ (x ∉ C)) U;
     onlyB := filter (λ x, (x ∉ A) ∧ x ∈ B ∧ (x ∉ C)) U;
     onlyC := filter (λ x, (x ∉ A) ∧ (x ∉ B) ∧ x ∈ C) U;
     AandB := filter (λ x, x ∈ A ∧ x ∈ B ∧ (x ∉ C)) U;
     AandC := filter (λ x, x ∈ A ∧ (x ∉ B) ∧ x ∈ C) U;
     BandC := filter (λ x, (x ∉ A) ∧ x ∈ B ∧ x ∈ C) U;
     AandBandC := filter (λ x, x ∈ A ∧ x ∈ B ∧ x ∈ C) U |}.
Proof.
  unfold bucketize. now rewrite place_fold.
Qed.

End SetFacts.
